(** * pmw (Pin My Workflows): the resolution, policy and rewrite engines

    A shallow embedding of [main.go].  The file holds two revisions of the
    program: the first (lines 1-325) follows annotated tags and rewrites a
    line without its indentation; the second (lines 325-692) looks for the
    latest tag with a given prefix, knows the "main" branch and keeps the
    indentation.  Both are embedded; where they differ the definitions take
    a [revision].

    Go strings are byte strings: [string] of the standard library, one
    [ascii] per byte.  The characters the program looks for are all ASCII,
    and no byte of a multi-byte UTF-8 rune is an ASCII byte, so that the
    byte-wise functions below agree with Go's rune-wise ones. *)

From Stdlib Require Import ZArith Ascii String List Bool Lia ZifyBool Permutation Sorted.
From stdpp Require Import base option list strings gmap.

Import ListNotations.
Local Open Scope Z_scope.

(** ** Strings *)

Module Str.

Fixpoint take (n : nat) (s : string) : string :=
  match n, s with
  | S n', String c t => String c (take n' t)
  | _, _ => EmptyString
  end.

Fixpoint drop (n : nat) (s : string) : string :=
  match n, s with
  | S n', String _ t => drop n' t
  | _, _ => s
  end.

(** Length of the longest prefix of [s] whose bytes all satisfy [p]. *)
Fixpoint span (p : ascii -> bool) (s : string) : nat :=
  match s with
  | String c t => if p c then S (span p t) else O
  | EmptyString => O
  end.

Fixpoint all (p : ascii -> bool) (s : string) : bool :=
  match s with
  | String c t => p c && all p t
  | EmptyString => true
  end.

Definition code (c : ascii) : N := N_of_ascii c.

Definition eqc (c d : ascii) : bool := Ascii.eqb c d.

End Str.

(** [strings.HasPrefix] *)
Definition HasPrefix (s prefix : string) : bool := String.prefix prefix s.

(** [strings.TrimPrefix] *)
Definition TrimPrefix (s prefix : string) : string :=
  if HasPrefix s prefix then Str.drop (String.length prefix) s else s.

(** [strings.Split] with a separator of one byte; the result is never empty. *)
Fixpoint Split (s : string) (sep : ascii) : list string :=
  match s with
  | EmptyString => [EmptyString]
  | String c t =>
      if Str.eqc c sep then EmptyString :: Split t sep
      else match Split t sep with
           | h :: r => String c h :: r
           | [] => [String c EmptyString]
           end
  end.

(** [strings.Join] with a separator of one byte. *)
Fixpoint Join (elems : list string) (sep : ascii) : string :=
  match elems with
  | [] => EmptyString
  | [e] => e
  | e :: rest => e +:+ String sep (Join rest sep)
  end.

(** ** [fmt.Sscanf(part, "%d", &num)]

    The scanner skips leading space, takes an optional sign and then decimal
    digits, and stops at the first other byte; the rest of the input is not
    looked at.  With no digit, at a newline, or when the number does not fit
    an [int] (64 bits on the three build targets of the Makefile) the scan
    fails and [num] keeps its value. *)

Module Scan.

Definition isDigit (c : ascii) : bool :=
  (48 <=? Str.code c)%N && (Str.code c <=? 57)%N.

Definition digitVal (c : ascii) : Z := Z.of_N (Str.code c) - 48.

(** [\t], [\v], [\f], [\r] and the blank; [\n] is dealt with apart. *)
Definition isBlank (c : ascii) : bool :=
  let n := Str.code c in
  (n =? 9)%N || (n =? 11)%N || (n =? 12)%N || (n =? 13)%N || (n =? 32)%N.

Definition byte (n : N) (c : ascii) : bool := (Str.code c =? n)%N.

(** [ss.SkipSpace] with [nlIsSpace] unset.  [None] is the "unexpected
    newline" failure.  The spaces beyond ASCII of the scanner's table are
    U+0085, U+00A0, U+1680, U+2000..U+200A, U+2028, U+2029, U+202F, U+205F
    and U+3000, matched here by their UTF-8 encodings. *)
Fixpoint SkipSpace (s : string) : option string :=
  match s with
  | EmptyString => Some s
  | String c t =>
      if byte 10 c then None
      else if isBlank c then SkipSpace t
      else
        match t with
        | String d t1 =>
            if byte 194 c && (byte 133 d || byte 160 d) then SkipSpace t1
            else
              match t1 with
              | String e t2 =>
                  if byte 225 c && byte 154 d && byte 128 e then SkipSpace t2
                  else if byte 226 c && byte 128 d &&
                          (((128 <=? Str.code e)%N && (Str.code e <=? 138)%N)
                           || byte 168 e || byte 169 e || byte 175 e)
                  then SkipSpace t2
                  else if byte 226 c && byte 129 d && byte 159 e then SkipSpace t2
                  else if byte 227 c && byte 128 d && byte 128 e then SkipSpace t2
                  else Some s
              | EmptyString => Some s
              end
        | EmptyString => Some s
        end
  end.

(** Value of a run of decimal digits, most significant first. *)
Fixpoint decimalFrom (acc : Z) (s : string) : Z :=
  match s with
  | String c t => decimalFrom (10 * acc + digitVal c) t
  | EmptyString => acc
  end.

Definition decimal (s : string) : Z := decimalFrom 0 s.

Definition acceptSign (s : string) : bool * string :=
  match s with
  | String c t =>
      if Str.eqc c "-" then (true, t)
      else if Str.eqc c "+" then (false, t)
      else (false, s)
  | EmptyString => (false, s)
  end.

Definition fitsInt (v : Z) : bool := (- 2 ^ 63 <=? v) && (v <? 2 ^ 63).

(** [ss.scanInt] for the verb [d]; [None] when the scan fails. *)
Definition scanInt (s : string) : option Z :=
  match SkipSpace s with
  | None => None
  | Some r =>
      let '(neg, r1) := acceptSign r in
      let n := Str.span isDigit r1 in
      if (n =? 0)%nat then None
      else
        let v := decimal (Str.take n r1) in
        let v := if neg then - v else v in
        if fitsInt v then Some v else None
  end.

(** [fmt.Sscanf(s, "%d", &num)], as the value of [num] afterwards. *)
Definition Sscanf_d (s : string) (num : Z) : Z :=
  match scanInt s with
  | Some v => v
  | None => num
  end.

End Scan.

(** ** compareVersions *)

(** The body of the loop of [compareVersions] from index [i] on, with [n]
    iterations left. *)
Fixpoint compareFrom (parts1 parts2 : list string) (i n : nat) : Z :=
  match n with
  | O => 0
  | S n' =>
      let num1 := match parts1 !! i with
                  | Some p => Scan.Sscanf_d p 0
                  | None => 0
                  end in
      let num2 := match parts2 !! i with
                  | Some p => Scan.Sscanf_d p 0
                  | None => 0
                  end in
      if num1 >? num2 then 1
      else if num1 <? num2 then -1
      else compareFrom parts1 parts2 (S i) n'
  end.

Definition compareVersions (v1 v2 : string) : Z :=
  let parts1 := Split v1 "." in
  let parts2 := Split v2 "." in
  let maxLen := length parts1 in
  let maxLen := if (maxLen <? length parts2)%nat then length parts2 else maxLen in
  compareFrom parts1 parts2 0 maxLen.

(** ** The configuration *)

(** [AcceptedMapping] is a Go map: [None] is the nil map that
    [json.Unmarshal] leaves when the configuration file has no
    "acceptedMapping" member.  Reading a nil map finds nothing; assigning to
    it panics. *)
Record Config := {
  AllowedOrgs : list string;
  AcceptedMapping : option (gmap string string);
}.

Definition lookupAccepted (c : Config) (key : string) : option string :=
  match AcceptedMapping c with
  | Some m => m !! key
  | None => None
  end.

(** ** The remote service and what the program lets be seen *)

(** What the JSON decoder of the caller gets out of a response body:
    the "object" member with its "type" and "sha" (absent members are empty
    strings), or the array of tags with "name" and "commit.sha", or an error
    of the decoder. *)
Inductive Body :=
| JObject (type sha : string)
| JTags (tags : list (string * string))
| JBad.

Inductive Response :=
| Failed                            (* [http.Get] returned an error *)
| Status (code : Z) (body : Body).

Inductive Error :=
| ErrGet
| ErrDecode
| ErrStatus (code : Z)              (* "GitHub API returned status: %d" *)
| ErrNoTags (prefix : string)       (* "no tags found with prefix %s" *)
| ErrNoLatest (prefix : string).    (* "could not resolve latest tag for prefix %s" *)

Inductive Result :=
| Ok (commitSha : string)
| Err (e : Error).

(** The effects of a run, in the order in which they happen. *)
Inductive Event :=
| EvGet (url : string)
| EvNote (owner repo tag commitSha orginUrl : string)
| EvPrevious (key commitSha : string)
| EvError (key : string) (e : Error)
| EvPrompt (key commitSha newUsage answer : string)
| EvAdded (owner : string)
| EvInvalid
| EvSave (c : Config)
| EvUpdated (filePath content : string)
| EvFileError (filePath : string)
| EvExit (code : Z).

(** The day that [time.Now()] gives, with a year of four digits. *)
Record Date := { year : nat; month : nat; day : nat }.

Definition digit (n : nat) : ascii := ascii_of_nat (48 + n mod 10).

(** [Format("2006-01-02")] *)
Definition formatDate (d : Date) : string :=
  String (digit (year d / 1000)) (String (digit (year d / 100))
    (String (digit (year d / 10)) (String (digit (year d))
      (String "-" (String (digit (month d / 10)) (String (digit (month d))
        (String "-" (String (digit (day d / 10)) (String (digit (day d))
          EmptyString))))))))).

(** The remote service answers by URL, with the same answer whenever it is
    asked; [now] is the day of the run, which is taken not to go past
    midnight. *)
Record Env := {
  httpGet : string -> Response;
  now : Date;
}.

Definition today (env : Env) : string := formatDate (now env).

Definition api : string := "https://api.github.com/repos/".

Inductive revision := Rev1 | Rev2.

(** *** First revision: annotated tags are followed *)

Module First.

Definition tagUrl (owner repo sha : string) : string :=
  api +:+ owner +:+ "/" +:+ repo +:+ "/git/tags/" +:+ sha.

Definition resolveTag (env : Env) (owner repo sha : string)
  : Result * list Event :=
  let url := tagUrl owner repo sha in
  match httpGet env url with
  | Failed => (Err ErrGet, [EvGet url])
  | Status code body =>
      if negb (code =? 200) then (Err (ErrStatus code), [EvGet url])
      else match body with
           | JObject _ sha' => (Ok sha', [EvGet url])
           | _ => (Err ErrDecode, [EvGet url])
           end
  end.

(** The loop [for ref.Object.Type == "tag"], entered with the type being
    "tag".  The loop has no bound of its own: [fuel] counts its iterations
    and [None] says that they were not enough. *)
Fixpoint deref (fuel : nat) (env : Env) (owner repo commitSha : string)
  : option (Result * list Event) :=
  match fuel with
  | O => None
  | S fuel' =>
      match resolveTag env owner repo commitSha with
      | (Err e, evs) => Some (Err e, evs)
      | (Ok resolvedSha, evs) =>
          let commitSha := resolvedSha in
          let url := tagUrl owner repo commitSha in
          match httpGet env url with
          | Failed => Some (Err ErrGet, evs ++ [EvGet url])
          | Status code body =>
              if negb (code =? 200) then Some (Ok commitSha, evs ++ [EvGet url])
              else match body with
                   | JObject type _ =>
                       if (type =? "tag")%string then
                         match deref fuel' env owner repo commitSha with
                         | Some (r, evs') => Some (r, evs ++ [EvGet url] ++ evs')
                         | None => None
                         end
                       else Some (Ok commitSha, evs ++ [EvGet url])
                   | _ => Some (Err ErrDecode, evs ++ [EvGet url])
                   end
          end
      end
  end.

Definition getCommitSha (fuel : nat) (env : Env) (owner repo tag : string)
  : option (Result * list Event) :=
  let orginUrl :=
    if (tag =? "master")%string
    then api +:+ owner +:+ "/" +:+ repo +:+ "/git/ref/heads/master"
    else api +:+ owner +:+ "/" +:+ repo +:+ "/git/ref/tags/" +:+ tag in
  match httpGet env orginUrl with
  | Failed => Some (Err ErrGet, [EvGet orginUrl])
  | Status code body =>
      if negb (code =? 200) then Some (Err (ErrStatus code), [EvGet orginUrl])
      else match body with
           | JObject type sha =>
               if (type =? "tag")%string then
                 match deref fuel env owner repo sha with
                 | Some (Ok commitSha, evs) =>
                     Some (Ok commitSha,
                           [EvGet orginUrl] ++ evs
                             ++ [EvNote owner repo tag commitSha orginUrl])
                 | Some (Err e, evs) => Some (Err e, [EvGet orginUrl] ++ evs)
                 | None => None
                 end
               else Some (Ok sha, [EvGet orginUrl])
           | _ => Some (Err ErrDecode, [EvGet orginUrl])
           end
  end.

End First.

(** ** Regular expressions

    The two expressions of the program are sequences of literals and greedy
    repetitions of one character class.  [matchHere] is the backtracking
    search whose first success Go's leftmost-first matching returns. *)

Module Regexp.

Inductive atom :=
| Lit (text : string)
| Rep (cls : ascii -> bool) (min : nat) (capture : bool).

(** Tries the lengths [n], [n-1], ..., [min]: a greedy repetition gives
    back one character at a time. *)
Fixpoint longestFirst {A : Type} (min n : nat) (f : nat -> option A)
  {struct n} : option A :=
  if (n <? min)%nat then None
  else match f n with
       | Some x => Some x
       | None => match n with
                 | O => None
                 | S n' => longestFirst min n' f
                 end
       end.

(** The groups captured by a match of [re] that starts at the start of [s]. *)
Fixpoint matchHere (re : list atom) (s : string) : option (list string) :=
  match re with
  | [] => Some []
  | Lit text :: re' =>
      if String.prefix text s
      then matchHere re' (Str.drop (String.length text) s)
      else None
  | Rep cls min capture :: re' =>
      longestFirst min (Str.span cls s)
        (fun k =>
           match matchHere re' (Str.drop k s) with
           | Some groups =>
               Some (if capture then Str.take k s :: groups else groups)
           | None => None
           end)
  end.

(** [FindStringSubmatch] of a compiled expression, without the whole match
    in front. *)
Fixpoint FindStringSubmatch (re : list atom) (s : string)
  : option (list string) :=
  match matchHere re s with
  | Some groups => Some groups
  | None => match s with
            | EmptyString => None
            | String _ t => FindStringSubmatch re t
            end
  end.

(** [\s] of Go: tab, newline, form feed, carriage return and blank. *)
Definition space (c : ascii) : bool :=
  let n := Str.code c in
  (n =? 9)%N || (n =? 10)%N || (n =? 12)%N || (n =? 13)%N || (n =? 32)%N.

Definition notChar (d : ascii) (c : ascii) : bool := negb (Str.eqc c d).

Definition notSpace (c : ascii) : bool := negb (space c).

Definition hexLower (c : ascii) : bool :=
  let n := Str.code c in
  ((48 <=? n)%N && (n <=? 57)%N) || ((97 <=? n)%N && (n <=? 102)%N).

End Regexp.

Import Regexp.

(** [uses:\s*([^/]+)/([^@]+)@(\S+)] *)
Definition usageRegex : list atom :=
  [ Lit "uses:"; Rep space 0 false;
    Rep (notChar "/") 1 true; Lit "/";
    Rep (notChar "@") 1 true; Lit "@";
    Rep notSpace 1 true ].

(** [regexp.MustCompile(`^[0-9a-f]{40}$`).MatchString(tag)] *)
Definition isCommitHash (tag : string) : bool :=
  (String.length tag =? 40)%nat && Str.all hexLower tag.

(** ** The state of a run *)

Record World := {
  config : Config;              (* the global [config] *)
  stdin : list string;          (* the answers to come, lower-cased and trimmed *)
  files : gmap string string;   (* the workflow files *)
  saved : option Config;        (* what the configuration file holds *)
  trace : list Event;
}.

Definition emit (evs : list Event) (w : World) : World :=
  {| config := config w; stdin := stdin w; files := files w;
     saved := saved w; trace := trace w ++ evs |}.

Definition setConfig (c : Config) (w : World) : World :=
  {| config := c; stdin := stdin w; files := files w;
     saved := saved w; trace := trace w |}.

(** [reader.ReadString('\n')] followed by [strings.ToLower] and
    [strings.TrimSpace]; at the end of the input the answer is empty. *)
Definition readAnswer (w : World) : string * World :=
  match stdin w with
  | a :: rest =>
      (a, {| config := config w; stdin := rest; files := files w;
             saved := saved w; trace := trace w |})
  | [] => (EmptyString, w)
  end.

(** [saveConfig]; the write is taken to succeed and the JSON encoding to
    give back the same configuration when read. *)
Definition saveConfig (w : World) : World :=
  {| config := config w; stdin := stdin w; files := files w;
     saved := Some (config w); trace := trace w ++ [EvSave (config w)] |}.

Definition writeFile (filePath content : string) (w : World) : World :=
  {| config := config w; stdin := stdin w;
     files := <[filePath := content]> (files w);
     saved := saved w; trace := trace w ++ [EvUpdated filePath content] |}.

(** How a piece of the program ends: it returns, it leaves through
    [os.Exit], it panics, or (first revision only) it does not get out of
    the dereferencing loop within the fuel. *)
Inductive Outcome (A : Type) :=
| Returns (a : A) (w : World)
| Exits (code : Z) (w : World)
| Panics (w : World)
| Hangs.

Arguments Returns {A} a w.
Arguments Exits {A} code w.
Arguments Panics {A} w.
Arguments Hangs {A}.

(** Two functions of Go's library are taken as they are specified, not as
    they are implemented: [sort.Slice] (the order of equal elements is not
    fixed) and [strings.EqualFold] (Unicode simple case folding). *)
Class GoLibrary := {
  sort_Slice : list string -> (string -> string -> bool) -> list string;
  EqualFold : string -> string -> bool;
}.

Section Program.

Context {lib : GoLibrary}.

(** *** Second revision: the latest tag with a prefix *)

Definition versionLess (a b : string) : bool :=
  compareVersions (TrimPrefix a "v") (TrimPrefix b "v") >? 0.

Definition commitOf (tags : list (string * string)) (name : string)
  : option string :=
  match List.find (fun t => (fst t =? name)%string) tags with
  | Some t => Some (snd t)
  | None => None
  end.

Definition findLatestVersionTag (env : Env) (owner repo prefix : string)
  : Result * list Event :=
  let url := api +:+ owner +:+ "/" +:+ repo +:+ "/tags" in
  match httpGet env url with
  | Failed => (Err ErrGet, [EvGet url])
  | Status code body =>
      if negb (code =? 200) then (Err (ErrStatus code), [EvGet url])
      else match body with
           | JTags tags =>
               let filtered :=
                 List.filter (fun n => HasPrefix n prefix) (List.map fst tags) in
               if (length filtered =? 0)%nat
               then (Err (ErrNoTags prefix), [EvGet url])
               else
                 let filtered := sort_Slice filtered versionLess in
                 match filtered with
                 | latestTag :: _ =>
                     match commitOf tags latestTag with
                     | Some sha => (Ok sha, [EvGet url])
                     | None => (Err (ErrNoLatest prefix), [EvGet url])
                     end
                 | [] =>
                     (* [sort.Slice] sorts in place: the slice keeps its
                        length, so that [filtered[0]] is there *)
                     (Err (ErrNoLatest prefix), [EvGet url])
                 end
           | _ => (Err ErrDecode, [EvGet url])
           end
  end.

Definition getCommitSha2 (env : Env) (owner repo tag : string)
  : Result * list Event :=
  let orginUrl :=
    if (tag =? "master")%string
    then Some (api +:+ owner +:+ "/" +:+ repo +:+ "/git/ref/heads/master")
    else if (tag =? "main")%string
    then Some (api +:+ owner +:+ "/" +:+ repo +:+ "/git/ref/heads/main")
    else None in
  match orginUrl with
  | None => findLatestVersionTag env owner repo tag
  | Some orginUrl =>
      match httpGet env orginUrl with
      | Failed => (Err ErrGet, [EvGet orginUrl])
      | Status code body =>
          if negb (code =? 200) then (Err (ErrStatus code), [EvGet orginUrl])
          else match body with
               | JObject _ sha => (Ok sha, [EvGet orginUrl])
               | _ => (Err ErrDecode, [EvGet orginUrl])
               end
      end
  end.

Definition getCommitSha (rev : revision) (fuel : nat) (env : Env)
  (owner repo tag : string) : option (Result * list Event) :=
  match rev with
  | Rev1 => First.getCommitSha fuel env owner repo tag
  | Rev2 => Some (getCommitSha2 env owner repo tag)
  end.

(** ** The policy and the rewriting: processFile *)

(** [isAllowedOrg] *)
Definition isAllowedOrg (c : Config) (owner : string) : bool :=
  existsb (fun org => EqualFold owner org) (AllowedOrgs c).

Definition keyOf (owner repo tag : string) : string :=
  owner +:+ "/" +:+ repo +:+ "@" +:+ tag.

(** The variable [versionTag]. *)
Definition versionTagOf (env : Env) (tag : string) : string :=
  if (tag =? "master")%string then "#master-" +:+ today env
  else "#" +:+ tag.

Definition blankOrTab (c : ascii) : bool :=
  Str.eqc c " " || Str.eqc c "009".

(** The variable [leadingWhitespace] once its loop is over. *)
Definition leadingWhitespace (line : string) : string :=
  Str.take (Str.span blankOrTab line) line.

(** The variable [newUsage]. *)
Definition usage (owner repo commitSha versionTag : string) : string :=
  "uses: " +:+ owner +:+ "/" +:+ repo +:+ "@" +:+ commitSha +:+ " "
    +:+ versionTag.

(** What [lines[i]] is set to at the end of the loop body. *)
Definition rewritten (rev : revision)
  (line owner repo commitSha versionTag : string) : string :=
  match rev with
  | Rev1 => usage owner repo commitSha versionTag
  | Rev2 => leadingWhitespace line +:+ usage owner repo commitSha versionTag
  end.

Definition accept (key commitSha : string) (m : gmap string string)
  (c : Config) : Config :=
  {| AllowedOrgs := AllowedOrgs c;
     AcceptedMapping := Some (<[key := commitSha]> m) |}.

Definition allow (owner : string) (c : Config) : Config :=
  {| AllowedOrgs := AllowedOrgs c ++ [owner];
     AcceptedMapping := AcceptedMapping c |}.

(** One turn of the loop of [processFile]: [Some l] when [lines[i]] is set
    to [l], [None] when the line is left as it is. *)
Definition processLine (rev : revision) (fuel : nat) (env : Env)
  (line : string) (w : World) : Outcome (option string) :=
  match FindStringSubmatch usageRegex line with
  | Some [owner; repo; tag] =>
      if isAllowedOrg (config w) owner || isCommitHash tag then Returns None w
      else
        let key := keyOf owner repo tag in
        match lookupAccepted (config w) key with
        | Some commitSha =>
            Returns
              (Some (rewritten rev line owner repo commitSha
                       (versionTagOf env tag)))
              (emit [EvPrevious key commitSha] w)
        | None =>
            match getCommitSha rev fuel env owner repo tag with
            | None => Hangs
            | Some (Err e, evs) =>
                Returns None (emit (evs ++ [EvError key e]) w)
            | Some (Ok commitSha, evs) =>
                let versionTag := versionTagOf env tag in
                let newUsage := usage owner repo commitSha versionTag in
                let '(answer, w1) := readAnswer (emit evs w) in
                let w1 := emit [EvPrompt key commitSha newUsage answer] w1 in
                if (answer =? "y")%string then
                  match AcceptedMapping (config w1) with
                  | Some m =>
                      Returns
                        (Some (rewritten rev line owner repo commitSha
                                 versionTag))
                        (setConfig (accept key commitSha m (config w1)) w1)
                  | None => Panics w1   (* assignment to entry in nil map *)
                  end
                else if (answer =? "n")%string then Returns None w1
                else if (answer =? "a")%string then
                  Returns None
                    (emit [EvAdded owner]
                       (setConfig (allow owner (config w1)) w1))
                else if (answer =? "q")%string then
                  Exits 0 (emit [EvExit 0] (saveConfig w1))
                else Returns None (emit [EvInvalid] w1)
            end
        end
  | _ => Returns None w
  end.

(** The loop [for i, line := range lines]: the lines afterwards and the
    flag [changed]. *)
Fixpoint processLines (rev : revision) (fuel : nat) (env : Env)
  (lines : list string) (w : World) : Outcome (list string * bool) :=
  match lines with
  | [] => Returns ([], false) w
  | line :: rest =>
      match processLine rev fuel env line w with
      | Returns r w1 =>
          match processLines rev fuel env rest w1 with
          | Returns (rest', changed) w2 =>
              match r with
              | Some l => Returns (l :: rest', true) w2
              | None => Returns (line :: rest', changed) w2
              end
          | Exits code w2 => Exits code w2
          | Panics w2 => Panics w2
          | Hangs => Hangs
          end
      | Exits code w1 => Exits code w1
      | Panics w1 => Panics w1
      | Hangs => Hangs
      end
  end.

Definition newline : ascii := "010".

(** [processFile]; the value returned says whether it is an error (the
    file cannot be read; writing is taken to succeed). *)
Definition processFile (rev : revision) (fuel : nat) (env : Env)
  (filePath : string) (w : World) : Outcome bool :=
  match files w !! filePath with
  | None => Returns true w
  | Some inputBytes =>
      match processLines rev fuel env (Split inputBytes newline) w with
      | Returns (lines, changed) w1 =>
          if changed
          then Returns false (writeFile filePath (Join lines newline) w1)
          else Returns false w1
      | Exits code w1 => Exits code w1
      | Panics w1 => Panics w1
      | Hangs => Hangs
      end
  end.

(** [filepath.Walk] over the workflow directory: [paths] are its .yml and
    .yaml files in the order of the walk. *)
Fixpoint walk (rev : revision) (fuel : nat) (env : Env)
  (paths : list string) (w : World) : Outcome unit :=
  match paths with
  | [] => Returns tt w
  | path :: rest =>
      match processFile rev fuel env path w with
      | Returns err w1 =>
          walk rev fuel env rest
            (if err then emit [EvFileError path] w1 else w1)
      | Exits code w1 => Exits code w1
      | Panics w1 => Panics w1
      | Hangs => Hangs
      end
  end.

(** [main] once [loadConfig] has filled [config]: the walk, then
    [saveConfig].  The goroutine that waits for a signal is left out. *)
Definition main (rev : revision) (fuel : nat) (env : Env)
  (paths : list string) (w : World) : Outcome unit :=
  match walk rev fuel env paths w with
  | Returns _ w1 => Returns tt (saveConfig w1)
  | o => o
  end.

(** The state in which the next run starts: [loadConfig] reads what the
    last one saved, the files are as they were left. *)
Definition nextRun (answers : list string) (w : World) : World :=
  {| config := match saved w with Some c => c | None => config w end;
     stdin := answers; files := files w; saved := saved w; trace := [] |}.

End Program.

(** ** Instances of the two library functions, to run the program *)

Module Lib.

(** Insertion sort: what [sort.Slice] does on a short slice. *)
Fixpoint insert (less : string -> string -> bool) (x : string)
  (l : list string) : list string :=
  match l with
  | [] => [x]
  | y :: r => if less y x then y :: insert less x r else x :: l
  end.

Fixpoint insertionSort (l : list string) (less : string -> string -> bool)
  : list string :=
  match l with
  | [] => []
  | x :: r => insert less x (insertionSort r less)
  end.

Definition lower (c : ascii) : ascii :=
  let n := Str.code c in
  if (65 <=? n)%N && (n <=? 90)%N then ascii_of_N (n + 32) else c.

(** [strings.EqualFold] on ASCII text. *)
Fixpoint asciiFold (s t : string) : bool :=
  match s, t with
  | EmptyString, EmptyString => true
  | String c s', String d t' => Str.eqc (lower c) (lower d) && asciiFold s' t'
  | _, _ => false
  end.

Definition small : GoLibrary :=
  {| sort_Slice := insertionSort; EqualFold := asciiFold |}.

End Lib.

(** ** Orders on version numbers *)

(** Three-way comparison of two lists of numbers from the left, the shorter
    one continued with zeros. *)
Fixpoint orderZeros (ys : list Z) : Z :=
  match ys with
  | [] => 0
  | y :: ys' => if 0 >? y then 1 else if 0 <? y then -1 else orderZeros ys'
  end.

Fixpoint versionOrder (xs ys : list Z) : Z :=
  match xs with
  | [] => orderZeros ys
  | x :: xs' =>
      match ys with
      | [] => if x >? 0 then 1 else if x <? 0 then -1 else versionOrder xs' []
      | y :: ys' =>
          if x >? y then 1 else if x <? y then -1 else versionOrder xs' ys'
      end
  end.

(** The number that [compareVersions] reads in a component. *)
Definition leadingNumber (part : string) : Z := Scan.Sscanf_d part 0.

Definition components (v : string) : list Z :=
  List.map leadingNumber (Split v ".").

(** The comparison in the words of the specification: a component is a
    number when it is a non-empty run of decimal digits, and counts as 0
    otherwise. *)
Module Spec.

Definition numeric (part : string) : bool :=
  negb (String.length part =? 0)%nat && Str.all Scan.isDigit part.

Definition number (part : string) : Z :=
  if numeric part then Scan.decimal part else 0.

Definition compare (v1 v2 : string) : Z :=
  versionOrder (List.map number (Split v1 "."))
               (List.map number (Split v2 ".")).

End Spec.

(** ** What [sort.Slice] promises *)

(** Package sort asks of [less] that it be a transitive ordering: when
    [less a b] and [less b c] hold so does [less a c], and when both fail so
    does [less a c]. *)
Definition TransitiveOrdering (less : string -> string -> bool) : Prop :=
  (forall a, less a a = false)
  /\ (forall a b c, less a b = true -> less b c = true -> less a c = true)
  /\ (forall a b c, less a b = false -> less b c = false -> less a c = false).

(** No element is less than one that stands before it. *)
Definition SortedBy (less : string -> string -> bool) (l : list string) : Prop :=
  forall i j x y,
    (i < j)%nat -> l !! i = Some x -> l !! j = Some y -> less y x = false.

Definition SortContract
  (sort : list string -> (string -> string -> bool) -> list string) : Prop :=
  forall l less,
    TransitiveOrdering less ->
    Permutation (sort l less) l /\ SortedBy less (sort l less).

(** A version as the sequence of its numbers, continued with zeros. *)
Definition numberAt (xs : list Z) (k : nat) : Z := nth k xs 0.

(** [f] is above [g]: at the first place where they differ [f] is greater. *)
Definition Above (f g : nat -> Z) : Prop :=
  exists k, (forall j, (j < k)%nat -> f j = g j) /\ f k > g k.

(** ** Notions for the statements and their proofs *)

Definition notBelow (less : string -> string -> bool) (x y : string) : Prop :=
  less y x = false.

(** A component that is empty, or starts with a visible ASCII character that
    is neither a digit nor a sign, is read as 0. *)
Definition noNumber (part : string) : bool :=
  match part with
  | EmptyString => true
  | String c _ =>
      (33 <=? Str.code c)%N && (Str.code c <? 128)%N && negb (Scan.isDigit c)
      && negb (Str.eqc c "-") && negb (Str.eqc c "+")
  end.

Inductive Tri (f g : nat -> Z) : Z -> Prop :=
| TriEq : (forall j, f j = g j) -> Tri f g 0
| TriGt : Above f g -> Tri f g 1
| TriLt : Above g f -> Tri f g (-1).

Definition versionKey (name : string) : list Z := components (TrimPrefix name "v").

Definition tagsUrl (owner repo : string) : string :=
  api +:+ owner +:+ "/" +:+ repo +:+ "/tags".

Definition matchingTags (tags : list (string * string)) (prefix : string)
  : list string :=
  List.filter (fun n => HasPrefix n prefix) (List.map fst tags).

Definition withGroup (capture : bool) (group : string)
  (rest : option (list string)) : option (list string) :=
  match rest with
  | Some groups => Some (if capture then group :: groups else groups)
  | None => None
  end.

(** The shape of the three groups of [usageRegex]. *)
Record Reference (owner repo tag : string) : Prop := {
  owner_some : String.length owner <> 0%nat;
  owner_slash : Str.all (notChar "/") owner = true;
  repo_some : String.length repo <> 0%nat;
  repo_at : Str.all (notChar "@") repo = true;
  tag_some : String.length tag <> 0%nat;
  tag_space : Str.all notSpace tag = true;
}.

Definition usageTail : list atom :=
  [ Rep (notChar "/") 1 true; Lit "/";
    Rep (notChar "@") 1 true; Lit "@";
    Rep notSpace 1 true ].

Definition lineAfter (line : string) (r : option string) : string :=
  match r with
  | Some l => l
  | None => line
  end.

Definition isSet (r : option string) : bool :=
  match r with
  | Some _ => true
  | None => false
  end.

Definition fromResolver (e : Event) : bool :=
  match e with
  | EvGet _ | EvNote _ _ _ _ _ => true
  | _ => false
  end.

Definition Ends {A : Type} (P : World -> Prop) (Q : Z -> World -> Prop)
  (o : Outcome A) : Prop :=
  match o with
  | Returns _ w => P w
  | Exits code w => Q code w
  | Panics _ | Hangs => True
  end.

(** What has been answered with "y" is in the mapping, what has been added
    is in the list. *)
Definition Recorded (w : World) : Prop :=
  (forall key sha newUsage,
      In (EvPrompt key sha newUsage "y") (trace w) ->
      lookupAccepted (config w) key = Some sha)
  /\ (forall owner,
         In (EvAdded owner) (trace w) -> In owner (AllowedOrgs (config w))).

Definition SavedAndLeft (code : Z) (w : World) : Prop :=
  code = 0
  /\ saved w = Some (config w)
  /\ Recorded w
  /\ exists evs, trace w = evs ++ [EvSave (config w); EvExit 0].

Definition noNewline (s : string) : Prop := Str.all (notChar newline) s = true.

Definition AllYes (evs : list Event) : Prop :=
  forall key sha newUsage answer,
    In (EvPrompt key sha newUsage answer) evs -> answer = "y".

Definition HexCache (c : Config) : Prop :=
  forall key sha, lookupAccepted c key = Some sha -> isCommitHash sha = true.

Definition quiet (e : Event) : bool :=
  match e with
  | EvGet _ | EvNote _ _ _ _ _ | EvError _ _ | EvFileError _ => true
  | _ => false
  end.

Definition silent (e : Event) : bool :=
  match e with
  | EvPrompt _ _ _ _ | EvUpdated _ _ => false
  | _ => true
  end.

(** The answer that the next question gets. *)
Definition answerOf (w : World) : string := fst (readAnswer w).

(** The state once the resolver has spoken, the question has been put and
    the answer has been read. *)
Definition prompted (env : Env) (evs : list Event) (owner repo tag sha : string)
  (w : World) : World :=
  emit [EvPrompt (keyOf owner repo tag) sha
          (usage owner repo sha (versionTagOf env tag)) (answerOf w)]
       (emit evs (snd (readAnswer w))).

Section Notions.

Context {lib : GoLibrary}.

Inductive LineCase (rev : revision) (fuel : nat) (env : Env) (line : string)
  (w : World) : Outcome (option string) -> Prop :=
| CaseNoMatch :
    FindStringSubmatch usageRegex line = None ->
    LineCase rev fuel env line w (Returns None w)
| CaseSkip owner repo tag :
    FindStringSubmatch usageRegex line = Some [owner; repo; tag] ->
    isAllowedOrg (config w) owner || isCommitHash tag = true ->
    LineCase rev fuel env line w (Returns None w)
| CaseCached owner repo tag sha :
    FindStringSubmatch usageRegex line = Some [owner; repo; tag] ->
    isAllowedOrg (config w) owner || isCommitHash tag = false ->
    lookupAccepted (config w) (keyOf owner repo tag) = Some sha ->
    LineCase rev fuel env line w
      (Returns (Some (rewritten rev line owner repo sha (versionTagOf env tag)))
         (emit [EvPrevious (keyOf owner repo tag) sha] w))
| CaseHang owner repo tag :
    FindStringSubmatch usageRegex line = Some [owner; repo; tag] ->
    isAllowedOrg (config w) owner || isCommitHash tag = false ->
    lookupAccepted (config w) (keyOf owner repo tag) = None ->
    getCommitSha rev fuel env owner repo tag = None ->
    LineCase rev fuel env line w Hangs
| CaseError owner repo tag e evs :
    FindStringSubmatch usageRegex line = Some [owner; repo; tag] ->
    isAllowedOrg (config w) owner || isCommitHash tag = false ->
    lookupAccepted (config w) (keyOf owner repo tag) = None ->
    getCommitSha rev fuel env owner repo tag = Some (Err e, evs) ->
    LineCase rev fuel env line w
      (Returns None (emit (evs ++ [EvError (keyOf owner repo tag) e]) w))
| CaseYes owner repo tag sha evs m :
    FindStringSubmatch usageRegex line = Some [owner; repo; tag] ->
    isAllowedOrg (config w) owner || isCommitHash tag = false ->
    lookupAccepted (config w) (keyOf owner repo tag) = None ->
    getCommitSha rev fuel env owner repo tag = Some (Ok sha, evs) ->
    answerOf w = "y" ->
    AcceptedMapping (config w) = Some m ->
    LineCase rev fuel env line w
      (Returns (Some (rewritten rev line owner repo sha (versionTagOf env tag)))
         (setConfig (accept (keyOf owner repo tag) sha m (config w))
            (prompted env evs owner repo tag sha w)))
| CaseYesNil owner repo tag sha evs :
    FindStringSubmatch usageRegex line = Some [owner; repo; tag] ->
    isAllowedOrg (config w) owner || isCommitHash tag = false ->
    lookupAccepted (config w) (keyOf owner repo tag) = None ->
    getCommitSha rev fuel env owner repo tag = Some (Ok sha, evs) ->
    answerOf w = "y" ->
    AcceptedMapping (config w) = None ->
    LineCase rev fuel env line w (Panics (prompted env evs owner repo tag sha w))
| CaseNo owner repo tag sha evs :
    FindStringSubmatch usageRegex line = Some [owner; repo; tag] ->
    isAllowedOrg (config w) owner || isCommitHash tag = false ->
    lookupAccepted (config w) (keyOf owner repo tag) = None ->
    getCommitSha rev fuel env owner repo tag = Some (Ok sha, evs) ->
    answerOf w = "n" ->
    LineCase rev fuel env line w
      (Returns None (prompted env evs owner repo tag sha w))
| CaseAllow owner repo tag sha evs :
    FindStringSubmatch usageRegex line = Some [owner; repo; tag] ->
    isAllowedOrg (config w) owner || isCommitHash tag = false ->
    lookupAccepted (config w) (keyOf owner repo tag) = None ->
    getCommitSha rev fuel env owner repo tag = Some (Ok sha, evs) ->
    answerOf w = "a" ->
    LineCase rev fuel env line w
      (Returns None
         (emit [EvAdded owner]
            (setConfig (allow owner (config w))
               (prompted env evs owner repo tag sha w))))
| CaseQuit owner repo tag sha evs :
    FindStringSubmatch usageRegex line = Some [owner; repo; tag] ->
    isAllowedOrg (config w) owner || isCommitHash tag = false ->
    lookupAccepted (config w) (keyOf owner repo tag) = None ->
    getCommitSha rev fuel env owner repo tag = Some (Ok sha, evs) ->
    answerOf w = "q" ->
    LineCase rev fuel env line w
      (Exits 0 (emit [EvExit 0] (saveConfig (prompted env evs owner repo tag sha w))))
| CaseInvalid owner repo tag sha evs :
    FindStringSubmatch usageRegex line = Some [owner; repo; tag] ->
    isAllowedOrg (config w) owner || isCommitHash tag = false ->
    lookupAccepted (config w) (keyOf owner repo tag) = None ->
    getCommitSha rev fuel env owner repo tag = Some (Ok sha, evs) ->
    answerOf w <> "y" -> answerOf w <> "n" ->
    answerOf w <> "a" -> answerOf w <> "q" ->
    LineCase rev fuel env line w
      (Returns None (emit [EvInvalid] (prompted env evs owner repo tag sha w))).

(** The loop as a sequence of turns: [rs] holds, line by line, what the
    turn set the line to. *)
Inductive Turns (rev : revision) (fuel : nat) (env : Env)
  : list string -> World -> list (option string) -> World -> Prop :=
| TurnsNil w : Turns rev fuel env [] w [] w
| TurnsCons line rest w r w1 rs w2 :
    processLine rev fuel env line w = Returns r w1 ->
    Turns rev fuel env rest w1 rs w2 ->
    Turns rev fuel env (line :: rest) w (r :: rs) w2.

Definition Resolvable (rev : revision) (fuel : nat) (env1 : Env)
  (key : string) : Prop :=
  exists owner repo tag sha evs,
    Reference owner repo tag /\ key = keyOf owner repo tag
    /\ getCommitSha rev fuel env1 owner repo tag = Some (Ok sha, evs).

(** Every key of [cf] is a key of [c] or one that the resolver resolves. *)
Definition Known (rev : revision) (fuel : nat) (env1 : Env)
  (cf c : Config) : Prop :=
  forall key,
    lookupAccepted cf key <> None ->
    lookupAccepted c key <> None \/ Resolvable rev fuel env1 key.

(** With the configuration [cf] the second run leaves the line as it is and
    asks nothing. *)
Definition Settled (rev : revision) (fuel : nat) (env2 : Env)
  (cf : Config) (line : string) : Prop :=
  forall w2,
    config w2 = cf ->
    exists evs,
      forallb quiet evs = true
      /\ processLine rev fuel env2 line w2 = Returns None (emit evs w2).

End Notions.

(** ** Remote services, files and runs for the examples *)

Definition tagsEnv : Env :=
  {| httpGet := fun url =>
       if (url =? tagsUrl "actions" "checkout")%string
       then Status 200 (JTags [("v2.0.0", "c200"); ("v2.1.0", "c210");
                               ("v2.0.9", "c209"); ("v1.9", "c190")])
       else Status 404 JBad;
     now := {| year := 2025; month := 1; day := 2 |} |}.

(** The branch heads of o/r, and its tag v1, point to the tag object tagA,
    which tags the tag object tagB, which tags the commit commitC. *)
Definition chainEnv : Env :=
  {| httpGet := fun url =>
       if (url =? api +:+ "o/r/git/ref/heads/master")%string
       then Status 200 (JObject "tag" "tagA")
       else if (url =? api +:+ "o/r/git/ref/heads/main")%string
       then Status 200 (JObject "tag" "tagA")
       else if (url =? api +:+ "o/r/git/ref/tags/v1")%string
       then Status 200 (JObject "tag" "tagA")
       else if (url =? First.tagUrl "o" "r" "tagA")%string
       then Status 200 (JObject "tag" "tagB")
       else if (url =? First.tagUrl "o" "r" "tagB")%string
       then Status 200 (JObject "commit" "commitC")
       else Status 404 JBad;
     now := {| year := 2025; month := 1; day := 2 |} |}.

(** The tag v1 of o/r points to the tag object tagA, which tags the commit
    commitC. *)
Definition oneTagEnv : Env :=
  {| httpGet := fun url =>
       if (url =? api +:+ "o/r/git/ref/tags/v1")%string
       then Status 200 (JObject "tag" "tagA")
       else if (url =? First.tagUrl "o" "r" "tagA")%string
       then Status 200 (JObject "commit" "commitC")
       else Status 404 JBad;
     now := {| year := 2025; month := 1; day := 2 |} |}.

Definition branchEnv : Env :=
  {| httpGet := fun url =>
       if (url =? api +:+ "o/r/git/ref/heads/master")%string
       then Status 200 (JObject "commit" "440c8c1cb0ed28b9f43e4d1d670870f059653174")
       else if (url =? api +:+ "o/r/git/ref/heads/main")%string
       then Status 200 (JObject "commit" "440c8c1cb0ed28b9f43e4d1d670870f059653174")
       else Status 404 JBad;
     now := {| year := 2025; month := 1; day := 2 |} |}.

Definition emptyConfig : Config :=
  {| AllowedOrgs := []; AcceptedMapping := Some ∅ |}.

Definition yesWorld : World :=
  {| config := emptyConfig; stdin := ["y"]; files := ∅; saved := None;
     trace := [] |}.

(** Values of an outcome, to name the states of the examples. *)
Definition worldOf {A : Type} (o : Outcome A) (d : World) : World :=
  match o with
  | Returns _ w | Exits _ w | Panics w => w
  | Hangs => d
  end.

Definition valueOf {A : Type} (o : Outcome A) (d : A) : A :=
  match o with
  | Returns a _ => a
  | _ => d
  end.

Definition commit1 : string := "440c8c1cb0ed28b9f43e4d1d670870f059653174".

(** A remote service in which every branch head is [commit1] and no
    repository has a list of tags. *)
Definition headsEnv (d : Date) : Env :=
  {| httpGet := fun _ => Status 200 (JObject "commit" commit1); now := d |}.

Definition dayOne : Date := {| year := 2025; month := 1; day := 2 |}.
Definition dayTwo : Date := {| year := 2025; month := 1; day := 3 |}.

Definition workflow : string :=
  "jobs:
    steps:
      - name: build
        uses: o/r@master
".

Definition startWorld (answers : list string) : World :=
  {| config := emptyConfig; stdin := answers;
     files := {[ "ci.yml" := workflow ]}; saved := None; trace := [] |}.

Definition afterFirstRun : World :=
  worldOf (main (lib := Lib.small) Rev2 0 (headsEnv dayOne) ["ci.yml"]
             (startWorld ["y"])) (startWorld []).


Definition usesMaster : string := "        uses: o/r@master".

Definition pinnedMaster : string :=
  "        uses: o/r@440c8c1cb0ed28b9f43e4d1d670870f059653174 #master-2025-01-02".

Definition acceptTurn : Outcome (option string) :=
  processLine (lib := Lib.small) Rev2 0 (headsEnv dayOne) usesMaster
    (startWorld ["y"]).

Definition acceptLoop : Outcome (list string * bool) :=
  processLines (lib := Lib.small) Rev2 0 (headsEnv dayOne)
    (Split workflow newline) (startWorld ["y"]).

Definition allowWorld : World :=
  {| config := {| AllowedOrgs := ["actions"]; AcceptedMapping := Some ∅ |};
     stdin := ["y"]; files := ∅; saved := None; trace := [] |}.


Definition twoUses : string :=
  "steps:
  - uses: o/r@master
  - uses: p/q@main
".

Definition quitWorld : World :=
  {| config := emptyConfig; stdin := ["y"; "q"];
     files := {[ "ci.yml" := twoUses ]}; saved := None; trace := [] |}.

Definition quitRun : Outcome unit :=
  main (lib := Lib.small) Rev2 0 (headsEnv dayOne) ["ci.yml"] quitWorld.

Definition cachedWorld : World :=
  {| config := {| AllowedOrgs := [];
                  AcceptedMapping := Some {[ "o/r@master" := commit1 ]} |};
     stdin := []; files := ∅; saved := None; trace := [] |}.

Definition askedWorld : World :=
  {| config := emptyConfig; stdin := ["q"]; files := ∅; saved := None;
     trace := [] |}.

(** ** Notions for further properties of the code *)

(** The tag object [t] heads a chain of annotated tags: it tags the first of
    [ts], which tags the next, and the last one (or [t] itself when [ts] is
    empty) tags the commit [c]. *)
Fixpoint Chain (env : Env) (owner repo t : string) (ts : list string)
  (c : string) : Prop :=
  match ts with
  | [] => httpGet env (First.tagUrl owner repo t) = Status 200 (JObject "commit" c)
  | t' :: rest =>
      httpGet env (First.tagUrl owner repo t) = Status 200 (JObject "tag" t')
      /\ Chain env owner repo t' rest c
  end.

Definition isGet (e : Event) : bool :=
  match e with
  | EvGet _ => true
  | _ => false
  end.

(** The URL that the first revision asks first. *)
Definition firstUrl (owner repo tag : string) : string :=
  if (tag =? "master")%string
  then api +:+ owner +:+ "/" +:+ repo +:+ "/git/ref/heads/master"
  else api +:+ owner +:+ "/" +:+ repo +:+ "/git/ref/tags/" +:+ tag.

(** [c'] has the allowed organisations of [c], in front and in order, and
    every accepted commit of [c]. *)
Definition Extends (c c' : Config) : Prop :=
  (exists more, AllowedOrgs c' = AllowedOrgs c ++ more)
  /\ (forall key sha,
         lookupAccepted c key = Some sha -> lookupAccepted c' key = Some sha).

(** What holds of an outcome, way by way. *)
Definition Outcomes {A : Type} (P : World -> Prop) (Q : Z -> World -> Prop)
  (R : World -> Prop) (H : Prop) (o : Outcome A) : Prop :=
  match o with
  | Returns _ w => P w
  | Exits code w => Q code w
  | Panics w => R w
  | Hangs => H
  end.

(** The state in which a piece of the program stops, however it stops. *)
Definition endsIn {A : Type} (o : Outcome A) (w' : World) : Prop :=
  match o with
  | Returns _ w | Exits _ w | Panics w => w = w'
  | Hangs => False
  end.

(** No request to the remote service is answered with the status 200. *)
Definition unavailable (env : Env) : Prop :=
  forall url,
    match httpGet env url with
    | Failed => True
    | Status code _ => code <> 200
    end.

(** An answer that accepts nothing, allows nothing and does not leave. *)
Definition declines (a : string) : Prop := a <> "y" /\ a <> "a" /\ a <> "q".

(** A configuration file without accepted commits is decoded into a nil
    map. *)
Definition nilWorld : World :=
  {| config := {| AllowedOrgs := []; AcceptedMapping := None |};
     stdin := ["y"]; files := {[ "ci.yml" := workflow ]}; saved := None;
     trace := [] |}.

(** What is printed without a request and without a question. *)
Definition fromCache (e : Event) : bool :=
  match e with
  | EvPrevious _ _ | EvUpdated _ _ => true
  | _ => false
  end.

(** The reference of a line, if it has one, is allowed, pinned to a commit
    or in the map of accepted commits. *)
Definition Covered {lib : GoLibrary} (c : Config) (line : string) : Prop :=
  forall owner repo tag,
    FindStringSubmatch usageRegex line = Some [owner; repo; tag] ->
    isAllowedOrg c owner || isCommitHash tag = true
    \/ lookupAccepted c (keyOf owner repo tag) <> None.

(** A file with an allowed owner, a cached reference and a pinned one. *)
Definition coveredFile : string :=
  "steps:
  - uses: Actions/checkout@v4
  - uses: o/r@master
  - uses: p/q@440c8c1cb0ed28b9f43e4d1d670870f059653174".

Definition coveredWorld : World :=
  {| config := {| AllowedOrgs := ["actions"];
                  AcceptedMapping := Some {[ "o/r@master" := commit1 ]} |};
     stdin := [];
     files := {[ "ci.yml" := coveredFile ]};
     saved := None; trace := [] |}.


(** The first answer to the first revision is a reference of type "tag". *)
Definition headIsTag (env : Env) (owner repo tag : string) : bool :=
  match httpGet env (firstUrl owner repo tag) with
  | Status code (JObject type _) => (code =? 200) && (type =? "tag")%string
  | _ => false
  end.



(** A remote service that cannot be reached. *)
Definition offlineEnv : Env :=
  {| httpGet := fun _ => Failed; now := dayOne |}.

(** * Properties *)

(** ** VersionComparer *)

Lemma compareFrom_order parts1 parts2 n i :
  (length parts1 <= i + n)%nat -> (length parts2 <= i + n)%nat ->
  compareFrom parts1 parts2 i n
  = versionOrder (List.map leadingNumber (drop i parts1))
                 (List.map leadingNumber (drop i parts2)).
Proof.
  revert i. induction n as [|n IH]; intros i H1 H2.
  - rewrite !drop_ge by lia. reflexivity.
  - cbn [compareFrom].
    destruct (parts1 !! i) as [p1|] eqn:E1; destruct (parts2 !! i) as [p2|] eqn:E2.
    + rewrite (drop_S _ _ _ E1), (drop_S _ _ _ E2). cbn [List.map versionOrder].
      fold (leadingNumber p1) (leadingNumber p2).
      rewrite IH by lia. reflexivity.
    + rewrite (drop_S _ _ _ E1). apply lookup_ge_None in E2.
      rewrite (drop_ge parts2 i) by lia. cbn [List.map versionOrder].
      fold (leadingNumber p1). rewrite IH by lia.
      rewrite (drop_ge parts2 (S i)) by lia. reflexivity.
    + rewrite (drop_S _ _ _ E2). apply lookup_ge_None in E1.
      rewrite (drop_ge parts1 i) by lia. cbn [List.map versionOrder orderZeros].
      fold (leadingNumber p2). rewrite IH by lia.
      rewrite (drop_ge parts1 (S i)) by lia. reflexivity.
    + apply lookup_ge_None in E1. apply lookup_ge_None in E2.
      rewrite (drop_ge parts1 i), (drop_ge parts2 i) by lia.
      cbn [List.map versionOrder orderZeros].
      rewrite IH by lia. rewrite !drop_ge by lia. reflexivity.
Qed.

Lemma compareVersions_order v1 v2 :
  compareVersions v1 v2 = versionOrder (components v1) (components v2).
Proof.
  unfold compareVersions, components.
  set (p1 := Split v1 "."). set (p2 := Split v2 ".").
  destruct (length p1 <? length p2)%nat eqn:E.
  - apply Nat.ltb_lt in E. rewrite compareFrom_order by lia. reflexivity.
  - apply Nat.ltb_ge in E. rewrite compareFrom_order by lia. reflexivity.
Qed.

(** *** What [Sscanf] reads *)

Lemma SkipSpace_ascii c t :
  (Str.code c <? 128)%N = true -> Scan.byte 10 c = false ->
  Scan.isBlank c = false ->
  Scan.SkipSpace (String c t) = Some (String c t).
Proof.
  intros Hc Hn Hb. cbn [Scan.SkipSpace]. rewrite Hn, Hb.
  assert (H194 : Scan.byte 194 c = false) by (unfold Scan.byte; lia).
  assert (H225 : Scan.byte 225 c = false) by (unfold Scan.byte; lia).
  assert (H226 : Scan.byte 226 c = false) by (unfold Scan.byte; lia).
  assert (H227 : Scan.byte 227 c = false) by (unfold Scan.byte; lia).
  rewrite H194, H225, H226, H227. cbn [andb].
  destruct t as [|d [|e t2]]; reflexivity.
Qed.

Lemma isDigit_code c : Scan.isDigit c = true -> (48 <= Str.code c <= 57)%N.
Proof. unfold Scan.isDigit. lia. Qed.

Lemma app_cons c s t : String c s +:+ t = String c (s +:+ t).
Proof. reflexivity. Qed.

Lemma app_nil t : EmptyString +:+ t = t.
Proof. reflexivity. Qed.

Lemma span_all_app p ds rest :
  Str.all p ds = true -> Str.span p rest = 0%nat ->
  Str.span p (ds +:+ rest) = String.length ds.
Proof.
  induction ds as [|c ds IH]; intros Ha Hr; [exact Hr|].
  cbn in Ha. apply andb_true_iff in Ha as [Hc Ha].
  rewrite app_cons. cbn. rewrite Hc, IH; auto.
Qed.

Lemma take_length_app ds rest : Str.take (String.length ds) (ds +:+ rest) = ds.
Proof.
  induction ds as [|c ds IH]; [destruct rest; reflexivity|].
  rewrite app_cons. cbn. now rewrite IH.
Qed.

Lemma drop_length_app ds rest : Str.drop (String.length ds) (ds +:+ rest) = rest.
Proof.
  induction ds as [|c ds IH]; [reflexivity|]. rewrite app_cons. exact IH.
Qed.

Lemma decimalFrom_nonneg ds acc :
  Str.all Scan.isDigit ds = true -> 0 <= acc -> 0 <= Scan.decimalFrom acc ds.
Proof.
  revert acc. induction ds as [|c ds IH]; cbn; intros acc Ha Hacc; [lia|].
  apply andb_true_iff in Ha as [Hc Ha]. apply IH; [exact Ha|].
  apply isDigit_code in Hc. unfold Scan.digitVal. lia.
Qed.

(** A component that starts with digits is read as these digits, whatever
    comes after them. *)
Lemma leadingNumber_digits ds rest :
  String.length ds <> 0%nat -> Str.all Scan.isDigit ds = true ->
  Str.span Scan.isDigit rest = 0%nat -> Scan.decimal ds < 2 ^ 63 ->
  leadingNumber (ds +:+ rest) = Scan.decimal ds.
Proof.
  intros Hlen Hall Hrest Hfit. unfold leadingNumber, Scan.Sscanf_d, Scan.scanInt.
  destruct ds as [|c ds]; [cbn in Hlen; lia|].
  pose proof Hall as Hall'. cbn in Hall. apply andb_true_iff in Hall as [Hc _].
  pose proof (isDigit_code _ Hc) as Hcode.
  change (String c ds +:+ rest) with (String c (ds +:+ rest)).
  rewrite SkipSpace_ascii;
    [| lia | unfold Scan.byte; lia | unfold Scan.isBlank; cbv zeta; lia].
  assert (Hsign : Scan.acceptSign (String c (ds +:+ rest))
                  = (false, String c (ds +:+ rest))).
  { unfold Scan.acceptSign, Str.eqc.
    destruct (Ascii.eqb_spec c "-") as [->|_]; [unfold Str.code in Hcode; cbn in Hcode; lia|].
    destruct (Ascii.eqb_spec c "+") as [->|_]; [unfold Str.code in Hcode; cbn in Hcode; lia|].
    reflexivity. }
  rewrite Hsign.
  change (String c (ds +:+ rest)) with (String c ds +:+ rest).
  rewrite span_all_app by assumption. rewrite take_length_app.
  destruct (String.length (String c ds) =? 0)%nat eqn:E;
    [apply Nat.eqb_eq in E; lia|].
  pose proof (decimalFrom_nonneg (String c ds) 0 Hall' ltac:(lia)) as Hpos.
  fold (Scan.decimal (String c ds)) in Hpos.
  unfold Scan.fitsInt.
  destruct (- 2 ^ 63 <=? Scan.decimal (String c ds)) eqn:E1; [|lia].
  destruct (Scan.decimal (String c ds) <? 2 ^ 63) eqn:E2; [|lia].
  reflexivity.
Qed.

Lemma leadingNumber_none part :
  noNumber part = true -> leadingNumber part = 0.
Proof.
  destruct part as [|c t]; [reflexivity|]. cbn [noNumber]. intros H.
  repeat (apply andb_true_iff in H as [H ?]).
  unfold leadingNumber, Scan.Sscanf_d, Scan.scanInt.
  rewrite SkipSpace_ascii;
    [| lia | unfold Scan.byte; lia | unfold Scan.isBlank; cbv zeta; lia].
  unfold Scan.acceptSign.
  destruct (Str.eqc c "-"); [discriminate|].
  destruct (Str.eqc c "+"); [discriminate|].
  cbn [Str.span]. destruct (Scan.isDigit c); [discriminate|]. reflexivity.
Qed.

(** C3, as the code has it: the versions are cut at the dots, each component
    is read as the decimal number it starts with (what follows the digits is
    ignored; blanks and a sign may stand in front; a component with no number
    in front, or with one beyond the range of int, counts as 0), components
    that are missing count as 0, and the first difference from the left
    decides between 1, -1 and, when there is none, 0.  The three comparisons
    of the specification come out as stated. *)
Theorem compareVersions_leading_numbers :
  (forall v1 v2,
      compareVersions v1 v2 = versionOrder (components v1) (components v2))
  /\ (forall ds rest,
         String.length ds <> 0%nat -> Str.all Scan.isDigit ds = true ->
         Str.span Scan.isDigit rest = 0%nat -> Scan.decimal ds < 2 ^ 63 ->
         leadingNumber (ds +:+ rest) = Scan.decimal ds)
  /\ (forall part, noNumber part = true -> leadingNumber part = 0)
  /\ leadingNumber "9223372036854775808" = 0
  /\ leadingNumber " -7" = -7
  /\ compareVersions "2.1.0" "2.0.9" > 0
  /\ compareVersions "2.0" "2.0.0" = 0
  /\ compareVersions "1.9" "1.10" < 0.
Proof.
  split; [exact compareVersions_order|].
  split; [exact leadingNumber_digits|].
  split; [exact leadingNumber_none|].
  repeat split; vm_compute; congruence.
Qed.

Lemma compareVersions_leading_numbers_witness :
  compareVersions "1.2.3-rc1" "1.2.2"
  = versionOrder (components "1.2.3-rc1") (components "1.2.2")
  /\ leadingNumber ("3" +:+ "-rc1") = Scan.decimal "3"
  /\ leadingNumber "beta" = 0.
Proof.
  destruct compareVersions_leading_numbers as (Hord & Hdig & Hnone & _).
  split; [apply Hord|]. split.
  - apply Hdig; [cbn; lia | reflexivity | reflexivity | vm_compute; reflexivity].
  - apply Hnone. reflexivity.
Defined.

(** C3 as it is written does not hold: "3-rc1" is not a number, and should
    count as 0, but the code reads 3 in it. *)
Lemma compareVersions_suffix_counterexample :
  compareVersions "1.2.3-rc1" "1.2.2" = 1
  /\ Spec.compare "1.2.3-rc1" "1.2.2" = -1.
Proof. split; vm_compute; reflexivity. Qed.

(** ** The order that [compareVersions] gives *)

Lemma Tri_step (f g f' g' : nat -> Z) x y r :
  f 0%nat = x -> (forall j, f (S j) = f' j) ->
  g 0%nat = y -> (forall j, g (S j) = g' j) ->
  Tri f' g' r ->
  Tri f g (if x >? y then 1 else if x <? y then -1 else r).
Proof.
  intros Hf0 HfS Hg0 HgS Ht.
  destruct (x >? y) eqn:E1.
  - apply TriGt. exists 0%nat. split; [intros; lia | lia].
  - destruct (x <? y) eqn:E2.
    + apply TriLt. exists 0%nat. split; [intros; lia | lia].
    + assert (x = y) by lia.
      destruct Ht as [He | (k & Hk & Hgt) | (k & Hk & Hgt)].
      * apply TriEq. intros [|j]; [congruence | rewrite HfS, HgS; apply He].
      * apply TriGt. exists (S k). split.
        -- intros [|j] Hj; [congruence | rewrite HfS, HgS; apply Hk; lia].
        -- rewrite HfS, HgS. exact Hgt.
      * apply TriLt. exists (S k). split.
        -- intros [|j] Hj; [congruence | rewrite HfS, HgS; apply Hk; lia].
        -- rewrite HfS, HgS. exact Hgt.
Qed.

Lemma numberAt_nil j : numberAt [] j = 0.
Proof. unfold numberAt. destruct j; reflexivity. Qed.

Lemma orderZeros_tri ys : Tri (numberAt []) (numberAt ys) (orderZeros ys).
Proof.
  induction ys as [|y ys IH].
  - apply TriEq. reflexivity.
  - cbn [orderZeros].
    apply (Tri_step _ _ (numberAt []) (numberAt ys) 0 y); auto using numberAt_nil;
      try (intros j; now rewrite !numberAt_nil).
Qed.

Lemma versionOrder_tri xs ys :
  Tri (numberAt xs) (numberAt ys) (versionOrder xs ys).
Proof.
  revert ys. induction xs as [|x xs IH]; intros ys.
  - apply orderZeros_tri.
  - destruct ys as [|y ys]; cbn [versionOrder].
    + apply (Tri_step _ _ (numberAt xs) (numberAt []) x 0); auto using numberAt_nil;
        try (intros j; now rewrite !numberAt_nil).
    + apply (Tri_step _ _ (numberAt xs) (numberAt ys) x y); auto.
Qed.

Lemma Above_asym f g : Above f g -> Above g f -> False.
Proof.
  intros (k & Hk & Hgt) (k' & Hk' & Hgt').
  destruct (lt_eq_lt_dec k k') as [[Hlt | ->] | Hlt].
  - specialize (Hk' k Hlt). lia.
  - lia.
  - specialize (Hk k' Hlt). lia.
Qed.

Lemma Above_irrefl f g : (forall j, f j = g j) -> Above f g -> False.
Proof. intros He (k & _ & Hgt). specialize (He k). lia. Qed.

Lemma versionOrder_gt xs ys :
  (versionOrder xs ys >? 0) = true <-> Above (numberAt xs) (numberAt ys).
Proof.
  pose proof (versionOrder_tri xs ys) as Ht. split.
  - intros H. inversion Ht as [He E | Ha E | Ha E]; rewrite <- E in H; try lia.
    exact Ha.
  - intros Ha. inversion Ht as [He E | Ha' E | Ha' E].
    + destruct (Above_irrefl _ _ He Ha).
    + reflexivity.
    + destruct (Above_asym _ _ Ha Ha').
Qed.

Lemma versionOrder_le xs ys :
  (versionOrder xs ys >? 0) = false <-> ~ Above (numberAt xs) (numberAt ys).
Proof.
  rewrite <- versionOrder_gt. destruct (versionOrder xs ys >? 0); split; intros H;
    try reflexivity; try discriminate; try (intros ?; discriminate).
  destruct H. reflexivity.
Qed.

Lemma Above_trans f g h : Above f g -> Above g h -> Above f h.
Proof.
  intros (k & Hk & Hgt) (k' & Hk' & Hgt').
  destruct (lt_eq_lt_dec k k') as [[Hlt | ->] | Hlt].
  - exists k. split; [intros j Hj; rewrite Hk, Hk' by lia; reflexivity|].
    rewrite <- Hk' by lia. exact Hgt.
  - exists k'. split; [intros j Hj; rewrite Hk, Hk' by lia; reflexivity | lia].
  - exists k'. split; [intros j Hj; rewrite Hk, Hk' by lia; reflexivity|].
    rewrite Hk by lia. exact Hgt'.
Qed.

(** Up to [k] two sequences agree, or there is a first place where they
    differ. *)
Lemma first_difference (f g : nat -> Z) k :
  (forall j, (j <= k)%nat -> f j = g j)
  \/ exists j, (j <= k)%nat /\ f j <> g j /\ forall i, (i < j)%nat -> f i = g i.
Proof.
  induction k as [|k [Hall | (j & Hj & Hne & Hlow)]].
  - destruct (Z.eq_dec (f 0%nat) (g 0%nat)) as [He | Hne].
    + left. intros j Hj. replace j with 0%nat by lia. exact He.
    + right. exists 0%nat. repeat split; [lia | exact Hne | intros; lia].
  - destruct (Z.eq_dec (f (S k)) (g (S k))) as [He | Hne].
    + left. intros j Hj. destruct (Nat.eq_dec j (S k)) as [-> | ?];
        [exact He | apply Hall; lia].
    + right. exists (S k). repeat split; [lia | exact Hne |].
      intros i Hi. apply Hall. lia.
  - right. exists j. repeat split; [lia | exact Hne | exact Hlow].
Qed.

Lemma Above_negtrans f g h : ~ Above f g -> ~ Above g h -> ~ Above f h.
Proof.
  intros Hfg Hgh (k & Hk & Hgt).
  destruct (first_difference f g k) as [Hall | (j & Hj & Hne & Hlow)].
  - apply Hgh. exists k. split.
    + intros j Hj. rewrite <- Hall by lia. apply Hk. exact Hj.
    + rewrite <- Hall by lia. exact Hgt.
  - assert (Hlt : f j < g j).
    { destruct (Z_lt_le_dec (f j) (g j)) as [? | Hge]; [assumption|].
      exfalso. apply Hfg. exists j. split; [exact Hlow | lia]. }
    apply Hgh. exists j. split.
    + intros i Hi. rewrite <- Hlow by lia. apply Hk. lia.
    + destruct (Nat.eq_dec j k) as [-> | Hjk]; [lia|].
      rewrite <- (Hk j) by lia. lia.
Qed.

Lemma versionLess_Above a b :
  versionLess a b = true <-> Above (numberAt (versionKey a)) (numberAt (versionKey b)).
Proof.
  unfold versionLess. rewrite compareVersions_order. apply versionOrder_gt.
Qed.

Lemma versionLess_not_Above a b :
  versionLess a b = false
  <-> ~ Above (numberAt (versionKey a)) (numberAt (versionKey b)).
Proof.
  unfold versionLess. rewrite compareVersions_order. apply versionOrder_le.
Qed.

(** The comparison that [findLatestVersionTag] hands to [sort.Slice] is one
    that [sort.Slice] accepts. *)
Lemma versionLess_ordering : TransitiveOrdering versionLess.
Proof.
  repeat split.
  - intros a. apply versionLess_not_Above. intros H.
    apply (Above_irrefl _ _ (fun _ => eq_refl) H).
  - intros a b c. rewrite !versionLess_Above. apply Above_trans.
  - intros a b c. rewrite !versionLess_not_Above. apply Above_negtrans.
Qed.

(** ** Insertion sort keeps the promise of [sort.Slice] *)

Section InsertionSort.

Variable less : string -> string -> bool.
Hypothesis ordering : TransitiveOrdering less.

Lemma less_asym a b : less a b = true -> less b a = false.
Proof.
  destruct ordering as (Hirr & Htr & _). intros Hab.
  destruct (less b a) eqn:Hba; [|reflexivity].
  pose proof (Htr _ _ _ Hab Hba) as H. rewrite Hirr in H. discriminate.
Qed.

Lemma insert_perm x l : Permutation (Lib.insert less x l) (x :: l).
Proof.
  induction l as [|y r IH]; cbn; [reflexivity|].
  destruct (less y x); [|reflexivity].
  rewrite IH. apply perm_swap.
Qed.

Lemma insert_sorted x l :
  StronglySorted (notBelow less) l -> StronglySorted (notBelow less) (Lib.insert less x l).
Proof.
  destruct ordering as (_ & _ & Hneg).
  induction 1 as [|y r Hs IH Hall]; cbn.
  - repeat constructor.
  - destruct (less y x) eqn:Hyx.
    + constructor; [exact IH|].
      rewrite (insert_perm x r). constructor; [|exact Hall].
      apply less_asym. exact Hyx.
    + constructor; [constructor; assumption|].
      constructor; [exact Hyx|].
      eapply List.Forall_impl; [|exact Hall].
      intros z Hz. unfold notBelow in *. eapply Hneg; eassumption.
Qed.

Lemma insertionSort_perm l : Permutation (Lib.insertionSort l less) l.
Proof.
  induction l as [|x r IH]; cbn; [reflexivity|].
  rewrite insert_perm. now constructor.
Qed.

Lemma insertionSort_sorted l :
  StronglySorted (notBelow less) (Lib.insertionSort l less).
Proof.
  induction l as [|x r IH]; cbn; [constructor | now apply insert_sorted].
Qed.

Lemma StronglySorted_SortedBy l : StronglySorted (notBelow less) l -> SortedBy less l.
Proof.
  induction 1 as [|x r Hs IH Hall]; intros i j a b Hij Hi Hj.
  - rewrite lookup_nil in Hi. discriminate.
  - destruct j as [|j]; [lia|]. cbn in Hj.
    destruct i as [|i]; cbn in Hi.
    + injection Hi as ->. rewrite List.Forall_forall in Hall.
      apply Hall. apply list_elem_of_In. eapply list_elem_of_lookup_2. exact Hj.
    + eapply IH; [|exact Hi|exact Hj]. lia.
Qed.

End InsertionSort.

Lemma insertionSort_contract : SortContract Lib.insertionSort.
Proof.
  intros l less Hord. split.
  - apply insertionSort_perm.
  - apply StronglySorted_SortedBy. now apply insertionSort_sorted.
Qed.

(** ** RemoteResolver: the latest tag with a prefix *)

Lemma commitOf_listed tags name :
  In name (List.map fst tags) -> exists sha, commitOf tags name = Some sha.
Proof.
  unfold commitOf. induction tags as [|[n s] tags IH]; cbn; [tauto|].
  intros [-> | Hin].
  - rewrite String.eqb_refl. eauto.
  - destruct (n =? name)%string; [eauto | now apply IH].
Qed.

Section LatestTag.

Context {lib : GoLibrary}.
Hypothesis sort_Slice_sorts : SortContract sort_Slice.

Lemma findLatestVersionTag_listing env owner repo prefix tags :
  httpGet env (tagsUrl owner repo) = Status 200 (JTags tags) ->
  (matchingTags tags prefix = [] ->
   findLatestVersionTag env owner repo prefix
   = (Err (ErrNoTags prefix), [EvGet (tagsUrl owner repo)]))
  /\ (matchingTags tags prefix <> [] ->
      exists name sha,
        findLatestVersionTag env owner repo prefix
        = (Ok sha, [EvGet (tagsUrl owner repo)])
        /\ In name (matchingTags tags prefix)
        /\ commitOf tags name = Some sha
        /\ forall other,
            In other (matchingTags tags prefix) ->
            compareVersions (TrimPrefix other "v") (TrimPrefix name "v") <= 0).
Proof.
  intros Hget. unfold findLatestVersionTag.
  fold (tagsUrl owner repo). rewrite Hget. cbn [Z.eqb Pos.eqb negb].
  fold (matchingTags tags prefix).
  split.
  - intros ->. reflexivity.
  - intros Hne.
    destruct (length (matchingTags tags prefix) =? 0)%nat eqn:Elen.
    { apply Nat.eqb_eq in Elen.
      destruct (matchingTags tags prefix); [congruence | discriminate]. }
    destruct (sort_Slice_sorts (matchingTags tags prefix) versionLess
                versionLess_ordering) as [Hperm Hsorted].
    destruct (sort_Slice (matchingTags tags prefix) versionLess)
      as [|latestTag rest] eqn:Esort.
    { apply Permutation_nil in Hperm. congruence. }
    assert (Hin : In latestTag (matchingTags tags prefix)).
    { eapply Permutation_in; [exact Hperm | now left]. }
    destruct (commitOf_listed tags latestTag) as [sha Hsha].
    { unfold matchingTags in Hin. apply List.filter_In in Hin. tauto. }
    exists latestTag, sha. rewrite Hsha.
    repeat split; auto.
    intros other Hother.
    assert (Hless : versionLess other latestTag = false).
    { apply (Permutation_in _ (Permutation_sym Hperm)) in Hother.
      destruct Hother as [<- | Hrest].
      - apply versionLess_ordering.
      - apply list_elem_of_In, list_elem_of_lookup_1 in Hrest as [j Hj].
        apply (Hsorted 0%nat (S j) latestTag other); [lia | reflexivity | exact Hj]. }
    unfold versionLess in Hless. lia.
Qed.

(** C1: for a reference other than "master" and "main" the resolver asks
    once for the list of the tags; with no tag that starts with [ref]
    the result is the "no tags found" error; otherwise it is the commit
    that the list gives for a tag that starts with [ref] and that no other
    such tag exceeds under [compareVersions] once the leading "v" is off.
    With the tags v2.0.0, v2.1.0 and v2.0.9 and the prefix "v2" this is the
    commit of v2.1.0. *)
Theorem resolve_prefix_latest_tag :
  (forall fuel env owner repo ref tags,
      ref <> "master" -> ref <> "main" ->
      httpGet env (tagsUrl owner repo) = Status 200 (JTags tags) ->
      exists result,
        getCommitSha Rev2 fuel env owner repo ref
        = Some (result, [EvGet (tagsUrl owner repo)])
        /\ (matchingTags tags ref = [] -> result = Err (ErrNoTags ref))
        /\ (matchingTags tags ref <> [] ->
            exists name sha,
              result = Ok sha
              /\ In name (List.map fst tags)
              /\ HasPrefix name ref = true
              /\ commitOf tags name = Some sha
              /\ forall other,
                  In other (List.map fst tags) -> HasPrefix other ref = true ->
                  compareVersions (TrimPrefix other "v") (TrimPrefix name "v")
                  <= 0))
  /\ (forall fuel env owner repo c1 c2 c3,
         httpGet env (tagsUrl owner repo)
         = Status 200 (JTags [("v2.0.0", c1); ("v2.1.0", c2); ("v2.0.9", c3)]) ->
         getCommitSha Rev2 fuel env owner repo "v2"
         = Some (Ok c2, [EvGet (tagsUrl owner repo)])).
Proof.
  assert (Hgen : forall fuel env owner repo ref tags,
      ref <> "master" -> ref <> "main" ->
      httpGet env (tagsUrl owner repo) = Status 200 (JTags tags) ->
      exists result,
        getCommitSha Rev2 fuel env owner repo ref
        = Some (result, [EvGet (tagsUrl owner repo)])
        /\ (matchingTags tags ref = [] -> result = Err (ErrNoTags ref))
        /\ (matchingTags tags ref <> [] ->
            exists name sha,
              result = Ok sha
              /\ In name (List.map fst tags)
              /\ HasPrefix name ref = true
              /\ commitOf tags name = Some sha
              /\ forall other,
                  In other (List.map fst tags) -> HasPrefix other ref = true ->
                  compareVersions (TrimPrefix other "v") (TrimPrefix name "v")
                  <= 0)).
  { intros fuel env owner repo ref tags Hmaster Hmain Hget.
    cbn [getCommitSha]. unfold getCommitSha2.
    apply String.eqb_neq in Hmaster, Hmain. rewrite Hmaster, Hmain. cbn [orb].
    destruct (findLatestVersionTag_listing env owner repo ref tags Hget)
      as [Hnone Hsome].
    destruct (matchingTags tags ref) as [|m ms] eqn:Em.
    - exists (Err (ErrNoTags ref)). rewrite Hnone by reflexivity.
      repeat split; congruence.
    - destruct Hsome as (name & sha & Hres & Hin & Hsha & Hmax); [discriminate|].
      exists (Ok sha). rewrite Hres. split; [reflexivity|].
      split; [discriminate|]. intros _. exists name, sha.
      rewrite <- Em in Hin, Hmax. unfold matchingTags in Hin, Hmax.
      apply List.filter_In in Hin as [Hin Hpre].
      repeat split; auto.
      intros other Ho Hp. apply Hmax. apply List.filter_In. auto. }
  split; [exact Hgen|].
  intros fuel env owner repo c1 c2 c3 Hget.
  destruct (Hgen fuel env owner repo "v2" _ ltac:(discriminate)
              ltac:(discriminate) Hget) as (result & Hres & _ & Hsome).
  rewrite Hres.
  destruct Hsome as (name & sha & -> & Hin & _ & Hsha & Hmax);
    [vm_compute; discriminate|].
  assert (Hbest := Hmax "v2.1.0" ltac:(cbn; tauto) eq_refl).
  cbn in Hin. destruct Hin as [<- | [<- | [<- | []]]].
  - vm_compute in Hbest. congruence.
  - vm_compute in Hsha. congruence.
  - vm_compute in Hbest. congruence.
Qed.

End LatestTag.

Lemma resolve_prefix_latest_tag_witness :
  exists result,
    getCommitSha (lib := Lib.small) Rev2 0 tagsEnv "actions" "checkout" "v2"
    = Some (result, [EvGet (tagsUrl "actions" "checkout")])
    /\ exists name sha,
        result = Ok sha /\ HasPrefix name "v2" = true
        /\ commitOf [("v2.0.0", "c200"); ("v2.1.0", "c210");
                     ("v2.0.9", "c209"); ("v1.9", "c190")] name = Some sha.
Proof.
  destruct (resolve_prefix_latest_tag (lib := Lib.small) insertionSort_contract)
    as [Hgen _].
  destruct (Hgen 0%nat tagsEnv "actions" "checkout" "v2"
              [("v2.0.0", "c200"); ("v2.1.0", "c210");
               ("v2.0.9", "c209"); ("v1.9", "c190")])
    as (result & Hres & _ & Hsome);
    [discriminate | discriminate | reflexivity |].
  exists result. split; [exact Hres|].
  destruct Hsome as (name & sha & Hr & _ & Hpre & Hsha & _);
    [vm_compute; discriminate|].
  exists name, sha. auto.
Defined.

(** ** RemoteResolver: a chain of annotated tags *)

(** The resolvers at the chain head, tagA, tagB, commitC.  The second
    revision returns what the head points to, tagA, for "master" and for
    "main", asks for nothing else and prints no note.  The first revision, for "master", stops
    as soon as the tag it has reached does not tag a tag, without taking what
    that tag points to: the result is tagB, with one note, and so it is for
    the tag v1; "main" is not a branch for it but a tag name. *)
Theorem nested_tags_not_followed_to_commit :
  forall (lib : GoLibrary) (fuel : nat),
    getCommitSha Rev2 fuel chainEnv "o" "r" "master"
    = Some (Ok "tagA", [EvGet (api +:+ "o/r/git/ref/heads/master")])
    /\ getCommitSha Rev2 fuel chainEnv "o" "r" "main"
       = Some (Ok "tagA", [EvGet (api +:+ "o/r/git/ref/heads/main")])
    /\ getCommitSha Rev1 (S fuel) chainEnv "o" "r" "master"
       = Some (Ok "tagB",
               [EvGet (api +:+ "o/r/git/ref/heads/master");
                EvGet (First.tagUrl "o" "r" "tagA");
                EvGet (First.tagUrl "o" "r" "tagB");
                EvNote "o" "r" "master" "tagB"
                  (api +:+ "o/r/git/ref/heads/master")])
    /\ getCommitSha Rev1 (S fuel) chainEnv "o" "r" "main"
       = Some (Err (ErrStatus 404), [EvGet (api +:+ "o/r/git/ref/tags/main")])
    /\ getCommitSha Rev1 (S fuel) chainEnv "o" "r" "v1"
       = Some (Ok "tagB",
               [EvGet (api +:+ "o/r/git/ref/tags/v1");
                EvGet (First.tagUrl "o" "r" "tagA");
                EvGet (First.tagUrl "o" "r" "tagB");
                EvNote "o" "r" "v1" "tagB" (api +:+ "o/r/git/ref/tags/v1")]).
Proof. intros. repeat split; reflexivity. Qed.

(** One annotated tag is followed to its commit by the first revision. *)
Lemma first_revision_follows_one_tag (fuel : nat) :
  First.getCommitSha (S fuel) oneTagEnv "o" "r" "v1"
  = Some (Ok "commitC",
          [EvGet (api +:+ "o/r/git/ref/tags/v1");
           EvGet (First.tagUrl "o" "r" "tagA");
           EvGet (First.tagUrl "o" "r" "commitC");
           EvNote "o" "r" "v1" "commitC" (api +:+ "o/r/git/ref/tags/v1")]).
Proof. reflexivity. Qed.

(** ** RefParser: what the expression matches *)

Lemma longestFirst_some {A} min n (f : nat -> option A) x :
  longestFirst min n f = Some x ->
  exists k, (min <= k <= n)%nat /\ f k = Some x.
Proof.
  induction n as [|n IH]; cbn [longestFirst].
  - destruct (0 <? min)%nat eqn:E; [discriminate|]. apply Nat.ltb_ge in E.
    destruct (f 0%nat) eqn:Ef; [|discriminate].
    intros [= ->]. exists 0%nat. split; [lia | exact Ef].
  - destruct (S n <? min)%nat eqn:E; [discriminate|]. apply Nat.ltb_ge in E.
    destruct (f (S n)) eqn:Ef.
    + intros [= ->]. exists (S n). split; [lia | exact Ef].
    + intros H. destruct (IH H) as (k & Hk & Hfk). exists k. split; [lia | exact Hfk].
Qed.

Lemma longestFirst_finds {A} min n (f : nat -> option A) k :
  (min <= k <= n)%nat -> f k <> None -> longestFirst min n f <> None.
Proof.
  intros Hk Hf. induction n as [|n IH]; cbn [longestFirst].
  - assert (k = 0%nat) as -> by lia.
    destruct (0 <? min)%nat eqn:E; [apply Nat.ltb_lt in E; lia|].
    destruct (f 0%nat); congruence.
  - destruct (S n <? min)%nat eqn:E; [apply Nat.ltb_lt in E; lia|].
    destruct (f (S n)) eqn:Ef; [discriminate|].
    apply IH. destruct (Nat.eq_dec k (S n)) as [-> | ?]; [congruence | lia].
Qed.

Lemma longestFirst_top {A} min n (f : nat -> option A) :
  (min <= n)%nat -> (forall k, (k < n)%nat -> f k = None) ->
  longestFirst min n f = f n.
Proof.
  intros Hmin Hbelow. destruct n as [|n]; cbn [longestFirst].
  - destruct (0 <? min)%nat eqn:E; [apply Nat.ltb_lt in E; lia|].
    destruct (f 0%nat); reflexivity.
  - destruct (S n <? min)%nat eqn:E; [apply Nat.ltb_lt in E; lia|].
    destruct (f (S n)) eqn:Ef; [reflexivity|].
    destruct (longestFirst min n f) eqn:El; [|reflexivity].
    apply longestFirst_some in El as (k & Hk & Hfk).
    rewrite Hbelow in Hfk by lia. discriminate.
Qed.

Lemma longestFirst_small {A} min n (f : nat -> option A) :
  (n < min)%nat -> longestFirst min n f = None.
Proof.
  intros H. destruct n; cbn [longestFirst];
    (destruct (_ <? min)%nat eqn:E; [reflexivity | apply Nat.ltb_ge in E; lia]).
Qed.

Lemma matchHere_Rep cls min capture re s :
  matchHere (Rep cls min capture :: re) s
  = longestFirst min (Str.span cls s)
      (fun k => withGroup capture (Str.take k s) (matchHere re (Str.drop k s))).
Proof. reflexivity. Qed.

Lemma matchHere_Lit text re s :
  matchHere (Lit text :: re) s
  = if String.prefix text s
    then matchHere re (Str.drop (String.length text) s) else None.
Proof. reflexivity. Qed.

Lemma matchHere_Rep_some cls min capture re s groups :
  matchHere (Rep cls min capture :: re) s = Some groups ->
  exists k rest,
    (min <= k <= Str.span cls s)%nat
    /\ matchHere re (Str.drop k s) = Some rest
    /\ groups = if capture then Str.take k s :: rest else rest.
Proof.
  rewrite matchHere_Rep. intros H.
  apply longestFirst_some in H as (k & Hk & Hf).
  destruct (matchHere re (Str.drop k s)) as [rest|] eqn:E; [|discriminate].
  cbn in Hf. injection Hf as <-. exists k, rest. auto.
Qed.

Lemma matchHere_Lit_some text re s groups :
  matchHere (Lit text :: re) s = Some groups ->
  String.prefix text s = true
  /\ matchHere re (Str.drop (String.length text) s) = Some groups.
Proof.
  rewrite matchHere_Lit. destruct (String.prefix text s); [auto | discriminate].
Qed.

(** *** Pieces of a string *)

Lemma all_take p k s : (k <= Str.span p s)%nat -> Str.all p (Str.take k s) = true.
Proof.
  revert s. induction k as [|k IH]; intros [|c t]; cbn; try reflexivity.
  destruct (p c); cbn; [|lia]. intros H. apply IH. lia.
Qed.

Lemma length_take k s : (k <= String.length s)%nat -> String.length (Str.take k s) = k.
Proof.
  revert s. induction k as [|k IH]; intros [|c t]; cbn; try lia.
  intros H. rewrite IH; lia.
Qed.

Lemma span_le_length p s : (Str.span p s <= String.length s)%nat.
Proof. induction s as [|c t IH]; cbn; [lia|]. destruct (p c); lia. Qed.

Lemma all_drop p k s : Str.all p s = true -> Str.all p (Str.drop k s) = true.
Proof.
  revert s. induction k as [|k IH]; intros [|c t]; cbn; try tauto.
  intros H. apply andb_true_iff in H as [_ H]. now apply IH.
Qed.

Lemma all_take_of p k s : Str.all p s = true -> Str.all p (Str.take k s) = true.
Proof.
  revert s. induction k as [|k IH]; intros [|c t]; cbn; try tauto.
  intros H. apply andb_true_iff in H as [Hc H]. rewrite Hc. now apply IH.
Qed.

Lemma all_app p s t : Str.all p (s +:+ t) = Str.all p s && Str.all p t.
Proof.
  induction s as [|c s IH]; [reflexivity|].
  rewrite app_cons. cbn. rewrite IH. apply andb_assoc.
Qed.

Lemma app_assoc_s (s t u : string) : (s +:+ t) +:+ u = s +:+ t +:+ u.
Proof.
  induction s as [|c s IH]; [reflexivity|]. rewrite !app_cons. now rewrite IH.
Qed.

Lemma length_app_s (s t : string) :
  String.length (s +:+ t) = (String.length s + String.length t)%nat.
Proof.
  induction s as [|c s IH]; [reflexivity|]. rewrite app_cons. cbn. now rewrite IH.
Qed.

(** The groups are pieces of the text that was searched. *)
Lemma matchHere_pieces p re s groups :
  Str.all p s = true -> matchHere re s = Some groups ->
  Forall (fun g => Str.all p g = true) groups.
Proof.
  revert s groups. induction re as [|[text | cls min capture] re IH];
    intros s groups Hall H.
  - injection H as <-. constructor.
  - apply matchHere_Lit_some in H as [_ H]. eapply IH; [|exact H].
    now apply all_drop.
  - apply matchHere_Rep_some in H as (k & rest & _ & Hrest & ->).
    assert (Forall (fun g => Str.all p g = true) rest)
      by (eapply IH; [|exact Hrest]; now apply all_drop).
    destruct capture; [constructor; [now apply all_take_of|]|]; assumption.
Qed.

Lemma FindStringSubmatch_some re s groups :
  FindStringSubmatch re s = Some groups ->
  exists k, matchHere re (Str.drop k s) = Some groups.
Proof.
  induction s as [|c t IH]; cbn [FindStringSubmatch].
  - destruct (matchHere re EmptyString) eqn:E; [|discriminate].
    intros [= <-]. exists 0%nat. exact E.
  - destruct (matchHere re (String c t)) eqn:E.
    + intros [= <-]. exists 0%nat. exact E.
    + intros H. destruct (IH H) as [k Hk]. exists (S k). exact Hk.
Qed.

Lemma FindStringSubmatch_pieces p re s groups :
  Str.all p s = true -> FindStringSubmatch re s = Some groups ->
  Forall (fun g => Str.all p g = true) groups.
Proof.
  intros Hall H. apply FindStringSubmatch_some in H as [k Hk].
  eapply matchHere_pieces; [|exact Hk]. now apply all_drop.
Qed.

Lemma usageRegex_groups line groups :
  FindStringSubmatch usageRegex line = Some groups ->
  exists owner repo tag,
    groups = [owner; repo; tag] /\ Reference owner repo tag.
Proof.
  intros H. apply FindStringSubmatch_some in H as [k0 H]. unfold usageRegex in H.
  apply matchHere_Lit_some in H as [_ H].
  apply matchHere_Rep_some in H as (k1 & g1 & _ & H & ->).
  apply matchHere_Rep_some in H as (k2 & g2 & Hk2 & H & ->).
  apply matchHere_Lit_some in H as [_ H].
  apply matchHere_Rep_some in H as (k3 & g3 & Hk3 & H & ->).
  apply matchHere_Lit_some in H as [_ H].
  apply matchHere_Rep_some in H as (k4 & g4 & Hk4 & H & ->).
  injection H as <-.
  eexists _, _, _. split; [reflexivity|].
  pose proof span_le_length as Hle.
  split; try (apply all_take; lia);
    (rewrite length_take; [lia|]); (etransitivity; [|apply Hle]); apply Hk2 || apply Hk3 || apply Hk4.
Qed.

(** *** A line that has been rewritten is found again, with the commit as
    its reference *)

Lemma prefix_app text s : String.prefix text (text +:+ s) = true.
Proof.
  induction text as [|c text IH]; [destruct s; reflexivity|].
  rewrite app_cons. cbn. destruct (ascii_dec c c); [exact IH | congruence].
Qed.

Lemma matchHere_Lit_app text re s :
  matchHere (Lit text :: re) (text +:+ s) = matchHere re s.
Proof. rewrite matchHere_Lit, prefix_app, drop_length_app. reflexivity. Qed.

Lemma drop_app_le k r u :
  (k <= String.length r)%nat -> Str.drop k (r +:+ u) = Str.drop k r +:+ u.
Proof.
  revert r. induction k as [|k IH]; intros [|c r] H; cbn in H; try lia;
    try reflexivity.
  rewrite app_cons. cbn. apply IH. lia.
Qed.

Lemma drop_lt_head p k r :
  Str.all p r = true -> (k < String.length r)%nat ->
  exists c t, Str.drop k r = String c t /\ p c = true.
Proof.
  revert r. induction k as [|k IH]; intros [|c r] Hall H; cbn in H; try lia;
    cbn in Hall; apply andb_true_iff in Hall as [Hc Hall].
  - exists c, r. auto.
  - apply IH; [exact Hall | lia].
Qed.

Lemma length_drop k s : String.length (Str.drop k s) = (String.length s - k)%nat.
Proof.
  revert s. induction k as [|k IH]; intros [|c t]; cbn; try lia. apply IH.
Qed.

Lemma span_app_stop p r d t :
  Str.all p r = true -> p d = false ->
  Str.span p (r +:+ String d t) = String.length r.
Proof. intros Hr Hd. apply span_all_app; [exact Hr|]. cbn. now rewrite Hd. Qed.

Lemma span_app_bound p r d t :
  p d = false -> (Str.span p (r +:+ String d t) <= String.length r)%nat.
Proof.
  intros Hd. induction r as [|c r IH]; [rewrite app_nil; cbn; now rewrite Hd|].
  rewrite app_cons. cbn. destruct (p c); lia.
Qed.

(** A repetition that must be followed by a character outside of its class
    runs up to the first such character. *)
Lemma matchHere_Rep_until cls min capture d l re r t :
  Str.all cls r = true -> cls d = false ->
  matchHere (Rep cls min capture :: Lit (String d l) :: re) (r +:+ String d t)
  = if (String.length r <? min)%nat then None
    else withGroup capture r (matchHere (Lit (String d l) :: re) (String d t)).
Proof.
  intros Hr Hd. rewrite matchHere_Rep, span_app_stop by assumption.
  destruct (String.length r <? min)%nat eqn:E.
  - apply longestFirst_small. now apply Nat.ltb_lt.
  - apply Nat.ltb_ge in E. rewrite longestFirst_top; [| exact E |].
    + now rewrite take_length_app, drop_length_app.
    + intros k Hk. rewrite drop_app_le by lia.
      destruct (drop_lt_head cls k r Hr Hk) as (c & t' & -> & Hc).
      rewrite app_cons, matchHere_Lit. cbn [String.prefix].
      destruct (ascii_dec d c) as [-> | _]; [congruence | reflexivity].
Qed.

Lemma matchHere_Rep_last cls min s :
  matchHere [Rep cls min true] s
  = if (Str.span cls s <? min)%nat then None
    else Some [Str.take (Str.span cls s) s].
Proof.
  rewrite matchHere_Rep. destruct (Str.span cls s) as [|n];
    cbn [longestFirst matchHere withGroup];
    destruct (_ <? min)%nat; reflexivity.
Qed.

Lemma usageTail_match o repo sha rest :
  Str.all (notChar "/") o = true ->
  String.length repo <> 0%nat -> Str.all (notChar "@") repo = true ->
  String.length sha <> 0%nat -> Str.all notSpace sha = true ->
  Str.span notSpace rest = 0%nat ->
  matchHere usageTail (o +:+ "/" +:+ repo +:+ "@" +:+ sha +:+ rest)
  = if (String.length o <? 1)%nat then None else Some [o; repo; sha].
Proof.
  intros Ho Hr1 Hr2 Hs1 Hs2 Hrest. unfold usageTail.
  change ("/" +:+ repo +:+ "@" +:+ sha +:+ rest)
    with (String "/" (repo +:+ "@" +:+ sha +:+ rest)).
  rewrite matchHere_Rep_until by (assumption || reflexivity).
  destruct (String.length o <? 1)%nat; [reflexivity|].
  change (String "/" (repo +:+ "@" +:+ sha +:+ rest))
    with ("/" +:+ repo +:+ "@" +:+ sha +:+ rest).
  rewrite matchHere_Lit_app.
  change ("@" +:+ sha +:+ rest) with (String "@" (sha +:+ rest)).
  rewrite matchHere_Rep_until by (assumption || reflexivity).
  destruct (String.length repo <? 1)%nat eqn:E; [apply Nat.ltb_lt in E; lia|].
  change (String "@" (sha +:+ rest)) with ("@" +:+ sha +:+ rest).
  rewrite matchHere_Lit_app, matchHere_Rep_last.
  rewrite span_all_app by assumption. rewrite take_length_app.
  destruct (String.length sha <? 1)%nat eqn:E'; [apply Nat.ltb_lt in E'; lia|].
  reflexivity.
Qed.

Lemma FindStringSubmatch_skip_blank ws s :
  Str.all blankOrTab ws = true ->
  FindStringSubmatch usageRegex (ws +:+ s) = FindStringSubmatch usageRegex s.
Proof.
  induction ws as [|c ws IH]; [reflexivity|]. cbn [Str.all]. intros H.
  apply andb_true_iff in H as [Hc H]. rewrite app_cons.
  cbn [FindStringSubmatch]. unfold usageRegex at 1. rewrite matchHere_Lit.
  cbn [String.prefix].
  destruct (ascii_dec "u" c) as [<- | _]; [discriminate | now apply IH].
Qed.

(** Whatever stands in front of it and behind it, "uses: owner/repo@sha "
    is matched with [repo] and [sha] as the second and the third group. *)
Lemma usageRegex_rewritten ws owner repo sha comment :
  Str.all blankOrTab ws = true ->
  String.length owner <> 0%nat -> Str.all (notChar "/") owner = true ->
  String.length repo <> 0%nat -> Str.all (notChar "@") repo = true ->
  String.length sha <> 0%nat -> Str.all notSpace sha = true ->
  exists owner',
    FindStringSubmatch usageRegex (ws +:+ usage owner repo sha comment)
    = Some [owner'; repo; sha].
Proof.
  intros Hws Ho1 Ho2 Hr1 Hr2 Hs1 Hs2.
  rewrite FindStringSubmatch_skip_blank by exact Hws.
  set (rest := " " +:+ comment).
  set (s1 := (" " +:+ owner) +:+ "/" +:+ repo +:+ "@" +:+ sha +:+ rest).
  assert (Hline : usage owner repo sha comment = "uses:" +:+ s1) by reflexivity.
  assert (Hso : Str.all (notChar "/") (" " +:+ owner) = true)
    by (rewrite all_app, Ho2; reflexivity).
  assert (Hf : forall k, (k <= Str.span space s1)%nat ->
             matchHere usageTail (Str.drop k s1)
             = if (String.length (Str.drop k (" " +:+ owner)) <? 1)%nat then None
               else Some [Str.drop k (" " +:+ owner); repo; sha]).
  { intros k Hk. unfold s1 in *.
    assert (k <= String.length (" " +:+ owner))%nat.
    { etransitivity; [exact Hk|].
      change ("/" +:+ repo +:+ "@" +:+ sha +:+ rest)
        with (String "/" (repo +:+ "@" +:+ sha +:+ rest)).
      now apply span_app_bound. }
    rewrite drop_app_le by assumption.
    apply usageTail_match; auto. now apply all_drop. }
  assert (Hm : exists o, matchHere usageRegex ("uses:" +:+ s1) = Some [o; repo; sha]).
  { unfold usageRegex. rewrite matchHere_Lit_app, matchHere_Rep.
    fold usageTail.
    destruct (longestFirst 0 (Str.span space s1)
                (fun k => withGroup false (Str.take k s1)
                            (matchHere usageTail (Str.drop k s1)))) as [g|] eqn:E.
    - apply longestFirst_some in E as (k & Hk & E).
      rewrite Hf in E by lia.
      destruct (String.length (Str.drop k (" " +:+ owner)) <? 1)%nat;
        [discriminate|]. cbn in E. injection E as <-. eauto.
    - exfalso. revert E. apply (longestFirst_finds _ _ _ 0%nat); [lia|].
      rewrite Hf by lia. cbn. discriminate. }
  destruct Hm as [o Hm]. exists o. rewrite Hline.
  destruct ("uses:" +:+ s1) eqn:Es; cbn [FindStringSubmatch]; now rewrite Hm.
Qed.

(** ** PolicyEngine: the ways through one turn of the loop *)

Section Policy.

Context {lib : GoLibrary}.

Lemma config_readAnswer w : config (snd (readAnswer w)) = config w.
Proof. unfold readAnswer. destruct (stdin w); reflexivity. Qed.

Lemma readAnswer_emit evs w :
  readAnswer (emit evs w) = (answerOf w, emit evs (snd (readAnswer w))).
Proof. unfold answerOf, readAnswer. cbn. destruct (stdin w); reflexivity. Qed.

Lemma processLine_case rev fuel env line w :
  LineCase rev fuel env line w (processLine rev fuel env line w).
Proof.
  unfold processLine.
  destruct (FindStringSubmatch usageRegex line) as [groups|] eqn:Efind;
    [|now apply CaseNoMatch].
  destruct (usageRegex_groups _ _ Efind) as (owner & repo & tag & -> & Href).
  destruct (isAllowedOrg (config w) owner || isCommitHash tag) eqn:Eskip;
    [eapply CaseSkip; eauto|].
  destruct (lookupAccepted (config w) (keyOf owner repo tag)) as [sha|] eqn:Ecache;
    [eapply CaseCached; eauto|].
  destruct (getCommitSha rev fuel env owner repo tag) as [[[sha|e] evs]|] eqn:Eres;
    [| eapply CaseError; eauto | eapply CaseHang; eauto].
  rewrite readAnswer_emit. cbv beta iota zeta.
  change (emit [EvPrompt (keyOf owner repo tag) sha
                  (usage owner repo sha (versionTagOf env tag)) (answerOf w)]
            (emit evs (snd (readAnswer w))))
    with (prompted env evs owner repo tag sha w).
  assert (Hcfg : config (prompted env evs owner repo tag sha w) = config w)
    by (cbn; apply config_readAnswer).
  destruct (answerOf w =? "y")%string eqn:Ey.
  { apply String.eqb_eq in Ey. rewrite Hcfg.
    destruct (AcceptedMapping (config w)) as [m|] eqn:Em.
    - eapply CaseYes; eauto.
    - eapply CaseYesNil; eauto. }
  destruct (answerOf w =? "n")%string eqn:En.
  { apply String.eqb_eq in En. eapply CaseNo; eauto. }
  destruct (answerOf w =? "a")%string eqn:Ea.
  { apply String.eqb_eq in Ea. rewrite Hcfg. eapply CaseAllow; eauto. }
  destruct (answerOf w =? "q")%string eqn:Eq.
  { apply String.eqb_eq in Eq. eapply CaseQuit; eauto. }
  apply String.eqb_neq in Ey, En, Ea, Eq. eapply CaseInvalid; eauto.
Qed.

(** The worlds of a turn: only the trace grows. *)
Lemma trace_emit evs w : trace (emit evs w) = trace w ++ evs.
Proof. reflexivity. Qed.

Lemma trace_readAnswer w : trace (snd (readAnswer w)) = trace w.
Proof. unfold readAnswer. destruct (stdin w); reflexivity. Qed.

Lemma files_readAnswer w : files (snd (readAnswer w)) = files w.
Proof. unfold readAnswer. destruct (stdin w); reflexivity. Qed.

Lemma saved_readAnswer w : saved (snd (readAnswer w)) = saved w.
Proof. unfold readAnswer. destruct (stdin w); reflexivity. Qed.

Lemma trace_prompted env evs owner repo tag sha w :
  trace (prompted env evs owner repo tag sha w)
  = trace w ++ evs ++ [EvPrompt (keyOf owner repo tag) sha
                         (usage owner repo sha (versionTagOf env tag))
                         (answerOf w)].
Proof. cbn. rewrite trace_readAnswer. now rewrite <- app_assoc. Qed.

Lemma config_prompted env evs owner repo tag sha w :
  config (prompted env evs owner repo tag sha w) = config w.
Proof. cbn. apply config_readAnswer. Qed.

Lemma files_prompted env evs owner repo tag sha w :
  files (prompted env evs owner repo tag sha w) = files w.
Proof. cbn. apply files_readAnswer. Qed.

Lemma saved_prompted env evs owner repo tag sha w :
  saved (prompted env evs owner repo tag sha w) = saved w.
Proof. cbn. apply saved_readAnswer. Qed.

Lemma processLines_turns rev fuel env lines w lines' changed w' :
  processLines rev fuel env lines w = Returns (lines', changed) w' ->
  exists rs,
    Turns rev fuel env lines w rs w'
    /\ lines' = zip_with lineAfter lines rs
    /\ changed = existsb isSet rs.
Proof.
  revert w lines' changed w'. induction lines as [|line rest IH];
    intros w lines' changed w'; cbn [processLines].
  - intros [= <- <- <-]. exists []. repeat split. constructor.
  - destruct (processLine rev fuel env line w) as [r w1| | |] eqn:E1;
      try discriminate.
    destruct (processLines rev fuel env rest w1) as [[rest' ch] w2| | |] eqn:E2;
      try discriminate.
    destruct (IH _ _ _ _ E2) as (rs & Ht & -> & ->).
    intros H. exists (r :: rs).
    destruct r as [l|]; injection H as <- <- <-;
      (split; [econstructor; eassumption | split; reflexivity]).
Qed.

Lemma turns_processLines rev fuel env lines w rs w' :
  Turns rev fuel env lines w rs w' ->
  processLines rev fuel env lines w
  = Returns (zip_with lineAfter lines rs, existsb isSet rs) w'.
Proof.
  induction 1 as [|line rest w r w1 rs w2 Hl Ht IH]; cbn [processLines];
    [reflexivity|].
  rewrite Hl, IH. destruct r; reflexivity.
Qed.

Lemma Turns_length rev fuel env lines w rs w' :
  Turns rev fuel env lines w rs w' -> length rs = length lines.
Proof. induction 1; cbn; congruence. Qed.

(** The turn of the line at index [i]. *)
Lemma Turns_at rev fuel env lines w rs w' i line :
  Turns rev fuel env lines w rs w' -> lines !! i = Some line ->
  exists r w1 w2,
    rs !! i = Some r
    /\ Turns rev fuel env (take i lines) w (take i rs) w1
    /\ processLine rev fuel env line w1 = Returns r w2
    /\ Turns rev fuel env (drop (S i) lines) w2 (drop (S i) rs) w'.
Proof.
  intros Ht. revert i. induction Ht as [|l rest w r w1 rs w2 Hl Ht IH];
    intros i Hi; [rewrite lookup_nil in Hi; discriminate|].
  destruct i as [|i]; cbn in Hi.
  - injection Hi as ->. exists r, w, w1. repeat split; auto. constructor.
  - destruct (IH _ Hi) as (r' & wa & wb & Hr & Hpre & Hturn & Hpost).
    exists r', wa, wb. repeat split; auto. cbn. econstructor; eassumption.
Qed.

Lemma processLine_trace rev fuel env line w r w' :
  processLine rev fuel env line w = Returns r w' ->
  exists evs, trace w' = trace w ++ evs.
Proof.
  intros H. pose proof (processLine_case rev fuel env line w) as Hc.
  rewrite H in Hc. inversion Hc; subst; cbn [trace emit setConfig];
    rewrite ?trace_prompted; try rewrite <- app_assoc; eauto.
  exists []. now rewrite app_nil_r.
  exists []. now rewrite app_nil_r.
Qed.

Lemma Turns_trace rev fuel env lines w rs w' :
  Turns rev fuel env lines w rs w' -> exists evs, trace w' = trace w ++ evs.
Proof.
  induction 1 as [|line rest w r w1 rs w2 Hl Ht [evs2 IH]].
  - exists []. now rewrite app_nil_r.
  - destruct (processLine_trace _ _ _ _ _ _ _ Hl) as [evs1 H1].
    exists (evs1 ++ evs2). rewrite IH, H1. now rewrite app_assoc.
Qed.

(** *** C4 and C5 *)

Lemma processLine_set rev fuel env line w l w' :
  processLine rev fuel env line w = Returns (Some l) w' ->
  exists owner repo tag sha,
    FindStringSubmatch usageRegex line = Some [owner; repo; tag]
    /\ l = rewritten rev line owner repo sha (versionTagOf env tag)
    /\ ((lookupAccepted (config w) (keyOf owner repo tag) = Some sha
         /\ w' = emit [EvPrevious (keyOf owner repo tag) sha] w)
        \/ (lookupAccepted (config w) (keyOf owner repo tag) = None
            /\ answerOf w = "y"
            /\ exists evs m,
                getCommitSha rev fuel env owner repo tag = Some (Ok sha, evs)
                /\ AcceptedMapping (config w) = Some m
                /\ w' = setConfig (accept (keyOf owner repo tag) sha m (config w))
                          (prompted env evs owner repo tag sha w))).
Proof.
  intros H. pose proof (processLine_case rev fuel env line w) as Hc.
  rewrite H in Hc. inversion Hc; subst.
  - exists owner, repo, tag, sha. auto.
  - exists owner, repo, tag, sha. repeat split; auto. right. eauto 10.
Qed.

(** C4: a turn sets the line only when the key of the line is in the
    accepted mapping as the turn starts, or when the answer read for this
    key is "y"; in a file, a line that differs afterwards had such a turn. *)
Theorem rewrite_needs_cache_hit_or_yes :
  (forall rev fuel env line w l w',
      processLine rev fuel env line w = Returns (Some l) w' ->
      exists owner repo tag sha,
        FindStringSubmatch usageRegex line = Some [owner; repo; tag]
        /\ (lookupAccepted (config w) (keyOf owner repo tag) = Some sha
            \/ (answerOf w = "y"
                /\ exists evs,
                    trace w'
                    = trace w ++ evs
                        ++ [EvPrompt (keyOf owner repo tag) sha
                              (usage owner repo sha (versionTagOf env tag)) "y"])))
  /\ (forall rev fuel env lines w lines' changed w' i line l,
         processLines rev fuel env lines w = Returns (lines', changed) w' ->
         lines !! i = Some line -> lines' !! i = Some l -> l <> line ->
         exists owner repo tag sha rs w1,
           FindStringSubmatch usageRegex line = Some [owner; repo; tag]
           /\ Turns rev fuel env (take i lines) w rs w1
           /\ (lookupAccepted (config w1) (keyOf owner repo tag) = Some sha
               \/ (answerOf w1 = "y"
                   /\ In (EvPrompt (keyOf owner repo tag) sha
                            (usage owner repo sha (versionTagOf env tag)) "y")
                         (trace w')))).
Proof.
  assert (Hline : forall rev fuel env line w l w',
      processLine rev fuel env line w = Returns (Some l) w' ->
      exists owner repo tag sha,
        FindStringSubmatch usageRegex line = Some [owner; repo; tag]
        /\ (lookupAccepted (config w) (keyOf owner repo tag) = Some sha
            \/ (answerOf w = "y"
                /\ exists evs,
                    trace w'
                    = trace w ++ evs
                        ++ [EvPrompt (keyOf owner repo tag) sha
                              (usage owner repo sha (versionTagOf env tag)) "y"]))).
  { intros rev fuel env line w l w' H.
    destruct (processLine_set _ _ _ _ _ _ _ H)
      as (owner & repo & tag & sha & Hfind & _ & [[Hc _] | (_ & Hy & evs & m & _ & _ & ->)]);
      exists owner, repo, tag, sha; (split; [exact Hfind|]); [now left|].
    right. split; [exact Hy|]. exists evs.
    cbn [trace setConfig]. rewrite trace_prompted, Hy. reflexivity. }
  split; [exact Hline|].
  intros rev fuel env lines w lines' changed w' i line l Hrun Hi Hi' Hne.
  destruct (processLines_turns _ _ _ _ _ _ _ _ Hrun) as (rs & Ht & -> & _).
  destruct (Turns_at _ _ _ _ _ _ _ _ _ Ht Hi) as (r & w1 & w2 & Hr & Hpre & Hturn & Hpost).
  rewrite lookup_zip_with, Hi, Hr in Hi'. cbn in Hi'. injection Hi' as <-.
  destruct r as [l|]; [|cbn in Hne; congruence]. cbn in Hne.
  destruct (Hline _ _ _ _ _ _ _ Hturn)
    as (owner & repo & tag & sha & Hfind & Hwhy).
  exists owner, repo, tag, sha, (take i rs), w1.
  split; [exact Hfind|]. split; [exact Hpre|].
  destruct Hwhy as [Hc | (Hy & evs & Htr)]; [now left|].
  right. split; [exact Hy|].
  destruct (Turns_trace _ _ _ _ _ _ _ Hpost) as [evs' ->]. rewrite Htr.
  rewrite !in_app_iff. left. right. right. now left.
Qed.

(** C5: a line whose reference is forty characters out of 0-9 and a-f, or
    whose owner [EqualFold] finds equal to an entry of [AllowedOrgs], ends
    its turn as it started it: the line is not set, and the state is the
    same, with no request in the trace. *)
Theorem pinned_or_allowed_is_skipped :
  forall rev fuel env line w owner repo tag,
    FindStringSubmatch usageRegex line = Some [owner; repo; tag] ->
    (isCommitHash tag = true
     \/ exists org, In org (AllowedOrgs (config w)) /\ EqualFold owner org = true) ->
    processLine rev fuel env line w = Returns None w.
Proof.
  intros rev fuel env line w owner repo tag Hfind Hwhy.
  unfold processLine. rewrite Hfind.
  assert (isAllowedOrg (config w) owner || isCommitHash tag = true) as ->.
  { apply orb_true_iff. destruct Hwhy as [Hpin | (org & Hin & Hfold)];
      [now right | left].
    unfold isAllowedOrg. apply existsb_exists. eauto. }
  reflexivity.
Qed.

(** *** What the resolver leaves in the trace *)

Lemma resolveTag_events env owner repo sha r evs :
  First.resolveTag env owner repo sha = (r, evs) ->
  forallb fromResolver evs = true.
Proof.
  unfold First.resolveTag. destruct (httpGet env _) as [|code body].
  - intros [= <- <-]. reflexivity.
  - destruct (negb (code =? 200)); [intros [= <- <-]; reflexivity|].
    destruct body; intros [= <- <-]; reflexivity.
Qed.

Lemma deref_events fuel env owner repo sha r evs :
  First.deref fuel env owner repo sha = Some (r, evs) ->
  forallb fromResolver evs = true.
Proof.
  revert sha r evs. induction fuel as [|fuel IH]; intros sha r evs;
    cbn [First.deref]; [discriminate|].
  destruct (First.resolveTag env owner repo sha) as [[sha'|e] evs1] eqn:E1;
    pose proof (resolveTag_events _ _ _ _ _ _ E1) as H1;
    [|intros [= <- <-]; exact H1].
  destruct (httpGet env _) as [|code body];
    [intros [= <- <-]; rewrite forallb_app, H1; reflexivity|].
  destruct (negb (code =? 200));
    [intros [= <- <-]; rewrite forallb_app, H1; reflexivity|].
  destruct body as [type sha2| |];
    try (intros [= <- <-]; rewrite forallb_app, H1; reflexivity).
  destruct (type =? "tag")%string;
    [|intros [= <- <-]; rewrite forallb_app, H1; reflexivity].
  destruct (First.deref fuel env owner repo sha') as [[r' evs']|] eqn:E2;
    [|discriminate].
  intros [= <- <-]. rewrite forallb_app, H1. cbn. exact (IH _ _ _ E2).
Qed.

Lemma getCommitSha_events rev fuel env owner repo tag r evs :
  getCommitSha rev fuel env owner repo tag = Some (r, evs) ->
  forallb fromResolver evs = true.
Proof.
  destruct rev; cbn [getCommitSha].
  - unfold First.getCommitSha. destruct (httpGet env _) as [|code body];
      [intros [= <- <-]; reflexivity|].
    destruct (negb (code =? 200)); [intros [= <- <-]; reflexivity|].
    destruct body as [type sha| |]; try (intros [= <- <-]; reflexivity).
    destruct (type =? "tag")%string; [|intros [= <- <-]; reflexivity].
    destruct (First.deref fuel env owner repo sha) as [[[sha'|e] evs']|] eqn:E;
      [| |discriminate]; intros [= <- <-]; cbn;
      rewrite ?forallb_app, (deref_events _ _ _ _ _ _ _ E); reflexivity.
  - intros [= H]. revert H. unfold getCommitSha2, findLatestVersionTag.
    repeat match goal with
           | |- context [match ?x with _ => _ end] => destruct x
           end; intros [= <- <-]; reflexivity.
Qed.

Lemma fromResolver_In e evs :
  forallb fromResolver evs = true -> In e evs -> fromResolver e = true.
Proof. rewrite forallb_forall. auto. Qed.

(** *** How a loop ends when each of its turns keeps an invariant *)

Lemma processLines_ends rev fuel env P Q :
  (forall line w, P w -> Ends P Q (processLine rev fuel env line w)) ->
  forall lines w, P w -> Ends P Q (processLines rev fuel env lines w).
Proof.
  intros Hturn lines. induction lines as [|line rest IH]; intros w Hw;
    cbn [processLines]; [exact Hw|].
  specialize (Hturn line w Hw).
  destruct (processLine rev fuel env line w) as [r w1| | |]; cbn in Hturn |- *;
    auto.
  specialize (IH w1 Hturn).
  destruct (processLines rev fuel env rest w1) as [[rest' ch] w2| | |];
    cbn in IH |- *; auto.
  destruct r; exact IH.
Qed.

Lemma processFile_ends rev fuel env P Q :
  (forall line w, P w -> Ends P Q (processLine rev fuel env line w)) ->
  (forall path content w, P w -> P (writeFile path content w)) ->
  forall path w, P w -> Ends P Q (processFile rev fuel env path w).
Proof.
  intros Hturn Hwrite path w Hw. unfold processFile.
  destruct (files w !! path) as [content|]; [|exact Hw].
  pose proof (processLines_ends rev fuel env P Q Hturn
                (Split content newline) w Hw) as H.
  destruct (processLines rev fuel env (Split content newline) w)
    as [[lines ch] w1| | |]; cbn in H |- *; auto.
  destruct ch; cbn; auto.
Qed.

Lemma walk_ends rev fuel env P Q :
  (forall line w, P w -> Ends P Q (processLine rev fuel env line w)) ->
  (forall path content w, P w -> P (writeFile path content w)) ->
  (forall path w, P w -> P (emit [EvFileError path] w)) ->
  forall paths w, P w -> Ends P Q (walk rev fuel env paths w).
Proof.
  intros Hturn Hwrite Herr paths. induction paths as [|path rest IH];
    intros w Hw; cbn [walk]; [exact Hw|].
  pose proof (processFile_ends rev fuel env P Q Hturn Hwrite path w Hw) as H.
  destruct (processFile rev fuel env path w) as [err w1| | |]; cbn in H |- *;
    auto.
  apply IH. destruct err; auto.
Qed.

(** *** C9 *)

Lemma Recorded_emit evs w :
  (forall e, In e evs ->
             match e with
             | EvPrompt _ _ _ answer => answer <> "y"
             | EvAdded _ => False
             | _ => True
             end) ->
  Recorded w -> Recorded (emit evs w).
Proof.
  intros Hevs [Hy Ha]. split; cbn [trace config emit].
  - intros key sha nu Hin. apply in_app_iff in Hin as [Hin | Hin]; [eauto|].
    apply Hevs in Hin. congruence.
  - intros owner Hin. apply in_app_iff in Hin as [Hin | Hin]; [eauto|].
    apply Hevs in Hin. destruct Hin.
Qed.

Lemma Recorded_prompted env evs owner repo tag sha w :
  forallb fromResolver evs = true -> answerOf w <> "y" ->
  Recorded w -> Recorded (prompted env evs owner repo tag sha w).
Proof.
  intros Hevs Hans [Hy Ha]. split.
  - intros key sha' nu. rewrite trace_prompted, config_prompted, !in_app_iff.
    intros [Hin | [Hin | [Hin | []]]]; [eauto | | congruence].
    apply (fromResolver_In _ _ Hevs) in Hin. discriminate.
  - intros o. rewrite trace_prompted, config_prompted, !in_app_iff.
    intros [Hin | [Hin | [Hin | []]]]; [eauto | | discriminate].
    apply (fromResolver_In _ _ Hevs) in Hin. discriminate.
Qed.

Lemma processLine_recorded rev fuel env line w :
  Recorded w -> Ends Recorded SavedAndLeft (processLine rev fuel env line w).
Proof.
  intros Hw.
  destruct (processLine_case rev fuel env line w)
    as [ Hf | o r t Hf Hs | o r t sha Hf Hs Hc | o r t Hf Hs Hc Hr
       | o r t err evs Hf Hs Hc Hr | o r t sha evs m Hf Hs Hc Hr Hans Hm
       | o r t sha evs Hf Hs Hc Hr Hans Hm | o r t sha evs Hf Hs Hc Hr Hans
       | o r t sha evs Hf Hs Hc Hr Hans | o r t sha evs Hf Hs Hc Hr Hans
       | o r t sha evs Hf Hs Hc Hr Hny Hnn Hna Hnq ];
    cbn [Ends]; auto;
    try (apply getCommitSha_events in Hr).
  - apply Recorded_emit; [|exact Hw]. intros e [<- | []]. exact I.
  - apply Recorded_emit; [|exact Hw]. intros e Hin.
    apply in_app_iff in Hin as [Hin | [<- | []]]; [|exact I].
    apply (fromResolver_In _ _ Hr) in Hin. destruct e; try discriminate; exact I.
  - destruct Hw as [Hy Ha]. split.
    + intros key sha' nu. cbn [trace config setConfig accept].
      rewrite trace_prompted, !in_app_iff. unfold lookupAccepted at 1.
      cbn [AcceptedMapping accept].
      intros [Hin | [Hin | [Hin | []]]].
      * pose proof (Hy _ _ _ Hin) as Hold.
        rewrite lookup_insert_ne;
          [unfold lookupAccepted in Hold; now rewrite Hm in Hold|].
        congruence.
      * apply (fromResolver_In _ _ Hr) in Hin. discriminate.
      * injection Hin as <- <- _ _. apply lookup_insert_eq.
    + intros owner. cbn [trace config setConfig accept AllowedOrgs].
      rewrite trace_prompted, !in_app_iff.
      intros [Hin | [Hin | [Hin | []]]]; [eauto | | discriminate].
      apply (fromResolver_In _ _ Hr) in Hin. discriminate.
  - apply Recorded_prompted; auto. rewrite Hans. discriminate.
  - assert (Hp : Recorded (prompted env evs o r t sha w))
      by (apply Recorded_prompted; auto; rewrite Hans; discriminate).
    destruct Hp as [Hy Ha]. split.
    + intros key sha' nu. cbn [trace config emit setConfig allow].
      rewrite in_app_iff. intros [Hin | [Hin | []]]; [|discriminate].
      specialize (Hy _ _ _ Hin). rewrite config_prompted in Hy. exact Hy.
    + intros owner. cbn [trace config emit setConfig allow AllowedOrgs].
      rewrite !in_app_iff. intros [Hin | [Hin | []]].
      * left. specialize (Ha _ Hin). rewrite config_prompted in Ha. exact Ha.
      * injection Hin as <-. right. now left.
  - assert (Hp : Recorded (prompted env evs o r t sha w))
      by (apply Recorded_prompted; auto; rewrite Hans; discriminate).
    repeat split.
    + intros key sha' nu. cbn [trace config emit saveConfig].
      rewrite !in_app_iff.
      intros [[Hin | [Hin | []]] | [Hin | []]]; try discriminate.
      destruct Hp as [Hy _]. eapply Hy. exact Hin.
    + intros owner. cbn [trace config emit saveConfig]. rewrite !in_app_iff.
      intros [[Hin | [Hin | []]] | [Hin | []]]; try discriminate.
      destruct Hp as [_ Ha]. apply Ha. exact Hin.
    + exists (trace (prompted env evs o r t sha w)).
      cbn [trace config emit saveConfig]. now rewrite <- app_assoc.
  - apply Recorded_emit; [intros e [<- | []]; exact I|].
    apply Recorded_prompted; auto.
Qed.

Lemma processLine_quit rev fuel env line w owner repo tag sha evs :
  FindStringSubmatch usageRegex line = Some [owner; repo; tag] ->
  isAllowedOrg (config w) owner || isCommitHash tag = false ->
  lookupAccepted (config w) (keyOf owner repo tag) = None ->
  getCommitSha rev fuel env owner repo tag = Some (Ok sha, evs) ->
  answerOf w = "q" ->
  processLine rev fuel env line w
  = Exits 0 (emit [EvExit 0] (saveConfig (prompted env evs owner repo tag sha w))).
Proof.
  intros Hfind Hskip Hcache Hres Hq.
  destruct (processLine_case rev fuel env line w)
    as [ Hf | o r t Hf Hs | o r t sha' Hf Hs Hc | o r t Hf Hs Hc Hr
       | o r t err evs' Hf Hs Hc Hr | o r t sha' evs' m Hf Hs Hc Hr Hans Hm
       | o r t sha' evs' Hf Hs Hc Hr Hans Hm | o r t sha' evs' Hf Hs Hc Hr Hans
       | o r t sha' evs' Hf Hs Hc Hr Hans | o r t sha' evs' Hf Hs Hc Hr Hans
       | o r t sha' evs' Hf Hs Hc Hr Hny Hnn Hna Hnq ];
    rewrite Hfind in Hf; try discriminate; injection Hf as <- <- <-;
    congruence.
Qed.

(** C9: the answer "q" to a question makes the turn save the configuration
    as it is then and leave with status 0; and when a run that started with
    an empty trace leaves in this way, the configuration that the file holds
    is the one in memory, in which every key answered with "y" has its
    commit and every owner that was added is listed. *)
Theorem quit_saves_config_then_exits_zero :
  (forall rev fuel env line w owner repo tag sha evs,
      FindStringSubmatch usageRegex line = Some [owner; repo; tag] ->
      isAllowedOrg (config w) owner || isCommitHash tag = false ->
      lookupAccepted (config w) (keyOf owner repo tag) = None ->
      getCommitSha rev fuel env owner repo tag = Some (Ok sha, evs) ->
      answerOf w = "q" ->
      exists w',
        processLine rev fuel env line w = Exits 0 w'
        /\ config w' = config w
        /\ saved w' = Some (config w)
        /\ exists evs', trace w' = trace w ++ evs' ++ [EvSave (config w); EvExit 0])
  /\ (forall rev fuel env paths w code w',
         trace w = [] ->
         main rev fuel env paths w = Exits code w' ->
         code = 0
         /\ saved w' = Some (config w')
         /\ (exists evs, trace w' = evs ++ [EvSave (config w'); EvExit 0])
         /\ (forall key sha newUsage,
                In (EvPrompt key sha newUsage "y") (trace w') ->
                lookupAccepted (config w') key = Some sha)
         /\ (forall owner,
                In (EvAdded owner) (trace w') ->
                In owner (AllowedOrgs (config w')))).
Proof.
  split.
  - intros rev fuel env line w owner repo tag sha evs Hfind Hskip Hcache Hres Hq.
    eexists. split; [eapply processLine_quit; eassumption|].
    cbn [config saved trace emit saveConfig].
    rewrite config_prompted, trace_prompted.
    repeat split.
    exists (evs ++ [EvPrompt (keyOf owner repo tag) sha
                      (usage owner repo sha (versionTagOf env tag)) (answerOf w)]).
    rewrite <- !app_assoc. reflexivity.
  - intros rev fuel env paths w code w' Hempty Hmain.
    assert (Hw : Recorded w) by (split; intros *; rewrite Hempty; intros []).
    pose proof (walk_ends rev fuel env Recorded SavedAndLeft
                  (fun line w => processLine_recorded rev fuel env line w)) as H.
    specialize (H ltac:(intros path content w0 [Hy Ha]; split; intros *;
                        cbn [trace config writeFile]; rewrite in_app_iff;
                        (intros [Hin | [Hin | []]]; [eauto | discriminate]))).
    specialize (H ltac:(intros path w0 Hr; apply Recorded_emit;
                        [intros e [<- | []]; exact I | exact Hr])).
    specialize (H paths w Hw). unfold main in Hmain.
    destruct (walk rev fuel env paths w) as [u w1| | |]; try discriminate.
    injection Hmain as <- <-. destruct H as (Hc & Hs & [Hy Ha] & Ht). auto.
Qed.

(** *** How the expression finds a line that has been set *)

Lemma all_impl (p q : ascii -> bool) s :
  (forall c, p c = true -> q c = true) ->
  Str.all p s = true -> Str.all q s = true.
Proof.
  intros Hpq. induction s as [|c s IH]; cbn; [reflexivity|].
  intros H. apply andb_true_iff in H as [Hc H]. now rewrite (Hpq _ Hc), IH.
Qed.

Lemma hexLower_notSpace c : hexLower c = true -> notSpace c = true.
Proof. unfold hexLower, notSpace, space. cbv zeta. lia. Qed.

Lemma isCommitHash_shape sha :
  isCommitHash sha = true ->
  String.length sha <> 0%nat /\ Str.all notSpace sha = true
  /\ Str.all hexLower sha = true.
Proof.
  unfold isCommitHash. intros H. apply andb_true_iff in H as [Hlen Hhex].
  apply Nat.eqb_eq in Hlen. repeat split; [lia | | exact Hhex].
  eapply all_impl; [apply hexLower_notSpace | exact Hhex].
Qed.

Lemma leadingWhitespace_blank line :
  Str.all blankOrTab (leadingWhitespace line) = true.
Proof. unfold leadingWhitespace. now apply all_take. Qed.

Lemma rewritten_found rev line owner repo tag sha comment :
  Reference owner repo tag -> isCommitHash sha = true ->
  exists owner',
    FindStringSubmatch usageRegex (rewritten rev line owner repo sha comment)
    = Some [owner'; repo; sha].
Proof.
  intros [Ho1 Ho2 Hr1 Hr2 _ _] Hsha.
  destruct (isCommitHash_shape _ Hsha) as (Hs1 & Hs2 & _).
  destruct rev; cbn [rewritten].
  - apply (usageRegex_rewritten EmptyString); auto.
  - apply usageRegex_rewritten; auto using leadingWhitespace_blank.
Qed.

Lemma rewritten_skipped rev line owner repo tag sha comment :
  Reference owner repo tag -> isCommitHash sha = true ->
  forall rev' fuel' env' w,
    processLine rev' fuel' env' (rewritten rev line owner repo sha comment) w
    = Returns None w.
Proof.
  intros Href Hsha rev' fuel' env' w.
  destruct (rewritten_found rev line owner repo tag sha comment Href Hsha)
    as [owner' Hfind].
  unfold processLine. rewrite Hfind, Hsha, orb_true_r. reflexivity.
Qed.

Lemma found_reference line owner repo tag :
  FindStringSubmatch usageRegex line = Some [owner; repo; tag] ->
  Reference owner repo tag.
Proof.
  intros H. destruct (usageRegex_groups _ _ H) as (o & r & t & [= <- <- <-] & Href).
  exact Href.
Qed.

(** *** C7: the indentation, the other lines, the file *)

Lemma take_drop_s n s : Str.take n s +:+ Str.drop n s = s.
Proof.
  revert s. induction n as [|n IH]; intros [|c t]; cbn; try reflexivity.
  rewrite app_cons. now rewrite IH.
Qed.

Lemma span_drop p s : Str.span p (Str.drop (Str.span p s) s) = 0%nat.
Proof.
  induction s as [|c t IH]; [reflexivity|]. cbn.
  destruct (p c) eqn:E; cbn; [exact IH | now rewrite E].
Qed.

Lemma Split_nonempty s sep : Split s sep <> [].
Proof.
  destruct s as [|c t]; cbn; [discriminate|].
  destruct (Str.eqc c sep); [discriminate|]. destruct (Split t sep); discriminate.
Qed.

Lemma Join_cons e rest sep :
  rest <> [] -> Join (e :: rest) sep = e +:+ String sep (Join rest sep).
Proof. destruct rest; [congruence | reflexivity]. Qed.

Lemma Join_Split s sep : Join (Split s sep) sep = s.
Proof.
  induction s as [|c t IH]; [reflexivity|]. cbn [Split].
  destruct (Str.eqc c sep) eqn:E.
  - apply Ascii.eqb_eq in E as ->.
    rewrite Join_cons by apply Split_nonempty. now rewrite IH.
  - pose proof (Split_nonempty t sep) as Hne.
    destruct (Split t sep) as [|h r]; [congruence|].
    destruct r as [|h' r]; cbn [Join] in *; [now rewrite IH|].
    rewrite app_cons. now rewrite IH.
Qed.

Lemma processLine_files rev fuel env line w r w' :
  processLine rev fuel env line w = Returns r w' -> files w' = files w.
Proof.
  intros H. pose proof (processLine_case rev fuel env line w) as Hc.
  rewrite H in Hc. inversion Hc; subst; cbn [files emit setConfig];
    rewrite ?files_prompted; reflexivity.
Qed.

Lemma Turns_files rev fuel env lines w rs w' :
  Turns rev fuel env lines w rs w' -> files w' = files w.
Proof.
  induction 1 as [|line rest w r w1 rs w2 Hl Ht IH]; [reflexivity|].
  rewrite IH. eapply processLine_files. exact Hl.
Qed.

End Policy.

(** *** C8: the comment for "main" *)

(** C8 at a line that uses the "main" branch: the commit is that of the head
    of the branch, and the comment is "#main", with no date.  The same line
    with "master" gets "#master-" and the day of the run, also when the
    commit comes from the accepted mapping; another reference gets "#" and
    the reference. *)
Theorem main_branch_comment_has_no_date :
  forall (lib : GoLibrary) (fuel : nat),
    (exists w',
        processLine Rev2 fuel branchEnv "  uses: o/r@main" yesWorld
        = Returns
            (Some "  uses: o/r@440c8c1cb0ed28b9f43e4d1d670870f059653174 #main") w')
    /\ (exists w',
           processLine Rev2 fuel branchEnv "  uses: o/r@master" yesWorld
           = Returns
               (Some "  uses: o/r@440c8c1cb0ed28b9f43e4d1d670870f059653174 #master-2025-01-02")
               w')
    /\ processLine Rev2 fuel (headsEnv dayTwo) "  uses: o/r@master" cachedWorld
       = Returns
           (Some "  uses: o/r@440c8c1cb0ed28b9f43e4d1d670870f059653174 #master-2025-01-03")
           (emit [EvPrevious "o/r@master" commit1] cachedWorld)
    /\ (forall env, versionTagOf env "main" = "#main")
    /\ (forall env, versionTagOf env "master" = "#master-" +:+ formatDate (now env))
    /\ (forall env, versionTagOf env "v4" = "#v4").
Proof.
  intros lib fuel. split; [|split; [|split; [|split; [|split]]]].
  - eexists. vm_compute. reflexivity.
  - eexists. vm_compute. reflexivity.
  - vm_compute. reflexivity.
  - reflexivity.
  - reflexivity.
  - reflexivity.
Qed.

(** ** Two runs in a row *)

(** *** Lines and files *)

Lemma Split_plain e sep :
  Str.all (notChar sep) e = true -> Split e sep = [e].
Proof.
  induction e as [|c e IH]; [reflexivity|]. cbn [Str.all Split]. intros H.
  apply andb_true_iff in H as [Hc H]. unfold notChar in Hc.
  destruct (Str.eqc c sep); [discriminate|]. now rewrite IH.
Qed.

Lemma Split_app_sep e t sep :
  Str.all (notChar sep) e = true ->
  Split (e +:+ String sep t) sep = e :: Split t sep.
Proof.
  induction e as [|c e IH]; intros H.
  - rewrite app_nil. cbn [Split]. unfold Str.eqc. now rewrite Ascii.eqb_refl.
  - cbn [Str.all] in H. apply andb_true_iff in H as [Hc H]. unfold notChar in Hc.
    rewrite app_cons. cbn [Split].
    destruct (Str.eqc c sep); [discriminate|]. now rewrite IH.
Qed.

Lemma Split_Join ls sep :
  ls <> [] -> Forall (fun l => Str.all (notChar sep) l = true) ls ->
  Split (Join ls sep) sep = ls.
Proof.
  induction ls as [|e rest IH]; [congruence|]. intros _ Hall.
  apply Forall_cons in Hall as [He Hrest].
  destruct rest as [|e' rest]; [now apply Split_plain|].
  rewrite Join_cons by discriminate. rewrite Split_app_sep by exact He.
  now rewrite IH.
Qed.

Lemma Split_no_sep s sep :
  Forall (fun l => Str.all (notChar sep) l = true) (Split s sep).
Proof.
  induction s as [|c t IH]; [repeat constructor|]. cbn [Split].
  destruct (Str.eqc c sep) eqn:E; [constructor; [reflexivity | exact IH]|].
  destruct (Split t sep) as [|h r]; [repeat constructor; cbn; unfold notChar; now rewrite E|].
  apply Forall_cons in IH as [Hh Hr]. constructor; [|exact Hr].
  cbn. unfold notChar at 1. now rewrite E.
Qed.

(** *** The key determines the reference *)

Lemma app_sep_inj d a a' x x' :
  Str.all (notChar d) a = true -> Str.all (notChar d) a' = true ->
  a +:+ String d x = a' +:+ String d x' -> a = a' /\ x = x'.
Proof.
  revert a'. induction a as [|c a IH]; intros [|c' a'] Ha Ha' H;
    rewrite ?app_nil, ?app_cons in H.
  - injection H as ->. auto.
  - injection H as <- _. cbn in Ha'. unfold notChar, Str.eqc in Ha'.
    rewrite Ascii.eqb_refl in Ha'. discriminate.
  - injection H as -> _. cbn in Ha. unfold notChar, Str.eqc in Ha.
    rewrite Ascii.eqb_refl in Ha. discriminate.
  - injection H as -> H. cbn in Ha, Ha'.
    apply andb_true_iff in Ha as [_ Ha]. apply andb_true_iff in Ha' as [_ Ha'].
    destruct (IH _ Ha Ha' H) as [-> ->]. auto.
Qed.

Lemma keyOf_inj owner repo tag owner' repo' tag' :
  Reference owner repo tag -> Reference owner' repo' tag' ->
  keyOf owner repo tag = keyOf owner' repo' tag' ->
  owner = owner' /\ repo = repo' /\ tag = tag'.
Proof.
  intros [_ Ho _ Hr _ _] [_ Ho' _ Hr' _ _]. unfold keyOf. intros H.
  change ("/" +:+ repo +:+ "@" +:+ tag) with (String "/" (repo +:+ "@" +:+ tag)) in H.
  change ("/" +:+ repo' +:+ "@" +:+ tag')
    with (String "/" (repo' +:+ "@" +:+ tag')) in H.
  apply app_sep_inj in H as [-> H]; auto.
  change ("@" +:+ tag) with (String "@" tag) in H.
  change ("@" +:+ tag') with (String "@" tag') in H.
  apply app_sep_inj in H as [-> ->]; auto.
Qed.

(** *** The resolver depends on the remote service only *)

Lemma deref_ext fuel env env' owner repo sha :
  httpGet env' = httpGet env ->
  First.deref fuel env' owner repo sha = First.deref fuel env owner repo sha.
Proof.
  intros H. revert sha. induction fuel as [|fuel IH]; intros sha; [reflexivity|].
  cbn [First.deref]. unfold First.resolveTag. rewrite H.
  destruct (httpGet env _) as [|code body]; [reflexivity|].
  destruct (negb (code =? 200)); [reflexivity|].
  destruct body; try reflexivity.
  destruct (httpGet env _) as [|code' body']; [reflexivity|].
  destruct (negb (code' =? 200)); [reflexivity|].
  destruct body'; try reflexivity. now rewrite IH.
Qed.

Lemma getCommitSha_ext {lib : GoLibrary} rev fuel env env' owner repo tag :
  httpGet env' = httpGet env ->
  getCommitSha rev fuel env' owner repo tag
  = getCommitSha rev fuel env owner repo tag.
Proof.
  intros H. destruct rev; cbn [getCommitSha].
  - unfold First.getCommitSha. rewrite H.
    destruct (httpGet env _) as [|code body]; [reflexivity|].
    destruct (negb (code =? 200)); [reflexivity|].
    destruct body; try reflexivity. now rewrite (deref_ext _ _ _ _ _ _ H).
  - unfold getCommitSha2, findLatestVersionTag. rewrite H. reflexivity.
Qed.

(** *** No newline gets into a line *)

Lemma digit_noNewline n : notChar newline (digit n) = true.
Proof.
  unfold digit. pose proof (Nat.mod_upper_bound n 10 ltac:(lia)) as H.
  remember (n mod 10)%nat as k eqn:Ek. clear Ek.
  do 10 (destruct k as [|k]; [reflexivity|]). lia.
Qed.

Lemma formatDate_noNewline d : noNewline (formatDate d).
Proof.
  unfold noNewline, formatDate. cbn [Str.all].
  rewrite !digit_noNewline. reflexivity.
Qed.

Lemma hexLower_noNewline c : hexLower c = true -> notChar newline c = true.
Proof.
  unfold hexLower, notChar, Str.eqc. cbv zeta. intros H.
  destruct (Ascii.eqb_spec c newline) as [-> | _]; [discriminate | reflexivity].
Qed.

Lemma noNewline_app s t : noNewline s -> noNewline t -> noNewline (s +:+ t).
Proof. unfold noNewline. intros Hs Ht. now rewrite all_app, Hs, Ht. Qed.

Lemma blankOrTab_noNewline c : blankOrTab c = true -> notChar newline c = true.
Proof.
  unfold blankOrTab, notChar, Str.eqc. intros H.
  destruct (Ascii.eqb_spec c newline) as [-> | _]; [discriminate | reflexivity].
Qed.

Lemma versionTagOf_noNewline env tag : noNewline tag -> noNewline (versionTagOf env tag).
Proof.
  intros Ht. unfold versionTagOf. destruct (tag =? "master")%string.
  - apply noNewline_app; [reflexivity | apply formatDate_noNewline].
  - apply noNewline_app; [reflexivity | exact Ht].
Qed.

Lemma rewritten_noNewline rev line owner repo sha comment :
  noNewline owner -> noNewline repo -> noNewline sha -> noNewline comment ->
  noNewline (rewritten rev line owner repo sha comment).
Proof.
  intros Ho Hr Hs Hc.
  assert (noNewline (usage owner repo sha comment)).
  { unfold usage. repeat (apply noNewline_app; [assumption || reflexivity|]).
    exact Hc. }
  destruct rev; cbn [rewritten]; [assumption|].
  apply noNewline_app; [|assumption].
  eapply all_impl; [apply blankOrTab_noNewline | apply leadingWhitespace_blank].
Qed.

(** *** A second run after a first one in which every answer was "y" *)

Section TwoRuns.

Context {lib : GoLibrary}.
Variables (rev : revision) (fuel : nat) (env1 env2 : Env).

(** The second run finds the remote service as the first one did, and what
    the service gives as a commit is the identifier of a commit. *)
Hypothesis same_remote : httpGet env2 = httpGet env1.
Hypothesis remote_hashes :
  forall owner repo tag sha evs,
    getCommitSha rev fuel env1 owner repo tag = Some (Ok sha, evs) ->
    isCommitHash sha = true.

Lemma emit_nil w : emit [] w = w.
Proof. destruct w. unfold emit. cbn. now rewrite app_nil_r. Qed.

Lemma emit_emit evs1 evs2 w : emit evs2 (emit evs1 w) = emit (evs1 ++ evs2) w.
Proof. unfold emit. cbn. now rewrite app_assoc. Qed.

Lemma fromResolver_quiet evs :
  forallb fromResolver evs = true -> forallb quiet evs = true.
Proof.
  induction evs as [|e evs IH]; [reflexivity|]. cbn. intros H.
  apply andb_true_iff in H as [He H]. rewrite IH by exact H.
  destruct e; try discriminate; reflexivity.
Qed.

Lemma Settled_skipped cf line :
  (forall w2, config w2 = cf -> processLine rev fuel env2 line w2 = Returns None w2) ->
  Settled rev fuel env2 cf line.
Proof.
  intros H w2 Hcf. exists []. split; [reflexivity|].
  rewrite emit_nil. now apply H.
Qed.

Lemma found_noNewline line owner repo tag :
  noNewline line ->
  FindStringSubmatch usageRegex line = Some [owner; repo; tag] ->
  noNewline owner /\ noNewline repo /\ noNewline tag.
Proof.
  intros Hl Hf. pose proof (FindStringSubmatch_pieces _ _ _ _ Hl Hf) as H.
  apply Forall_cons in H as [Ho H]. apply Forall_cons in H as [Hr H].
  apply Forall_cons in H as [Ht _]. auto.
Qed.

Lemma hash_noNewline sha : isCommitHash sha = true -> noNewline sha.
Proof.
  intros H. destruct (isCommitHash_shape _ H) as (_ & _ & Hhex).
  eapply all_impl; [apply hexLower_noNewline | exact Hhex].
Qed.

Lemma set_noNewline line owner repo tag sha env :
  noNewline line ->
  FindStringSubmatch usageRegex line = Some [owner; repo; tag] ->
  isCommitHash sha = true ->
  noNewline (rewritten rev line owner repo sha (versionTagOf env tag)).
Proof.
  intros Hl Hf Hsha. destruct (found_noNewline _ _ _ _ Hl Hf) as (Ho & Hr & Ht).
  apply rewritten_noNewline; auto using hash_noNewline, versionTagOf_noNewline.
Qed.

Lemma lookupAccepted_accept key sha m c k :
  lookupAccepted (accept key sha m c) k = <[key := sha]> m !! k.
Proof. reflexivity. Qed.

Lemma isAllowedOrg_same c c' owner :
  AllowedOrgs c' = AllowedOrgs c -> isAllowedOrg c' owner = isAllowedOrg c owner.
Proof. unfold isAllowedOrg. now intros ->. Qed.

Lemma line_settles line w r w' :
  processLine rev fuel env1 line w = Returns r w' ->
  noNewline line -> AllYes (trace w') -> HexCache (config w) ->
  AllowedOrgs (config w') = AllowedOrgs (config w)
  /\ HexCache (config w')
  /\ noNewline (lineAfter line r)
  /\ forall cf,
      AllowedOrgs cf = AllowedOrgs (config w') -> Known rev fuel env1 cf (config w') ->
      Known rev fuel env1 cf (config w) /\ Settled rev fuel env2 cf (lineAfter line r).
Proof.
  intros H Hline. revert H.
  destruct (processLine_case rev fuel env1 line w)
    as [ Hf | o r0 t Hf Hs | o r0 t sha Hf Hs Hc | o r0 t Hf Hs Hc Hr
       | o r0 t err evs Hf Hs Hc Hr | o r0 t sha evs m Hf Hs Hc Hr Hans Hm
       | o r0 t sha evs Hf Hs Hc Hr Hans Hm | o r0 t sha evs Hf Hs Hc Hr Hans
       | o r0 t sha evs Hf Hs Hc Hr Hans | o r0 t sha evs Hf Hs Hc Hr Hans
       | o r0 t sha evs Hf Hs Hc Hr Hny Hnn Hna Hnq ];
    intros H; try discriminate; injection H as <- <-; intros Hyes Hhex.
  - (* no reference in the line *)
    repeat split; auto. apply Settled_skipped. intros w2 _.
    cbn [lineAfter]. unfold processLine. now rewrite Hf.
  - (* allowed or pinned *)
    repeat split; auto. apply Settled_skipped. intros w2 Hcf.
    cbn [lineAfter]. unfold processLine. rewrite Hf, Hcf.
    rewrite (isAllowedOrg_same (config w) cf) by assumption. now rewrite Hs.
  - (* accepted before *)
    pose proof (Hhex _ _ Hc) as Hsha.
    repeat split; auto.
    + now apply set_noNewline.
    + apply Settled_skipped. intros w2 _. cbn [lineAfter].
      eapply rewritten_skipped; [eapply found_reference|]; eassumption.
  - (* the resolver fails *)
    repeat split; auto. cbn [lineAfter]. intros w2 Hcf.
    cbn [config emit] in *.
    assert (Hnone : lookupAccepted cf (keyOf o r0 t) = None).
    { destruct (lookupAccepted cf (keyOf o r0 t)) eqn:E; [|reflexivity].
      destruct (H0 (keyOf o r0 t)) as [Hin | Hres]; [congruence | congruence |].
      destruct Hres as (o' & r' & t' & sha' & evs' & Href & Hkey & Hok).
      apply keyOf_inj in Hkey as (-> & -> & ->);
        [congruence | eapply found_reference; eassumption | exact Href]. }
    exists (evs ++ [EvError (keyOf o r0 t) err]). split.
    + rewrite forallb_app. rewrite fromResolver_quiet; [reflexivity|].
      eapply getCommitSha_events. exact Hr.
    + unfold processLine. rewrite Hf, Hcf.
      rewrite (isAllowedOrg_same (config w) cf) by assumption.
      rewrite Hs, Hnone, (getCommitSha_ext _ _ _ _ _ _ _ same_remote), Hr.
      reflexivity.
  - (* the answer is "y" *)
    pose proof (remote_hashes _ _ _ _ _ Hr) as Hsha.
    cbn [config setConfig accept AllowedOrgs] in *.
    repeat split; auto.
    + intros key sha'. rewrite lookupAccepted_accept.
      destruct (decide (keyOf o r0 t = key)) as [<- | Hne].
      * rewrite lookup_insert_eq. now intros [= <-].
      * rewrite lookup_insert_ne by exact Hne. intros Hl. apply (Hhex key).
        unfold lookupAccepted. now rewrite Hm.
    + now apply set_noNewline.
    + intros key Hkey. destruct (decide (keyOf o r0 t = key)) as [<- | Hne].
      * right. exists o, r0, t, sha, evs.
        split; [eapply found_reference; exact Hf | split; [reflexivity | exact Hr]].
      * destruct (H0 key Hkey) as [Hin | Hres]; [left | now right].
        revert Hin. rewrite lookupAccepted_accept.
        rewrite lookup_insert_ne by exact Hne. unfold lookupAccepted.
        now rewrite Hm.
    + apply Settled_skipped. intros w2 _. cbn [lineAfter].
      eapply rewritten_skipped; [eapply found_reference|]; eassumption.
  - (* "n" *)
    exfalso. cbn [config] in *.
    assert (answerOf w = "y"); [|congruence].
    eapply Hyes. rewrite trace_prompted, !in_app_iff. right. right. now left.
  - (* "a" *)
    exfalso. assert (answerOf w = "y"); [|congruence].
    eapply Hyes. cbn [trace emit setConfig].
    rewrite trace_prompted, !in_app_iff. left. right. right. now left.
  - (* another answer *)
    exfalso. apply Hny. eapply Hyes. cbn [trace emit].
    rewrite trace_prompted, !in_app_iff. left. right. right. now left.
Qed.

Lemma AllYes_prefix evs1 evs2 : AllYes (evs1 ++ evs2) -> AllYes evs1.
Proof.
  intros H key sha nu answer Hin. eapply H. apply in_app_iff. left. exact Hin.
Qed.

Lemma turns_settle lines w rs w' :
  Turns rev fuel env1 lines w rs w' ->
  Forall noNewline lines -> AllYes (trace w') -> HexCache (config w) ->
  AllowedOrgs (config w') = AllowedOrgs (config w)
  /\ HexCache (config w')
  /\ Forall noNewline (zip_with lineAfter lines rs)
  /\ forall cf,
      AllowedOrgs cf = AllowedOrgs (config w') -> Known rev fuel env1 cf (config w') ->
      Known rev fuel env1 cf (config w) /\ Forall (Settled rev fuel env2 cf) (zip_with lineAfter lines rs).
Proof.
  induction 1 as [w | line rest w r w1 rs w2 Hl Ht IH];
    intros Hlines Hyes Hhex.
  - repeat split; auto; constructor.
  - apply Forall_cons in Hlines as [Hline Hrest].
    destruct (Turns_trace _ _ _ _ _ _ _ Ht) as [evs Hevs].
    assert (Hyes1 : AllYes (trace w1))
      by (apply (AllYes_prefix _ evs); now rewrite <- Hevs).
    destruct (line_settles _ _ _ _ Hl Hline Hyes1 Hhex)
      as (Horg1 & Hhex1 & Hnl & Hcf1).
    destruct (IH Hrest Hyes Hhex1) as (Horg2 & Hhex2 & Hnls & Hcf2).
    split; [congruence|]. split; [exact Hhex2|].
    split; [constructor; assumption|].
    intros cf Horg Hknown.
    destruct (Hcf2 cf Horg Hknown) as [Hknown1 Hset].
    destruct (Hcf1 cf ltac:(congruence) Hknown1) as [Hknown0 Hset0].
    split; [exact Hknown0 | constructor; assumption].
Qed.

Lemma settled_lines cf ls :
  Forall (Settled rev fuel env2 cf) ls ->
  forall w2,
    config w2 = cf ->
    exists evs,
      forallb quiet evs = true
      /\ processLines rev fuel env2 ls w2 = Returns (ls, false) (emit evs w2).
Proof.
  induction 1 as [|line rest Hline Hrest IH]; intros w2 Hcf.
  - exists []. split; [reflexivity|]. now rewrite emit_nil.
  - destruct (Hline w2 Hcf) as (evs1 & Hq1 & H1).
    destruct (IH (emit evs1 w2) Hcf) as (evs2 & Hq2 & H2).
    exists (evs1 ++ evs2). split; [now rewrite forallb_app, Hq1, Hq2|].
    cbn [processLines]. now rewrite H1, H2, emit_emit.
Qed.

Lemma unset_lines (lines : list string) (rs : list (option string)) :
  length rs = length lines -> existsb isSet rs = false ->
  zip_with lineAfter lines rs = lines.
Proof.
  revert rs. induction lines as [|l lines IH]; intros [|r rs] Hlen Hex;
    try discriminate; [reflexivity|].
  cbn in Hex. apply orb_false_iff in Hex as [Hr Hex].
  destruct r; [discriminate|]. cbn. rewrite IH; auto.
Qed.

Lemma file_settles path w err wA :
  processFile rev fuel env1 path w = Returns err wA ->
  AllYes (trace wA) -> HexCache (config w) ->
  AllowedOrgs (config wA) = AllowedOrgs (config w)
  /\ HexCache (config wA)
  /\ (forall p, p <> path -> files wA !! p = files w !! p)
  /\ forall cf,
      AllowedOrgs cf = AllowedOrgs (config wA) -> Known rev fuel env1 cf (config wA) ->
      Known rev fuel env1 cf (config w)
      /\ forall w2,
          config w2 = cf -> files w2 !! path = files wA !! path ->
          exists evs,
            forallb quiet evs = true
            /\ processFile rev fuel env2 path w2 = Returns err (emit evs w2).
Proof.
  unfold processFile. destruct (files w !! path) as [content|] eqn:Eread.
  - destruct (processLines rev fuel env1 (Split content newline) w)
      as [[lines' changed] w1| | |] eqn:Erun; try discriminate.
    destruct (processLines_turns _ _ _ _ _ _ _ _ Erun) as (rs & Ht & -> & ->).
    intros H Hyes Hhex.
    assert (Hw : config wA = config w1
                 /\ AllYes (trace w1)
                 /\ files wA !! path
                    = Some (Join (zip_with lineAfter (Split content newline) rs) newline)
                 /\ (forall p, p <> path -> files wA !! p = files w !! p)
                 /\ err = false).
    { pose proof (Turns_files _ _ _ _ _ _ _ Ht) as Hfiles.
      destruct (existsb isSet rs) eqn:Eset; injection H as <- <-.
      - cbn [config files trace writeFile] in *. repeat split.
        + eapply AllYes_prefix. exact Hyes.
        + apply lookup_insert_eq.
        + intros p Hp. rewrite lookup_insert_ne by congruence. now rewrite Hfiles.
      - repeat split; auto.
        + rewrite unset_lines; [| eapply Turns_length; exact Ht | exact Eset].
          rewrite Join_Split, Hfiles. exact Eread.
        + intros p _. now rewrite Hfiles. }
    destruct Hw as (Hcfg & Hyes1 & Hpath & Hother & ->).
    destruct (turns_settle _ _ _ _ Ht (Split_no_sep content newline) Hyes1 Hhex)
      as (Horg & Hhex1 & Hnls & Hcf).
    rewrite Hcfg. repeat split; auto.
    + now apply Hcf.
    + intros w2 Hcf2 Hfile. rewrite Hfile, Hpath.
      rewrite Split_Join; [| | exact Hnls].
      * destruct (Hcf cf H0 H1) as [_ Hset].
        destruct (settled_lines cf _ Hset w2 Hcf2) as (evs & Hq & Hrun).
        exists evs. split; [exact Hq|]. now rewrite Hrun.
      * pose proof (Split_nonempty content newline) as Hne.
        inversion Ht; subst; [congruence | discriminate].
  - intros [= <- <-] Hyes Hhex. repeat split; auto.
    intros w2 _ Hfile. exists []. split; [reflexivity|].
    rewrite Hfile, Eread. now rewrite emit_nil.
Qed.

Lemma walk_trace paths w u w' :
  walk rev fuel env1 paths w = Returns u w' ->
  exists evs, trace w' = trace w ++ evs.
Proof.
  intros H.
  pose proof (walk_ends rev fuel env1
                (fun w' => exists evs, trace w' = trace w ++ evs)
                (fun _ _ => True)) as He.
  assert (Hend : Ends (fun w' => exists evs, trace w' = trace w ++ evs)
                   (fun _ _ => True) (walk rev fuel env1 paths w)).
  { apply He.
    - intros line w1 [evs Hevs].
      destruct (processLine rev fuel env1 line w1) as [r w2| | |] eqn:E; cbn; auto.
      destruct (processLine_trace _ _ _ _ _ _ _ E) as [evs' ->].
      exists (evs ++ evs'). now rewrite Hevs, app_assoc.
    - intros path content w1 [evs Hevs]. cbn [trace writeFile].
      eexists. rewrite Hevs, <- app_assoc. reflexivity.
    - intros path w1 [evs Hevs]. cbn [trace emit].
      eexists. rewrite Hevs, <- app_assoc. reflexivity.
    - exists []. now rewrite app_nil_r. }
  rewrite H in Hend. exact Hend.
Qed.

Lemma walk_settles paths :
  List.NoDup paths ->
  forall w wZ,
    walk rev fuel env1 paths w = Returns tt wZ ->
    AllYes (trace wZ) -> HexCache (config w) ->
    AllowedOrgs (config wZ) = AllowedOrgs (config w)
    /\ HexCache (config wZ)
    /\ (forall p, ~ In p paths -> files wZ !! p = files w !! p)
    /\ forall cf,
        AllowedOrgs cf = AllowedOrgs (config wZ) -> Known rev fuel env1 cf (config wZ) ->
        Known rev fuel env1 cf (config w)
        /\ forall w2,
            config w2 = cf ->
            (forall p, In p paths -> files w2 !! p = files wZ !! p) ->
            exists evs,
              forallb quiet evs = true
              /\ walk rev fuel env2 paths w2 = Returns tt (emit evs w2).
Proof.
  induction 1 as [|path rest Hnotin Hnodup IH]; intros w wZ Hwalk Hyes Hhex.
  - injection Hwalk as <-. repeat split; auto.
    intros w2 _ _. exists []. split; [reflexivity|]. cbn. now rewrite emit_nil.
  - cbn [walk] in Hwalk.
    destruct (processFile rev fuel env1 path w) as [err wA| | |] eqn:Efile;
      try discriminate.
    set (wB := if err then emit [EvFileError path] wA else wA) in *.
    assert (HB : config wB = config wA /\ files wB = files wA
                 /\ exists evs, trace wB = trace wA ++ evs).
    { unfold wB. destruct err; cbn; repeat split; eauto.
      exists []. now rewrite app_nil_r. }
    destruct HB as (HBc & HBf & evsB & HBt).
    destruct (walk_trace _ _ _ _ Hwalk) as [evsZ HZt].
    assert (HyesA : AllYes (trace wA)).
    { apply (AllYes_prefix _ (evsB ++ evsZ)).
      rewrite app_assoc, <- HBt, <- HZt. exact Hyes. }
    destruct (file_settles _ _ _ _ Efile HyesA Hhex)
      as (HorgA & HhexA & HotherA & HcfA).
    rewrite <- HBc in HhexA.
    destruct (IH wB wZ Hwalk Hyes HhexA) as (HorgZ & HhexZ & HotherZ & HcfZ).
    split; [congruence|]. split; [exact HhexZ|]. split.
    { intros p Hp. rewrite HotherZ, HBf by (intros ?; apply Hp; now right).
      apply HotherA. intros ->. apply Hp. now left. }
    intros cf Horg Hknown.
    destruct (HcfZ cf Horg Hknown) as [HknownB HrunZ].
    rewrite HBc in HknownB.
    destruct (HcfA cf ltac:(congruence) HknownB) as [Hknown0 HrunA].
    split; [exact Hknown0|].
    intros w2 Hcf2 Hfiles2.
    destruct (HrunA w2 Hcf2) as (evs1 & Hq1 & Hrun1).
    { rewrite Hfiles2 by now left. rewrite HotherZ by exact Hnotin. now rewrite HBf. }
    set (w2B := if err then emit [EvFileError path] (emit evs1 w2) else emit evs1 w2).
    assert (H2B : w2B = emit (evs1 ++ if err then [EvFileError path] else []) w2).
    { unfold w2B. destruct err; [now rewrite emit_emit | now rewrite app_nil_r]. }
    destruct (HrunZ w2B) as (evs2 & Hq2 & Hrun2).
    { rewrite H2B. exact Hcf2. }
    { intros p Hp. rewrite H2B. cbn [files emit]. apply Hfiles2. now right. }
    exists ((evs1 ++ if err then [EvFileError path] else []) ++ evs2). split.
    + rewrite !forallb_app, Hq1, Hq2. destruct err; reflexivity.
    + cbn [walk]. rewrite Hrun1. fold w2B. rewrite Hrun2, H2B, emit_emit.
      reflexivity.
Qed.

End TwoRuns.

Lemma quiet_silent evs : forallb quiet evs = true -> forallb silent evs = true.
Proof.
  induction evs as [|e evs IH]; [reflexivity|]. cbn. intros H.
  apply andb_true_iff in H as [He H]. rewrite IH by exact H.
  destruct e; try discriminate; reflexivity.
Qed.

(** X21: two runs, as the code has them.  Let a first run return with every
    question answered "y", the commits of the accepted mapping and of the
    remote service being identifiers of commits, and no file visited twice.
    Then a second run over the same files, with the same answers of the
    remote service, on whatever day and whatever the answers that wait in
    its input, returns too: it asks
    nothing and writes no file, so that every file, and the configuration,
    are as the first run left them, the comments of "master" and "main"
    references, with their dates, included. *)
Theorem second_run_asks_nothing_changes_nothing :
  forall (lib : GoLibrary) rev fuel env1 env2 paths w0 w1,
    httpGet env2 = httpGet env1 ->
    (forall owner repo tag sha evs,
        getCommitSha rev fuel env1 owner repo tag = Some (Ok sha, evs) ->
        isCommitHash sha = true) ->
    HexCache (config w0) ->
    List.NoDup paths ->
    main rev fuel env1 paths w0 = Returns tt w1 ->
    AllYes (trace w1) ->
    forall answers,
    exists w2,
      main rev fuel env2 paths (nextRun answers w1) = Returns tt w2
      /\ files w2 = files w1
      /\ config w2 = config w1
      /\ forallb silent (trace w2) = true.
Proof.
  intros lib rev fuel env1 env2 paths w0 w1 Hsame Hhash Hhex Hnodup Hmain Hyes
    answers.
  unfold main in Hmain.
  destruct (walk rev fuel env1 paths w0) as [[] wZ| | |] eqn:Ewalk;
    try discriminate.
  injection Hmain as <-.
  assert (HyesZ : AllYes (trace wZ))
    by (cbn [trace saveConfig] in Hyes; eapply AllYes_prefix; exact Hyes).
  destruct (walk_settles rev fuel env1 env2 Hsame Hhash paths Hnodup w0 wZ
              Ewalk HyesZ Hhex) as (_ & _ & _ & Hcf).
  destruct (Hcf (config wZ) eq_refl ltac:(intros key Hk; now left)) as [_ Hrun].
  destruct (Hrun (nextRun answers (saveConfig wZ)) eq_refl ltac:(reflexivity))
    as (evs & Hq & Hwalk2).
  exists (saveConfig (emit evs (nextRun answers (saveConfig wZ)))).
  unfold main. rewrite Hwalk2. repeat split.
  cbn [trace saveConfig emit nextRun]. cbn [app].
  rewrite forallb_app, (quiet_silent _ Hq). reflexivity.
Qed.

Lemma headsEnv_hashes (lib : GoLibrary) fuel d owner repo tag sha evs :
  getCommitSha Rev2 fuel (headsEnv d) owner repo tag = Some (Ok sha, evs) ->
  isCommitHash sha = true.
Proof.
  cbn [getCommitSha]. unfold getCommitSha2, findLatestVersionTag. cbn.
  destruct (tag =? "master")%string; [intros [= <- _]; reflexivity|].
  destruct (tag =? "main")%string; intros [= <- _]; reflexivity.
Qed.

Lemma second_run_asks_nothing_changes_nothing_witness :
  exists w2,
    main (lib := Lib.small) Rev2 0 (headsEnv dayTwo) ["ci.yml"]
      (nextRun ["n"] afterFirstRun) = Returns tt w2
    /\ files w2 = files afterFirstRun
    /\ config w2 = config afterFirstRun
    /\ forallb silent (trace w2) = true.
Proof.
  refine (second_run_asks_nothing_changes_nothing Lib.small Rev2 0%nat
            (headsEnv dayOne) (headsEnv dayTwo) ["ci.yml"] (startWorld ["y"])
            afterFirstRun _ _ _ _ _ _ ["n"]).
  - reflexivity.
  - apply headsEnv_hashes.
  - intros key sha H. cbn in H. rewrite lookup_empty in H. discriminate.
  - repeat constructor. cbn. tauto.
  - vm_compute. reflexivity.
  - intros key sha newUsage answer Hin. vm_compute in Hin.
    repeat (destruct Hin as [Hin | Hin]; [congruence|]). destruct Hin.
Defined.


(** ** C10: a line that has been set is passed over from then on *)

(** C10: when the commits of the accepted mapping and of the remote service
    are identifiers of commits, the line that a turn has set has such an
    identifier as its reference for the expression, and every later turn on
    it, in whatever state, on whatever day and in whichever revision, leaves
    the line and the state as they are: nothing is asked or requested, and
    the comment, with its date, stays. *)
Theorem rewritten_line_is_left_alone :
  forall (lib : GoLibrary) rev fuel env line w l w',
    processLine rev fuel env line w = Returns (Some l) w' ->
    HexCache (config w) ->
    (forall owner repo tag sha evs,
        getCommitSha rev fuel env owner repo tag = Some (Ok sha, evs) ->
        isCommitHash sha = true) ->
    (exists owner' repo sha,
        FindStringSubmatch usageRegex l = Some [owner'; repo; sha]
        /\ isCommitHash sha = true)
    /\ forall rev' fuel' env' w2,
        processLine rev' fuel' env' l w2 = Returns None w2.
Proof.
  intros lib rev fuel env line w l w' H Hhex Hhash.
  destruct (processLine_set _ _ _ _ _ _ _ H)
    as (owner & repo & tag & sha & Hfind & -> & Hwhy).
  assert (Hsha : isCommitHash sha = true).
  { destruct Hwhy as [[Hc _] | (_ & _ & evs & m & Hr & _)]; eauto. }
  pose proof (found_reference _ _ _ _ Hfind) as Href. split.
  - destruct (rewritten_found rev line owner repo tag sha
                (versionTagOf env tag) Href Hsha) as [owner' Hf].
    exists owner', repo, sha. auto.
  - now apply (rewritten_skipped rev line owner repo tag).
Qed.

(** ** The claims at work on an example *)

Lemma acceptTurn_returns :
  acceptTurn = Returns (Some pinnedMaster) (worldOf acceptTurn (startWorld [])).
Proof. vm_compute. reflexivity. Qed.

Lemma rewritten_line_is_left_alone_witness :
  (exists owner' repo sha,
      FindStringSubmatch usageRegex pinnedMaster = Some [owner'; repo; sha]
      /\ isCommitHash sha = true)
  /\ forall rev' fuel' env' w2,
      processLine (lib := Lib.small) rev' fuel' env' pinnedMaster w2
      = Returns None w2.
Proof.
  apply (rewritten_line_is_left_alone Lib.small Rev2 0%nat (headsEnv dayOne)
           usesMaster (startWorld ["y"]) pinnedMaster
           (worldOf acceptTurn (startWorld []))).
  - vm_compute. reflexivity.
  - intros key sha H. cbn in H. rewrite lookup_empty in H. discriminate.
  - apply headsEnv_hashes.
Defined.

Lemma rewrite_needs_cache_hit_or_yes_witness :
  (exists owner repo tag sha,
      FindStringSubmatch usageRegex usesMaster = Some [owner; repo; tag]
      /\ (lookupAccepted (config (startWorld ["y"])) (keyOf owner repo tag)
          = Some sha
          \/ (answerOf (startWorld ["y"]) = "y"
              /\ exists evs,
                  trace (worldOf acceptTurn (startWorld []))
                  = trace (startWorld ["y"]) ++ evs
                      ++ [EvPrompt (keyOf owner repo tag) sha
                            (usage owner repo sha
                               (versionTagOf (headsEnv dayOne) tag)) "y"])))
  /\ (exists owner repo tag sha rs w1,
         FindStringSubmatch usageRegex usesMaster = Some [owner; repo; tag]
         /\ Turns (lib := Lib.small) Rev2 0 (headsEnv dayOne)
              (take 3 (Split workflow newline)) (startWorld ["y"]) rs w1
         /\ (lookupAccepted (config w1) (keyOf owner repo tag) = Some sha
             \/ (answerOf w1 = "y"
                 /\ In (EvPrompt (keyOf owner repo tag) sha
                          (usage owner repo sha
                             (versionTagOf (headsEnv dayOne) tag)) "y")
                       (trace (worldOf acceptLoop (startWorld [])))))).
Proof.
  destruct (rewrite_needs_cache_hit_or_yes (lib := Lib.small)) as [Hline Hfile].
  split.
  - apply (Hline Rev2 0%nat (headsEnv dayOne) usesMaster (startWorld ["y"])
             pinnedMaster (worldOf acceptTurn (startWorld []))).
    vm_compute. reflexivity.
  - apply (Hfile Rev2 0%nat (headsEnv dayOne) (Split workflow newline)
             (startWorld ["y"]) (fst (valueOf acceptLoop ([], false)))
             (snd (valueOf acceptLoop ([], false)))
             (worldOf acceptLoop (startWorld [])) 3%nat usesMaster pinnedMaster).
    + vm_compute. reflexivity.
    + reflexivity.
    + vm_compute. reflexivity.
    + vm_compute. discriminate.
Defined.

Lemma pinned_or_allowed_is_skipped_witness :
  processLine (lib := Lib.small) Rev2 0 (headsEnv dayOne)
    "      - uses: Actions/checkout@v4" allowWorld = Returns None allowWorld
  /\ processLine (lib := Lib.small) Rev2 0 (headsEnv dayOne) pinnedMaster
       (startWorld ["y"]) = Returns None (startWorld ["y"]).
Proof.
  split.
  - apply (pinned_or_allowed_is_skipped (lib := Lib.small) Rev2 0%nat
             (headsEnv dayOne) _ allowWorld "Actions" "checkout" "v4").
    + vm_compute. reflexivity.
    + right. exists "actions". split; [now left | reflexivity].
  - apply (pinned_or_allowed_is_skipped (lib := Lib.small) Rev2 0%nat
             (headsEnv dayOne) _ (startWorld ["y"]) "o" "r" commit1).
    + vm_compute. reflexivity.
    + left. reflexivity.
Defined.

Lemma quit_saves_config_then_exits_zero_witness :
  (exists w',
      processLine (lib := Lib.small) Rev2 0 (headsEnv dayOne) usesMaster askedWorld
      = Exits 0 w'
      /\ config w' = config askedWorld
      /\ saved w' = Some (config askedWorld)
      /\ exists evs',
          trace w'
          = trace askedWorld ++ evs' ++ [EvSave (config askedWorld); EvExit 0])
  /\ (saved (worldOf quitRun quitWorld) = Some (config (worldOf quitRun quitWorld))
      /\ lookupAccepted (config (worldOf quitRun quitWorld)) "o/r@master"
         = Some commit1).
Proof.
  destruct (quit_saves_config_then_exits_zero (lib := Lib.small)) as [Hline Hrun].
  split.
  - apply (Hline Rev2 0%nat (headsEnv dayOne) usesMaster askedWorld
             "o" "r" "master" commit1
             [EvGet (api +:+ "o/r/git/ref/heads/master")]);
      vm_compute; reflexivity.
  - destruct (Hrun Rev2 0%nat (headsEnv dayOne) ["ci.yml"] quitWorld 0
                (worldOf quitRun quitWorld))
      as (_ & Hsaved & _ & Hyes & _);
      [reflexivity | vm_compute; reflexivity |].
    split; [exact Hsaved|].
    apply (Hyes "o/r@master" commit1
             ("uses: o/r@" +:+ commit1 +:+ " #master-2025-01-02")).
    vm_compute. tauto.
Defined.

(** The first revision sets the line to the usage text alone: the
    indentation of the line is lost. *)
Lemma first_revision_drops_indentation :
  exists w',
    processLine (lib := Lib.small) Rev1 1 (headsEnv dayOne) usesMaster
      (startWorld ["y"])
    = Returns
        (Some "uses: o/r@440c8c1cb0ed28b9f43e4d1d670870f059653174 #master-2025-01-02")
        w'.
Proof. eexists. vm_compute. reflexivity. Qed.

(** * More properties of the code *)

(** ** The expression of [processFile] *)

Lemma prefix_eq t s :
  String.prefix t s = true -> s = t +:+ Str.drop (String.length t) s.
Proof.
  revert s. induction t as [|c t IH]; intros s H; [reflexivity|].
  destruct s as [|d s]; [discriminate|]. cbn in H.
  destruct (ascii_dec c d) as [<- | _]; [|discriminate].
  rewrite app_cons. cbn [String.length Str.drop]. f_equal. now apply IH.
Qed.

Lemma list3_inj {A} (a b c a' b' c' : A) :
  [a; b; c] = [a'; b'; c'] -> a = a' /\ b = b' /\ c = c'.
Proof. now intros [= -> -> ->]. Qed.

Lemma usageRegex_decompose line groups :
  FindStringSubmatch usageRegex line = Some groups ->
  exists pre sp owner repo tag rest,
    groups = [owner; repo; tag]
    /\ line = pre +:+ "uses:" +:+ sp +:+ owner +:+ "/" +:+ repo +:+ "@"
                +:+ tag +:+ rest
    /\ Str.all space sp = true
    /\ Reference owner repo tag
    /\ Str.span notSpace rest = 0%nat.
Proof.
  intros H. pose proof H as Hgroups.
  apply usageRegex_groups in Hgroups as (o & r & t & Hg & Href).
  apply FindStringSubmatch_some in H as [k0 H]. unfold usageRegex in H.
  apply matchHere_Lit_some in H as [Hp0 H]. apply prefix_eq in Hp0.
  apply matchHere_Rep_some in H as (k1 & g1 & Hk1 & H & ->).
  apply matchHere_Rep_some in H as (k2 & g2 & Hk2 & H & ->).
  apply matchHere_Lit_some in H as [Hp1 H]. apply prefix_eq in Hp1.
  apply matchHere_Rep_some in H as (k3 & g3 & Hk3 & H & ->).
  apply matchHere_Lit_some in H as [Hp2 H]. apply prefix_eq in Hp2.
  rewrite matchHere_Rep_last in H.
  destruct (_ <? 1)%nat; [discriminate|]. apply (inj Some) in H as <-.
  apply list3_inj in Hg as (<- & <- & <-).
  eexists (Str.take k0 line), (Str.take k1 _), (Str.take k2 _),
    (Str.take k3 _), (Str.take (Str.span notSpace _) _),
    (Str.drop (Str.span notSpace _) _).
  split; [reflexivity|]. split.
  - rewrite take_drop_s, <- Hp2, take_drop_s, <- Hp1, take_drop_s,
      take_drop_s, <- Hp0, take_drop_s. reflexivity.
  - split; [apply all_take; lia|]. split; [exact Href | apply span_drop].
Qed.

(** X1: when the expression finds a reference in a line, the line is some
    text, "uses:", white space, the owner, "/", the repository, "@", the
    reference and a rest; the owner is not empty and has no "/", the
    repository is not empty and has no "@", the reference is not empty, has
    no white space and runs up to the next white space or the end. *)
Theorem usage_groups_cut_the_line :
  forall line groups,
    FindStringSubmatch usageRegex line = Some groups ->
    exists pre sp owner repo tag rest,
      groups = [owner; repo; tag]
      /\ line = pre +:+ "uses:" +:+ sp +:+ owner +:+ "/" +:+ repo +:+ "@"
                  +:+ tag +:+ rest
      /\ Str.all space sp = true
      /\ Reference owner repo tag
      /\ Str.span notSpace rest = 0%nat.
Proof. exact usageRegex_decompose. Qed.

Lemma usage_groups_cut_the_line_witness :
  exists pre sp owner repo tag rest,
    [ "actions"; "checkout"; "v4" ] = [owner; repo; tag]
    /\ "      - uses: actions/checkout@v4 # pin"
       = pre +:+ "uses:" +:+ sp +:+ owner +:+ "/" +:+ repo +:+ "@"
           +:+ tag +:+ rest
    /\ Str.all space sp = true
    /\ Reference owner repo tag
    /\ Str.span notSpace rest = 0%nat.
Proof.
  apply (usage_groups_cut_the_line "      - uses: actions/checkout@v4 # pin").
  vm_compute. reflexivity.
Defined.

Lemma FindStringSubmatch_here re s groups :
  matchHere re s = Some groups -> FindStringSubmatch re s = Some groups.
Proof. intros H. destruct s; cbn [FindStringSubmatch]; now rewrite H. Qed.

Lemma FindStringSubmatch_skip_other pre s :
  Str.all (notChar "u") pre = true ->
  FindStringSubmatch usageRegex (pre +:+ s) = FindStringSubmatch usageRegex s.
Proof.
  induction pre as [|c pre IH]; [reflexivity|]. cbn [Str.all]. intros H.
  apply andb_true_iff in H as [Hc H]. rewrite app_cons.
  cbn [FindStringSubmatch]. unfold usageRegex at 1. rewrite matchHere_Lit.
  cbn [String.prefix].
  destruct (ascii_dec "u" c) as [<- | _]; [discriminate | now apply IH].
Qed.

Lemma longestFirst_first {A} min n (f : nat -> option A) x :
  (min <= n)%nat -> f n = Some x -> longestFirst min n f = Some x.
Proof.
  intros Hn Hf. destruct n; cbn [longestFirst]; rewrite Hf;
    destruct (_ <? min)%nat eqn:E; try reflexivity;
    apply Nat.ltb_lt in E; lia.
Qed.

Lemma span_app_zero p s t :
  s <> "" -> Str.span p s = 0%nat -> Str.span p (s +:+ t) = 0%nat.
Proof.
  destruct s as [|c s]; [congruence|]. intros _. rewrite app_cons. cbn.
  now destruct (p c).
Qed.

Lemma length_zero_s s : String.length s <> 0%nat <-> s <> "".
Proof. destruct s; cbn; split; congruence. Qed.

(** X2: a line made of text without the letter "u", "uses:", white space,
    an owner that does not start with white space, "/", a repository, "@", a
    reference and a rest that starts with white space or is empty, is found
    with exactly that owner, repository and reference. *)
Theorem usage_line_is_found :
  forall pre sp owner repo tag rest,
    Str.all (notChar "u") pre = true ->
    Str.all space sp = true ->
    Reference owner repo tag ->
    Str.span space owner = 0%nat ->
    Str.span notSpace rest = 0%nat ->
    FindStringSubmatch usageRegex
      (pre +:+ "uses:" +:+ sp +:+ owner +:+ "/" +:+ repo +:+ "@" +:+ tag
         +:+ rest)
    = Some [owner; repo; tag].
Proof.
  intros pre sp owner repo tag rest Hpre Hsp [Ho1 Ho2 Hr1 Hr2 Ht1 Ht2] Ho
    Hrest.
  rewrite FindStringSubmatch_skip_other by exact Hpre.
  apply FindStringSubmatch_here. unfold usageRegex.
  rewrite matchHere_Lit_app, matchHere_Rep.
  rewrite span_all_app;
    [| exact Hsp | apply span_app_zero; [now apply length_zero_s | exact Ho]].
  apply longestFirst_first; [lia|].
  rewrite drop_length_app. fold usageTail.
  rewrite usageTail_match by assumption.
  destruct (String.length owner <? 1)%nat eqn:E;
    [apply Nat.ltb_lt in E; lia | reflexivity].
Qed.

Lemma usage_line_is_found_witness :
  FindStringSubmatch usageRegex
    ("    - " +:+ "uses:" +:+ "  " +:+ "docker" +:+ "/" +:+ "login-action"
       +:+ "@" +:+ "v3.1" +:+ " # registry")
  = Some ["docker"; "login-action"; "v3.1"].
Proof.
  apply (usage_line_is_found "    - " "  " "docker" "login-action" "v3.1"
           " # registry"); try reflexivity.
  split; (reflexivity || discriminate).
Defined.

(** X3: a line without a colon, without a slash or without an at sign holds
    no reference: local actions and images without "@" are never asked
    about. *)
Theorem line_without_separator_is_not_found :
  forall line,
    Str.all (notChar ":") line = true
    \/ Str.all (notChar "/") line = true
    \/ Str.all (notChar "@") line = true ->
    FindStringSubmatch usageRegex line = None.
Proof.
  intros line H.
  destruct (FindStringSubmatch usageRegex line) as [groups|] eqn:E;
    [|reflexivity].
  apply usageRegex_decompose in E
    as (pre & sp & owner & repo & tag & rest & _ & -> & _).
  rewrite !all_app in H. cbn in H.
  rewrite ?andb_false_r, ?andb_false_l in H.
  destruct H as [H | [H | H]]; discriminate.
Qed.

Lemma line_without_separator_is_not_found_witness :
  FindStringSubmatch usageRegex "      uses: ./.github/actions/setup" = None.
Proof.
  apply (line_without_separator_is_not_found
           "      uses: ./.github/actions/setup").
  right. right. reflexivity.
Defined.

(** ** Lines: [strings.Split] and [strings.Join] in [processFile] *)

(** X4: joining the lines of a text gives the text back; a text never has
    zero lines and no line holds the separator; and splitting the join of
    lines without the separator gives the lines back. *)
Theorem lines_round_trip :
  forall sep,
    (forall s, Join (Split s sep) sep = s)
    /\ (forall s, Split s sep <> []
                  /\ Forall (fun l => Str.all (notChar sep) l = true)
                       (Split s sep))
    /\ (forall ls,
           ls <> [] ->
           Forall (fun l => Str.all (notChar sep) l = true) ls ->
           Split (Join ls sep) sep = ls).
Proof.
  intros sep. split; [intros s; apply Join_Split|]. split.
  - intros s. split; [apply Split_nonempty | apply Split_no_sep].
  - intros ls. apply Split_Join.
Qed.

Lemma lines_round_trip_witness :
  Split (Join ["on: push"; ""; "jobs:"] newline) newline
  = ["on: push"; ""; "jobs:"].
Proof.
  apply (proj2 (proj2 (lines_round_trip newline))); [discriminate|].
  repeat constructor.
Defined.

(** ** [compareVersions] as an ordering *)

Lemma Tri_unique f g r r' : Tri f g r -> Tri f g r' -> r = r'.
Proof.
  assert (Hsym : forall f g : nat -> Z,
             (forall j, f j = g j) -> forall j, g j = f j)
    by (intros ? ? He j; symmetry; apply He).
  intros [He | Ha | Ha] [He' | Ha' | Ha']; try reflexivity; exfalso.
  - exact (Above_irrefl f g He Ha').
  - exact (Above_irrefl g f (Hsym _ _ He) Ha').
  - exact (Above_irrefl f g He' Ha).
  - exact (Above_asym f g Ha Ha').
  - exact (Above_irrefl g f (Hsym _ _ He') Ha).
  - exact (Above_asym f g Ha' Ha).
Qed.

Lemma Tri_flip f g r : Tri f g r -> Tri g f (- r).
Proof.
  intros [He | Ha | Ha]; cbn.
  - apply TriEq. intros j. symmetry. apply He.
  - now apply TriLt.
  - now apply TriGt.
Qed.

Lemma Above_ext f g f' g' :
  (forall j, f j = f' j) -> (forall j, g j = g' j) ->
  Above f g -> Above f' g'.
Proof.
  intros Hf Hg (k & Hk & Hgt). exists k. split.
  - intros j Hj. rewrite <- Hf, <- Hg. now apply Hk.
  - rewrite <- Hf, <- Hg. exact Hgt.
Qed.

Lemma Tri_ext f g f' g' r :
  (forall j, f j = f' j) -> (forall j, g j = g' j) ->
  Tri f g r -> Tri f' g' r.
Proof.
  intros Hf Hg [He | Ha | Ha].
  - apply TriEq. intros j. now rewrite <- Hf, <- Hg.
  - apply TriGt. now apply (Above_ext f g).
  - apply TriLt. now apply (Above_ext g f).
Qed.

Lemma compareVersions_tri v w :
  Tri (numberAt (components v)) (numberAt (components w))
    (compareVersions v w).
Proof. rewrite compareVersions_order. apply versionOrder_tri. Qed.

Lemma Tri_one f g : Tri f g 1 -> Above f g.
Proof. intros H. inversion H; assumption. Qed.

Lemma Tri_zero f g : Tri f g 0 -> forall j, f j = g j.
Proof. intros H. inversion H; assumption. Qed.

(** X5: [compareVersions] orders versions: a version equals itself, swapping
    the arguments changes the sign, the result is -1, 0 or 1, "greater" is
    transitive, and a version that compares equal to another compares to
    every third version as the other does. *)
Theorem compareVersions_is_an_ordering :
  (forall v, compareVersions v v = 0)
  /\ (forall v w, compareVersions w v = - compareVersions v w)
  /\ (forall v w,
         compareVersions v w = -1 \/ compareVersions v w = 0
         \/ compareVersions v w = 1)
  /\ (forall u v w,
         compareVersions u v = 1 -> compareVersions v w = 1 ->
         compareVersions u w = 1)
  /\ (forall u v w,
         compareVersions u v = 0 ->
         compareVersions u w = compareVersions v w).
Proof.
  refine (conj _ (conj _ (conj _ (conj _ _)))).
  - intros v. apply (Tri_unique _ _ _ _ (compareVersions_tri v v)).
    now apply TriEq.
  - intros v w. apply (Tri_unique _ _ _ _ (compareVersions_tri w v)).
    apply Tri_flip, compareVersions_tri.
  - intros v w. destruct (compareVersions_tri v w); auto.
  - intros u v w Huv Hvw.
    pose proof (compareVersions_tri u v) as Tuv. rewrite Huv in Tuv.
    pose proof (compareVersions_tri v w) as Tvw. rewrite Hvw in Tvw.
    apply (Tri_unique _ _ _ _ (compareVersions_tri u w)). apply TriGt.
    apply (Above_trans _ (numberAt (components v))); now apply Tri_one.
  - intros u v w Huv.
    pose proof (compareVersions_tri u v) as Tuv. rewrite Huv in Tuv.
    apply (Tri_unique _ _ _ _ (compareVersions_tri u w)).
    apply (Tri_ext (numberAt (components v)) (numberAt (components w)));
      [| reflexivity | apply compareVersions_tri].
    intros j. symmetry. now apply Tri_zero.
Qed.

Lemma compareVersions_is_an_ordering_witness :
  compareVersions "2.0" "1.9.9" = 1 /\ compareVersions "1.9.9" "1.9" = 1
  /\ compareVersions "2.0" "1.9" = 1.
Proof.
  assert (H1 : compareVersions "2.0" "1.9.9" = 1) by reflexivity.
  assert (H2 : compareVersions "1.9.9" "1.9" = 1) by reflexivity.
  split; [exact H1|]. split; [exact H2|].
  exact (proj1 (proj2 (proj2 (proj2 compareVersions_is_an_ordering)))
           "2.0" "1.9.9" "1.9" H1 H2).
Defined.

Lemma Split_app s t sep :
  Split (s +:+ String sep t) sep = Split s sep ++ Split t sep.
Proof.
  induction s as [|c s IH].
  - rewrite app_nil. cbn [Split]. unfold Str.eqc. now rewrite Ascii.eqb_refl.
  - rewrite app_cons. cbn [Split]. rewrite IH.
    destruct (Str.eqc c sep); [reflexivity|].
    pose proof (Split_nonempty s sep) as Hne.
    destruct (Split s sep) as [|h r]; [congruence | reflexivity].
Qed.

Lemma numberAt_app_zero xs j : numberAt (xs ++ [0]) j = numberAt xs j.
Proof.
  unfold numberAt. revert j. induction xs as [|x xs IH]; intros [|j]; cbn;
    try reflexivity; [now destruct j | apply IH].
Qed.

Lemma components_trailing v part :
  Str.all (notChar ".") part = true -> leadingNumber part = 0 ->
  forall j,
    numberAt (components (v +:+ "." +:+ part)) j = numberAt (components v) j.
Proof.
  intros Hdot Hzero j. unfold components.
  change ("." +:+ part) with (String "." part).
  rewrite Split_app, (Split_plain part) by exact Hdot.
  rewrite List.map_app. cbn [List.map]. rewrite Hzero.
  apply numberAt_app_zero.
Qed.

(** X6: a last component that is read as 0, such as ".0" or ".rc", does not
    count: the version compares to every other version as it does without
    that component, on either side. *)
Theorem compareVersions_ignores_trailing_zero :
  forall v part w,
    Str.all (notChar ".") part = true ->
    leadingNumber part = 0 ->
    compareVersions (v +:+ "." +:+ part) w = compareVersions v w
    /\ compareVersions w (v +:+ "." +:+ part) = compareVersions w v.
Proof.
  intros v part w Hdot Hzero.
  pose proof (components_trailing v part Hdot Hzero) as He. split.
  - apply (Tri_unique _ _ _ _ (compareVersions_tri _ _)).
    apply (Tri_ext (numberAt (components v)) (numberAt (components w)));
      [| reflexivity | apply compareVersions_tri].
    intros j. symmetry. apply He.
  - apply (Tri_unique _ _ _ _ (compareVersions_tri _ _)).
    apply (Tri_ext (numberAt (components w)) (numberAt (components v)));
      [reflexivity | | apply compareVersions_tri].
    intros j. symmetry. apply He.
Qed.

Lemma compareVersions_ignores_trailing_zero_witness :
  compareVersions ("4.1" +:+ "." +:+ "rc2") "4.1.0" = compareVersions "4.1" "4.1.0"
  /\ compareVersions "4.1.0" ("4.1" +:+ "." +:+ "rc2")
     = compareVersions "4.1.0" "4.1".
Proof.
  apply (compareVersions_ignores_trailing_zero "4.1" "rc2" "4.1.0");
    reflexivity.
Defined.

(** ** The first revision's loop over annotated tags *)

Lemma forallb_isGet_app evs evs' :
  forallb isGet evs = true -> forallb isGet evs' = true ->
  forallb isGet (evs ++ evs') = true.
Proof. intros H H'. rewrite forallb_app, H, H'. reflexivity. Qed.

Lemma resolveTag_gets env owner repo sha r evs :
  First.resolveTag env owner repo sha = (r, evs) -> forallb isGet evs = true.
Proof.
  unfold First.resolveTag. destruct (httpGet env _) as [|code body].
  - intros [= <- <-]. reflexivity.
  - destruct (negb (code =? 200)); [intros [= <- <-]; reflexivity|].
    destruct body; intros [= <- <-]; reflexivity.
Qed.

Lemma deref_gets fuel env owner repo sha r evs :
  First.deref fuel env owner repo sha = Some (r, evs) ->
  forallb isGet evs = true.
Proof.
  revert sha r evs. induction fuel as [|fuel IH]; intros sha r evs;
    cbn [First.deref]; [discriminate|].
  destruct (First.resolveTag env owner repo sha) as [[sha'|e] evs1] eqn:E1;
    pose proof (resolveTag_gets _ _ _ _ _ _ E1) as H1;
    [|intros [= <- <-]; exact H1].
  destruct (httpGet env _) as [|code body];
    [intros [= <- <-]; now apply forallb_isGet_app|].
  destruct (negb (code =? 200));
    [intros [= <- <-]; now apply forallb_isGet_app|].
  destruct body as [type x| |];
    try (intros [= <- <-]; now apply forallb_isGet_app).
  destruct (type =? "tag")%string;
    [|intros [= <- <-]; now apply forallb_isGet_app].
  destruct (First.deref fuel env owner repo sha') as [[r' evs']|] eqn:E;
    [|discriminate].
  intros [= <- <-]. apply forallb_isGet_app; [exact H1|].
  exact (IH _ _ _ E).
Qed.

Lemma deref_chain env owner repo c ts :
  forall fuel t t',
    Chain env owner repo t (t' :: ts) c ->
    (length (t' :: ts) <= fuel)%nat ->
    exists evs,
      First.deref fuel env owner repo t
      = Some (Ok (List.last (t' :: ts) t), evs)
      /\ length evs = (2 * length (t' :: ts))%nat.
Proof.
  induction ts as [|t'' ts IH]; intros fuel t t' [Ht Hrest] Hfuel;
    (destruct fuel as [|fuel]; [cbn in Hfuel; lia|]);
    cbn [First.deref]; unfold First.resolveTag; rewrite Ht;
    cbn [negb Z.eqb Pos.eqb].
  - cbn [Chain] in Hrest. rewrite Hrest. cbn [negb Z.eqb Pos.eqb].
    change ("commit" =? "tag")%string with false. cbn iota.
    eexists. split; reflexivity.
  - pose proof Hrest as [Ht' _]. rewrite Ht'. cbn [negb Z.eqb Pos.eqb].
    change ("tag" =? "tag")%string with true. cbn iota.
    destruct (IH fuel t' t'' Hrest) as (evs & -> & Hlen);
      [cbn [length] in *; lia|].
    eexists. split.
    + f_equal. f_equal. f_equal.
      change (List.last (t' :: t'' :: ts) t) with (List.last (t'' :: ts) t).
      clear. revert t''. induction ts as [|x ts IH]; intros t''; [reflexivity|].
      change (List.last (t'' :: x :: ts) ?d) with (List.last (x :: ts) d).
      apply IH.
    + cbn [length app] in *. lia.
Qed.

(** X7: in the first revision a reference whose tag object tags the commit
    directly is resolved to that commit, with one note, when the check of
    the commit as a tag object is answered with another status than 200. *)
Theorem first_revision_resolves_one_annotated_tag :
  forall fuel env owner repo tag t c code body,
    httpGet env (firstUrl owner repo tag) = Status 200 (JObject "tag" t) ->
    Chain env owner repo t [] c ->
    httpGet env (First.tagUrl owner repo c) = Status code body ->
    code <> 200 ->
    First.getCommitSha (S fuel) env owner repo tag
    = Some (Ok c,
            [ EvGet (firstUrl owner repo tag);
              EvGet (First.tagUrl owner repo t);
              EvGet (First.tagUrl owner repo c);
              EvNote owner repo tag c (firstUrl owner repo tag) ]).
Proof.
  intros fuel env owner repo tag t c code body Hhead Ht Hc Hcode.
  cbn [Chain] in Ht. unfold firstUrl in *. unfold First.getCommitSha.
  rewrite Hhead. cbn [negb Z.eqb Pos.eqb].
  change ("tag" =? "tag")%string with true. cbn iota.
  cbn [First.deref]. unfold First.resolveTag. rewrite Ht.
  cbn [negb Z.eqb Pos.eqb]. rewrite Hc.
  destruct (code =? 200) eqn:E; [apply Z.eqb_eq in E; contradiction|].
  reflexivity.
Qed.

Lemma first_revision_resolves_one_annotated_tag_witness :
  First.getCommitSha 1 oneTagEnv "o" "r" "v1"
  = Some (Ok "commitC",
          [ EvGet (firstUrl "o" "r" "v1");
            EvGet (First.tagUrl "o" "r" "tagA");
            EvGet (First.tagUrl "o" "r" "commitC");
            EvNote "o" "r" "v1" "commitC" (firstUrl "o" "r" "v1") ]).
Proof.
  apply (first_revision_resolves_one_annotated_tag 0 oneTagEnv "o" "r" "v1"
           "tagA" "commitC" 404 JBad); (reflexivity || discriminate).
Defined.

(** X8: in the first revision, when the tag object of a reference heads a
    chain of two or more annotated tags and the loop is given a turn for each
    tag of the chain after the first, the reference is resolved to the last
    tag object of the chain, not to the commit that it tags; two requests are
    made for each of those tags, and one note ends the output. *)
Theorem first_revision_stops_at_last_tag_of_chain :
  forall fuel env owner repo tag t t' ts c,
    httpGet env (firstUrl owner repo tag) = Status 200 (JObject "tag" t) ->
    Chain env owner repo t (t' :: ts) c ->
    (length (t' :: ts) <= fuel)%nat ->
    exists evs,
      First.getCommitSha fuel env owner repo tag
      = Some (Ok (List.last (t' :: ts) t),
              evs ++ [EvNote owner repo tag (List.last (t' :: ts) t)
                        (firstUrl owner repo tag)])
      /\ forallb isGet evs = true
      /\ length evs = (1 + 2 * length (t' :: ts))%nat.
Proof.
  intros fuel env owner repo tag t t' ts c Hhead Hchain Hfuel.
  destruct (deref_chain env owner repo c ts fuel t t' Hchain Hfuel)
    as (evs & Hderef & Hlen).
  exists (EvGet (firstUrl owner repo tag) :: evs).
  unfold firstUrl in *. unfold First.getCommitSha.
  rewrite Hhead. cbn [negb Z.eqb Pos.eqb].
  change ("tag" =? "tag")%string with true. cbn iota. rewrite Hderef.
  split; [reflexivity|]. split.
  - cbn [forallb isGet andb]. exact (deref_gets _ _ _ _ _ _ _ Hderef).
  - cbn [length] in *. lia.
Qed.

Lemma first_revision_stops_at_last_tag_of_chain_witness :
  exists evs,
    First.getCommitSha 1 chainEnv "o" "r" "v1"
    = Some (Ok (List.last ["tagB"] "tagA"),
            evs ++ [EvNote "o" "r" "v1" (List.last ["tagB"] "tagA")
                      (firstUrl "o" "r" "v1")])
    /\ forallb isGet evs = true
    /\ length evs = (1 + 2 * length ["tagB"])%nat.
Proof.
  apply (first_revision_stops_at_last_tag_of_chain 1 chainEnv "o" "r" "v1"
           "tagA" "tagB" [] "commitC");
    [reflexivity | split; reflexivity | cbn; lia].
Defined.

Section Resolver.

Context {lib : GoLibrary}.

(** X9: what the resolver prints.  In both revisions its output is made of
    requests, followed by exactly one note when the first revision has
    resolved a reference whose first answer has the type "tag", and by
    nothing otherwise; the note names the commit id that is returned and the
    URL of the first request.  A failure and the second revision print no
    note. *)
Theorem resolver_prints_at_most_one_note :
  forall rev fuel env owner repo tag r evs,
    getCommitSha rev fuel env owner repo tag = Some (r, evs) ->
    exists gets,
      forallb isGet gets = true
      /\ evs
         = gets
             ++ match rev, r with
                | Rev1, Ok sha =>
                    if headIsTag env owner repo tag
                    then [EvNote owner repo tag sha (firstUrl owner repo tag)]
                    else []
                | _, _ => []
                end.
Proof.
  intros [|] fuel env owner repo tag r evs; cbn [getCommitSha].
  - unfold First.getCommitSha, headIsTag. fold (firstUrl owner repo tag).
    destruct (httpGet env (firstUrl owner repo tag)) as [|code body] eqn:Eh;
      [intros [= <- <-]; eexists; split; [|symmetry; apply app_nil_r];
       reflexivity|].
    destruct (code =? 200) eqn:Ec; cbn [negb andb];
      [|intros [= <- <-]; eexists; split; [|symmetry; apply app_nil_r];
        reflexivity].
    destruct body as [type sha| |];
      try (intros [= <- <-]; eexists; split; [|symmetry; apply app_nil_r];
           reflexivity).
    destruct (type =? "tag")%string eqn:Et;
      [|intros [= <- <-]; eexists; split; [|symmetry; apply app_nil_r];
        reflexivity].
    destruct (First.deref fuel env owner repo sha) as [[[sha'|e] evs']|] eqn:E;
      [| |discriminate]; intros [= <- <-];
      pose proof (deref_gets _ _ _ _ _ _ _ E) as Hg.
    + exists (EvGet (firstUrl owner repo tag) :: evs'). split; [exact Hg|].
      reflexivity.
    + exists (EvGet (firstUrl owner repo tag) :: evs'). split; [exact Hg|].
      cbn [app]. now rewrite app_nil_r.
  - intros [= H]. exists evs. rewrite app_nil_r. split; [|reflexivity].
    revert H. unfold getCommitSha2, findLatestVersionTag.
    repeat match goal with
           | |- context [match ?x with _ => _ end] => destruct x
           end; intros [= <- <-]; reflexivity.
Qed.

End Resolver.

Lemma resolver_prints_at_most_one_note_witness :
  exists gets,
    forallb isGet gets = true
    /\ [ EvGet (firstUrl "o" "r" "v1"); EvGet (First.tagUrl "o" "r" "tagA");
         EvGet (First.tagUrl "o" "r" "commitC");
         EvNote "o" "r" "v1" "commitC" (firstUrl "o" "r" "v1") ]
       = gets
           ++ (if headIsTag oneTagEnv "o" "r" "v1"
               then [EvNote "o" "r" "v1" "commitC" (firstUrl "o" "r" "v1")]
               else []).
Proof.
  apply (@resolver_prints_at_most_one_note Lib.small Rev1 1 oneTagEnv
           "o" "r" "v1" (Ok "commitC")).
  reflexivity.
Defined.

(** ** A run as a whole *)

Section Run.

Context {lib : GoLibrary}.

Lemma processLines_outcomes rev fuel env P Q R H :
  (forall line w, P w -> Outcomes P Q R H (processLine rev fuel env line w)) ->
  forall lines w, P w -> Outcomes P Q R H (processLines rev fuel env lines w).
Proof.
  intros Hturn lines. induction lines as [|line rest IH]; intros w Hw;
    cbn [processLines]; [exact Hw|].
  specialize (Hturn line w Hw).
  destruct (processLine rev fuel env line w) as [r w1| | |]; cbn in Hturn |- *;
    auto.
  specialize (IH w1 Hturn).
  destruct (processLines rev fuel env rest w1) as [[rest' ch] w2| | |];
    cbn in IH |- *; auto.
  destruct r; exact IH.
Qed.

Lemma processFile_outcomes rev fuel env P Q R H path :
  (forall line w, P w -> Outcomes P Q R H (processLine rev fuel env line w)) ->
  (forall content w,
      P w -> files w !! path <> None -> P (writeFile path content w)) ->
  forall w, P w -> Outcomes P Q R H (processFile rev fuel env path w).
Proof.
  intros Hturn Hwrite w Hw. unfold processFile.
  destruct (files w !! path) as [content|] eqn:Efile; [|exact Hw].
  pose proof (processLines_outcomes rev fuel env P Q R H Hturn
                (Split content newline) w Hw) as Hout.
  destruct (processLines rev fuel env (Split content newline) w)
    as [[lines ch] w1| | |] eqn:Erun; cbn in Hout |- *; auto.
  destruct ch; cbn; auto. apply Hwrite; [exact Hout|].
  apply processLines_turns in Erun as (rs & Ht & _).
  rewrite (Turns_files _ _ _ _ _ _ _ Ht), Efile. discriminate.
Qed.

Lemma walk_outcomes rev fuel env P Q R H paths :
  (forall line w, P w -> Outcomes P Q R H (processLine rev fuel env line w)) ->
  (forall path content w,
      In path paths -> P w -> files w !! path <> None ->
      P (writeFile path content w)) ->
  (forall path w, P w -> P (emit [EvFileError path] w)) ->
  forall w, P w -> Outcomes P Q R H (walk rev fuel env paths w).
Proof.
  intros Hturn Hwrite Herr. induction paths as [|path rest IH];
    intros w Hw; cbn [walk]; [exact Hw|].
  assert (Hfile : Outcomes P Q R H (processFile rev fuel env path w)).
  { apply processFile_outcomes; [exact Hturn | | exact Hw].
    intros content w1. apply Hwrite. now left. }
  destruct (processFile rev fuel env path w) as [err w1| | |];
    cbn in Hfile |- *; auto.
  apply IH; [|destruct err; auto].
  intros p content w2 Hin. apply Hwrite. now right.
Qed.

Lemma Extends_refl c : Extends c c.
Proof. split; [exists []; now rewrite app_nil_r | auto]. Qed.

Lemma Extends_trans c c' c'' : Extends c c' -> Extends c' c'' -> Extends c c''.
Proof.
  intros [[m Hm] Hk] [[m' Hm'] Hk']. split.
  - exists (m ++ m'). now rewrite Hm', Hm, <- app_assoc.
  - auto.
Qed.

Lemma Extends_accept key sha m c :
  AcceptedMapping c = Some m -> lookupAccepted c key = None ->
  Extends c (accept key sha m c).
Proof.
  intros Hm Hnone. split; [exists []; cbn; now rewrite app_nil_r|].
  intros k v. unfold lookupAccepted in *. rewrite Hm in *.
  cbn [accept AcceptedMapping]. intros Hk.
  destruct (decide (k = key)) as [-> | Hne]; [congruence|].
  now rewrite lookup_insert_ne by congruence.
Qed.

Lemma Extends_allow owner c : Extends c (allow owner c).
Proof. split; [now exists [owner] | auto]. Qed.

(** However a turn ends, the configuration it leaves extends the one it
    found. *)
Lemma processLine_extends rev fuel env line w :
  Outcomes (fun w' => Extends (config w) (config w'))
    (fun _ w' => Extends (config w) (config w'))
    (fun w' => Extends (config w) (config w')) True
    (processLine rev fuel env line w).
Proof.
  destruct (processLine_case rev fuel env line w);
    cbn [Outcomes config emit setConfig saveConfig];
    rewrite ?config_prompted;
    auto using Extends_refl, Extends_accept, Extends_allow.
Qed.

Lemma Outcomes_impl {A} (P P' : World -> Prop) (Q Q' : Z -> World -> Prop)
  (R R' : World -> Prop) (H H' : Prop) (o : Outcome A) :
  (forall w, P w -> P' w) -> (forall code w, Q code w -> Q' code w) ->
  (forall w, R w -> R' w) -> (H -> H') ->
  Outcomes P Q R H o -> Outcomes P' Q' R' H' o.
Proof. destruct o; cbn; auto. Qed.

Lemma walk_extends rev fuel env paths w :
  Outcomes (fun w' => Extends (config w) (config w'))
    (fun _ w' => Extends (config w) (config w'))
    (fun w' => Extends (config w) (config w')) True
    (walk rev fuel env paths w).
Proof.
  apply walk_outcomes; [| auto | auto | apply Extends_refl].
  intros line w1 Hw1.
  apply (Outcomes_impl _ _ _ _ _ _ _ _ _ (fun w2 H => Extends_trans _ _ _ Hw1 H)
           (fun _ w2 H => Extends_trans _ _ _ Hw1 H)
           (fun w2 H => Extends_trans _ _ _ Hw1 H) (fun t => t)
           (processLine_extends rev fuel env line w1)).
Qed.

(** X10: a run only adds to the configuration.  However the run stops, the
    allowed organisations it leaves are those it found, in their order,
    followed by new ones, and every commit id that was accepted for a key
    is still the one accepted for it. *)
Theorem run_only_adds_to_config :
  forall rev fuel env paths w w',
    endsIn (main rev fuel env paths w) w' ->
    Extends (config w) (config w').
Proof.
  intros rev fuel env paths w w'. unfold main.
  pose proof (walk_extends rev fuel env paths w) as H.
  destruct (walk rev fuel env paths w) as [u w1| | |]; cbn in H |- *;
    intros He; [subst w'; exact H .. | contradiction].
Qed.

End Run.

Lemma run_only_adds_to_config_witness :
  Extends (config (startWorld ["y"])) (config afterFirstRun).
Proof.
  apply (@run_only_adds_to_config Lib.small Rev2 0 (headsEnv dayOne)
           ["ci.yml"] (startWorld ["y"]) afterFirstRun).
  vm_compute. reflexivity.
Defined.

Section Unavailable.

Context {lib : GoLibrary}.

Lemma unavailable_get env url :
  unavailable env ->
  httpGet env url = Failed
  \/ exists code body,
       httpGet env url = Status code body /\ negb (code =? 200) = true.
Proof.
  intros H. specialize (H url).
  destruct (httpGet env url) as [|code body]; [now left|].
  right. exists code, body. split; [reflexivity|].
  apply negb_true_iff, Z.eqb_neq, H.
Qed.

Lemma unavailable_resolver rev fuel env owner repo tag :
  unavailable env ->
  exists e evs, getCommitSha rev fuel env owner repo tag = Some (Err e, evs).
Proof.
  intros H. destruct rev; cbn [getCommitSha].
  - unfold First.getCommitSha.
    destruct (unavailable_get env (firstUrl owner repo tag) H)
      as [Hg | (code & body & Hg & Hc)]; unfold firstUrl in Hg; rewrite Hg;
      [|rewrite Hc]; eauto.
  - unfold getCommitSha2, findLatestVersionTag.
    destruct (tag =? "master")%string; [|destruct (tag =? "main")%string];
      match goal with
      | |- context [httpGet env ?url] =>
          destruct (unavailable_get env url H)
            as [Hg | (code & body & Hg & Hc)]; rewrite Hg; [|rewrite Hc]
      end; eauto.
Qed.

Lemma unavailable_settled rev fuel env cf line :
  unavailable env -> (forall key, lookupAccepted cf key = None) ->
  Settled rev fuel env cf line.
Proof.
  intros Hun Hcache w Hcf.
  destruct (processLine_case rev fuel env line w)
    as [ Hf | o r t Hf Hs | o r t sha' Hf Hs Hc | o r t Hf Hs Hc Hr
       | o r t err evs' Hf Hs Hc Hr | o r t sha' evs' m Hf Hs Hc Hr Hans Hm
       | o r t sha' evs' Hf Hs Hc Hr Hans Hm | o r t sha' evs' Hf Hs Hc Hr Hans
       | o r t sha' evs' Hf Hs Hc Hr Hans | o r t sha' evs' Hf Hs Hc Hr Hans
       | o r t sha' evs' Hf Hs Hc Hr Hny Hnn Hna Hnq ];
    try (destruct (unavailable_resolver rev fuel env o r t Hun)
           as (e0 & evs0 & He0); congruence).
  - exists []. now rewrite emit_nil.
  - exists []. now rewrite emit_nil.
  - exists (evs' ++ [EvError (keyOf o r t) err]). split; [|reflexivity].
    rewrite forallb_app, fromResolver_quiet; [reflexivity|].
    exact (getCommitSha_events _ _ _ _ _ _ _ _ Hr).
Qed.

Lemma settled_walk rev fuel env cf :
  (forall line, Settled rev fuel env cf line) ->
  forall paths w,
    config w = cf ->
    exists evs,
      forallb quiet evs = true
      /\ walk rev fuel env paths w = Returns tt (emit evs w).
Proof.
  intros Hall paths. induction paths as [|path rest IH]; intros w Hcf;
    cbn [walk].
  - exists []. now rewrite emit_nil.
  - assert (Hfile : exists evs,
               forallb quiet evs = true
               /\ exists err,
                    processFile rev fuel env path w = Returns err (emit evs w)).
    { unfold processFile. destruct (files w !! path) as [content|].
      - destruct (settled_lines rev fuel env cf (Split content newline))
          with (w2 := w) as (evs & Hq & ->);
          [apply List.Forall_forall; intros; apply Hall | exact Hcf |].
        exists evs. split; [exact Hq | now exists false].
      - exists []. split; [reflexivity|]. exists true. now rewrite emit_nil. }
    destruct Hfile as (evs1 & Hq1 & err & ->).
    set (w1 := if err then emit [EvFileError path] (emit evs1 w)
               else emit evs1 w).
    assert (Hw1 : exists evs, forallb quiet evs = true /\ w1 = emit evs w).
    { destruct err; subst w1.
      - exists (evs1 ++ [EvFileError path]).
        rewrite emit_emit, forallb_app, Hq1. now split.
      - now exists evs1. }
    destruct Hw1 as (evs1' & Hq1' & ->).
    destruct (IH (emit evs1' w) Hcf) as (evs2 & Hq2 & ->).
    exists (evs1' ++ evs2). rewrite emit_emit, forallb_app, Hq1', Hq2.
    now split.
Qed.

(** X11: when the remote service answers no request with the status 200 and
    the configuration holds no accepted commit, a run asks nothing and sets
    no line: it returns, having printed requests and errors only, with the
    files, the input and the configuration as they were, and the
    configuration saved. *)
Theorem unavailable_remote_changes_nothing :
  forall rev fuel env paths w,
    unavailable env ->
    (forall key, lookupAccepted (config w) key = None) ->
    exists evs,
      forallb quiet evs = true
      /\ main rev fuel env paths w = Returns tt (saveConfig (emit evs w)).
Proof.
  intros rev fuel env paths w Hun Hcache. unfold main.
  destruct (settled_walk rev fuel env (config w)
              (fun line => unavailable_settled rev fuel env _ line Hun Hcache)
              paths w eq_refl) as (evs & Hq & ->).
  now exists evs.
Qed.

End Unavailable.

Lemma unavailable_remote_changes_nothing_witness :
  exists evs,
    forallb quiet evs = true
    /\ main (lib := Lib.small) Rev1 0 offlineEnv ["ci.yml"; "none.yml"]
         (startWorld ["y"])
       = Returns tt (saveConfig (emit evs (startWorld ["y"]))).
Proof.
  apply (@unavailable_remote_changes_nothing Lib.small Rev1 0 offlineEnv
           ["ci.yml"; "none.yml"] (startWorld ["y"])).
  - intros url. exact I.
  - intros key. reflexivity.
Defined.

Section Declined.

Context {lib : GoLibrary}.

Lemma declines_answerOf w :
  Forall declines (stdin w) ->
  declines (answerOf w) /\ Forall declines (stdin (snd (readAnswer w))).
Proof.
  unfold answerOf, readAnswer. intros H.
  destruct (stdin w) as [|a rest] eqn:E; cbn.
  - rewrite E. split; [repeat split; discriminate | constructor].
  - apply Forall_cons in H. exact H.
Qed.

Lemma declined_turn rev fuel env c line w :
  config w = c /\ Forall declines (stdin w) ->
  Outcomes (fun w' => config w' = c /\ Forall declines (stdin w'))
    (fun _ _ => False) (fun _ => False) (rev = Rev1)
    (processLine rev fuel env line w).
Proof.
  intros [Hc Hin]. destruct (declines_answerOf w Hin) as [(Hy & Ha & Hq) Hrest].
  destruct (processLine_case rev fuel env line w)
    as [ Hf | o r t Hf Hs | o r t sha' Hf Hs Hk | o r t Hf Hs Hk Hr
       | o r t err evs' Hf Hs Hk Hr | o r t sha' evs' m Hf Hs Hk Hr Hans Hm
       | o r t sha' evs' Hf Hs Hk Hr Hans Hm | o r t sha' evs' Hf Hs Hk Hr Hans
       | o r t sha' evs' Hf Hs Hk Hr Hans | o r t sha' evs' Hf Hs Hk Hr Hans
       | o r t sha' evs' Hf Hs Hk Hr Hny Hnn Hna Hnq ];
    cbn [Outcomes]; try contradiction;
    try (split; [cbn [config emit]; rewrite ?config_prompted; exact Hc
                | exact Hin || exact Hrest]).
  destruct rev; [reflexivity | discriminate].
Qed.

(** X12: a run whose answers hold no "y", no "a" and no "q" (the end of the
    input counts as an empty answer) leaves the configuration as it found it:
    it does not leave early and does not panic, and when it returns, the
    configuration is unchanged and saved.  Only the first revision can fail
    to return, inside its loop over annotated tags. *)
Theorem declined_run_keeps_config :
  forall rev fuel env paths w,
    Forall declines (stdin w) ->
    (main rev fuel env paths w = Hangs /\ rev = Rev1)
    \/ exists w',
         main rev fuel env paths w = Returns tt w'
         /\ config w' = config w /\ saved w' = Some (config w).
Proof.
  intros rev fuel env paths w Hin. unfold main.
  pose proof (walk_outcomes rev fuel env
                (fun w' => config w' = config w /\ Forall declines (stdin w'))
                (fun _ _ => False) (fun _ => False) (rev = Rev1) paths
                (declined_turn rev fuel env (config w))) as H.
  specialize (H (fun _ _ _ _ Hw _ => Hw) (fun _ _ Hw => Hw) w (conj eq_refl Hin)).
  destruct (walk rev fuel env paths w) as [[] w1| | |]; cbn in H;
    try contradiction; [right | now left].
  exists (saveConfig w1). destruct H as [Hc _]. cbn. now rewrite Hc.
Qed.

End Declined.

Lemma declined_run_keeps_config_witness :
  (main (lib := Lib.small) Rev2 0 (headsEnv dayOne) ["ci.yml"]
     (startWorld ["n"]) = Hangs /\ Rev2 = Rev1)
  \/ exists w',
       main (lib := Lib.small) Rev2 0 (headsEnv dayOne) ["ci.yml"]
         (startWorld ["n"]) = Returns tt w'
       /\ config w' = config (startWorld ["n"])
       /\ saved w' = Some (config (startWorld ["n"])).
Proof.
  apply (@declined_run_keeps_config Lib.small Rev2 0 (headsEnv dayOne)
           ["ci.yml"] (startWorld ["n"])).
  repeat constructor; discriminate.
Defined.

Section EarlyEnd.

Context {lib : GoLibrary}.

Lemma processLine_keeps_files rev fuel env (fs : gmap string string) line w :
  files w = fs ->
  Outcomes (fun w' => files w' = fs) (fun _ w' => files w' = fs)
    (fun w' => files w' = fs) True (processLine rev fuel env line w).
Proof.
  intros Hw. destruct (processLine_case rev fuel env line w);
    cbn [Outcomes files emit setConfig saveConfig];
    rewrite ?files_prompted; auto.
Qed.

(** X13: a file is written only when the loop over its lines has come to
    its end.  When [processFile] leaves early, through the answer "q" or
    through a panic, no file is changed, also when lines of this file were
    accepted before. *)
Theorem file_in_progress_is_not_written :
  forall rev fuel env path w w',
    (exists code, processFile rev fuel env path w = Exits code w')
    \/ processFile rev fuel env path w = Panics w' ->
    files w' = files w.
Proof.
  intros rev fuel env path w w'. unfold processFile.
  destruct (files w !! path) as [content|];
    [|intros [[code H] | H]; discriminate].
  pose proof (processLines_outcomes rev fuel env
                (fun w' => files w' = files w) (fun _ w' => files w' = files w)
                (fun w' => files w' = files w) True
                (processLine_keeps_files rev fuel env (files w))
                (Split content newline) w eq_refl) as H.
  destruct (processLines rev fuel env (Split content newline) w)
    as [[lines ch] w1|code w1|w1|]; cbn in H.
  - destruct ch; intros [[code He] | He]; discriminate.
  - intros [[code' He] | He]; [|discriminate]. now injection He as _ <-.
  - intros [[code' He] | He]; [discriminate|]. now injection He as <-.
  - intros [[code He] | He]; discriminate.
Qed.

Lemma processLine_panics rev fuel env (w0 : World) line w :
  (AcceptedMapping (config w0) <> None -> AcceptedMapping (config w) <> None)
  /\ saved w = saved w0 ->
  Outcomes
    (fun w' =>
       (AcceptedMapping (config w0) <> None ->
        AcceptedMapping (config w') <> None)
       /\ saved w' = saved w0)
    (fun _ _ => True)
    (fun w' => AcceptedMapping (config w0) = None /\ saved w' = saved w0)
    True (processLine rev fuel env line w).
Proof.
  intros [Hm Hs]. destruct (processLine_case rev fuel env line w);
    cbn [Outcomes config saved emit setConfig accept allow AcceptedMapping];
    rewrite ?config_prompted, ?saved_prompted; auto.
  split; [|exact Hs].
  destruct (AcceptedMapping (config w0)); [|reflexivity].
    exfalso. apply Hm; [discriminate | assumption].
Qed.

(** X14: a run panics only when the map of accepted commits is nil at its
    start, and a run that panics has saved nothing: what the configuration
    file holds is what it held before.  With a map that is allocated, as
    after a first run, no run panics. *)
Theorem run_panics_only_on_nil_map :
  forall rev fuel env paths w w',
    main rev fuel env paths w = Panics w' ->
    AcceptedMapping (config w) = None /\ saved w' = saved w.
Proof.
  intros rev fuel env paths w w'. unfold main.
  pose proof (walk_outcomes rev fuel env _ _ _ _ paths
                (processLine_panics rev fuel env w)) as H.
  specialize (H (fun _ _ _ _ Hw _ => Hw) (fun _ _ Hw => Hw) w
                (conj (fun Hs => Hs) eq_refl)).
  destruct (walk rev fuel env paths w) as [u w1|code w1|w1|]; cbn in H;
    try discriminate.
  now intros [= <-].
Qed.

End EarlyEnd.

Lemma file_in_progress_is_not_written_witness :
  files (worldOf quitRun quitWorld) = files quitWorld.
Proof.
  apply (@file_in_progress_is_not_written Lib.small Rev2 0 (headsEnv dayOne)
           "ci.yml" quitWorld (worldOf quitRun quitWorld)).
  left. exists 0. vm_compute. reflexivity.
Defined.

Lemma run_panics_only_on_nil_map_witness :
  AcceptedMapping (config nilWorld) = None
  /\ saved (prompted (headsEnv dayOne) [EvGet (api +:+ "o/r/git/ref/heads/master")]
              "o" "r" "master" commit1 nilWorld)
     = saved nilWorld.
Proof.
  apply (@run_panics_only_on_nil_map Lib.small Rev2 0 (headsEnv dayOne)
           ["ci.yml"] nilWorld).
  vm_compute. reflexivity.
Defined.

Section Answers.

Context {lib : GoLibrary}.

(** X15: the answer "a" leaves the line as it is and puts the owner at the
    end of the allowed organisations; from then on, with a comparison of
    names under which the owner equals itself, every line that uses a
    repository of this owner is passed over without a request or a
    question, in whatever file it stands. *)
Theorem allowed_owner_is_not_asked_again :
  forall rev fuel env line w owner repo tag sha evs,
    FindStringSubmatch usageRegex line = Some [owner; repo; tag] ->
    isAllowedOrg (config w) owner || isCommitHash tag = false ->
    lookupAccepted (config w) (keyOf owner repo tag) = None ->
    getCommitSha rev fuel env owner repo tag = Some (Ok sha, evs) ->
    answerOf w = "a" ->
    EqualFold owner owner = true ->
    exists w',
      processLine rev fuel env line w = Returns None w'
      /\ AllowedOrgs (config w') = AllowedOrgs (config w) ++ [owner]
      /\ AcceptedMapping (config w') = AcceptedMapping (config w)
      /\ files w' = files w
      /\ forall rev' fuel' env' line' repo' tag' w'',
           config w'' = config w' ->
           FindStringSubmatch usageRegex line' = Some [owner; repo'; tag'] ->
           processLine rev' fuel' env' line' w'' = Returns None w''.
Proof.
  intros rev fuel env line w owner repo tag sha evs Hfind Hskip Hcache Hres
    Ha Hfold.
  exists (emit [EvAdded owner]
            (setConfig (allow owner (config w))
               (prompted env evs owner repo tag sha w))).
  split; [|split; [reflexivity | split; [reflexivity | split]]].
  - destruct (processLine_case rev fuel env line w)
      as [ Hf | o r t Hf Hs | o r t sha' Hf Hs Hc | o r t Hf Hs Hc Hr
         | o r t err evs' Hf Hs Hc Hr | o r t sha' evs' m Hf Hs Hc Hr Hans Hm
         | o r t sha' evs' Hf Hs Hc Hr Hans Hm | o r t sha' evs' Hf Hs Hc Hr Hans
         | o r t sha' evs' Hf Hs Hc Hr Hans | o r t sha' evs' Hf Hs Hc Hr Hans
         | o r t sha' evs' Hf Hs Hc Hr Hny Hnn Hna Hnq ];
      rewrite Hfind in Hf; try discriminate; injection Hf as <- <- <-;
      congruence.
  - cbn [files emit setConfig]. apply files_prompted.
  - intros rev' fuel' env' line' repo' tag' w'' Hcfg Hfind'.
    unfold processLine. rewrite Hfind', Hcfg. unfold isAllowedOrg.
    cbn [config emit setConfig allow AllowedOrgs].
    rewrite existsb_app. cbn [existsb]. rewrite Hfold.
    now rewrite orb_true_r.
Qed.

Lemma covered_lines rev fuel env lines :
  forall w,
    Forall (Covered (config w)) lines ->
    exists lines' changed evs,
      processLines rev fuel env lines w
      = Returns (lines', changed) (emit evs w)
      /\ forallb fromCache evs = true.
Proof.
  induction lines as [|line rest IH]; intros w Hall; cbn [processLines].
  - exists [], false, []. now rewrite emit_nil.
  - apply Forall_cons in Hall as [Hline Hrest].
    assert (Hturn : exists r evs,
               processLine rev fuel env line w = Returns r (emit evs w)
               /\ forallb fromCache evs = true).
    { destruct (processLine_case rev fuel env line w)
        as [ Hf | o r t Hf Hs | o r t sha' Hf Hs Hc | o r t Hf Hs Hc Hr
           | o r t err evs' Hf Hs Hc Hr | o r t sha' evs' m Hf Hs Hc Hr Hans Hm
           | o r t sha' evs' Hf Hs Hc Hr Hans Hm | o r t sha' evs' Hf Hs Hc Hr Hans
           | o r t sha' evs' Hf Hs Hc Hr Hans | o r t sha' evs' Hf Hs Hc Hr Hans
           | o r t sha' evs' Hf Hs Hc Hr Hny Hnn Hna Hnq ];
        try (destruct (Hline o r t Hf); congruence).
      - exists None, []. now rewrite emit_nil.
      - exists None, []. now rewrite emit_nil.
      - eexists _, [_]. split; reflexivity. }
    destruct Hturn as (r & evs1 & -> & Hq1).
    destruct (IH (emit evs1 w) Hrest) as (rest' & ch & evs2 & -> & Hq2).
    rewrite emit_emit.
    destruct r as [l|]; eexists _, _, (evs1 ++ evs2);
      (split; [reflexivity | now rewrite forallb_app, Hq1, Hq2]).
Qed.

(** X16: a file in which every reference is allowed, pinned to a commit or
    in the map of accepted commits is processed without a request to the
    remote service and without a question: whatever the service and the
    input are, [processFile] returns without an error, with the
    configuration and the input as they were, having printed only what it
    took from the map and what it wrote. *)
Theorem covered_file_needs_no_remote_and_no_answer :
  forall rev fuel env path content w,
    files w !! path = Some content ->
    Forall (Covered (config w)) (Split content newline) ->
    exists w' evs,
      processFile rev fuel env path w = Returns false w'
      /\ config w' = config w /\ stdin w' = stdin w /\ saved w' = saved w
      /\ trace w' = trace w ++ evs /\ forallb fromCache evs = true.
Proof.
  intros rev fuel env path content w Hfile Hall. unfold processFile.
  rewrite Hfile.
  destruct (covered_lines rev fuel env _ w Hall)
    as (lines' & ch & evs & -> & Hq).
  destruct ch.
  - eexists _, (evs ++ [EvUpdated path (Join lines' newline)]).
    split; [reflexivity|]. cbn. rewrite app_assoc, forallb_app, Hq.
    repeat split; reflexivity.
  - exists (emit evs w), evs. repeat split; exact Hq.
Qed.

End Answers.

Lemma allowed_owner_is_not_asked_again_witness :
  exists w',
    processLine (lib := Lib.small) Rev2 0 (headsEnv dayOne) usesMaster
      (startWorld ["a"]) = Returns None w'
    /\ AllowedOrgs (config w') = AllowedOrgs (config (startWorld ["a"])) ++ ["o"]
    /\ AcceptedMapping (config w') = AcceptedMapping (config (startWorld ["a"]))
    /\ files w' = files (startWorld ["a"])
    /\ forall rev' fuel' env' line' repo' tag' w'',
         config w'' = config w' ->
         FindStringSubmatch usageRegex line' = Some ["o"; repo'; tag'] ->
         processLine (lib := Lib.small) rev' fuel' env' line' w''
         = Returns None w''.
Proof.
  apply (@allowed_owner_is_not_asked_again Lib.small Rev2 0 (headsEnv dayOne)
           usesMaster (startWorld ["a"]) "o" "r" "master" commit1
           [EvGet (api +:+ "o/r/git/ref/heads/master")]);
    reflexivity.
Defined.

Lemma covered_file_needs_no_remote_and_no_answer_witness :
  exists w' evs,
    processFile (lib := Lib.small) Rev2 0 offlineEnv "ci.yml" coveredWorld
    = Returns false w'
    /\ config w' = config coveredWorld /\ stdin w' = stdin coveredWorld
    /\ saved w' = saved coveredWorld
    /\ trace w' = trace coveredWorld ++ evs /\ forallb fromCache evs = true.
Proof.
  apply (@covered_file_needs_no_remote_and_no_answer Lib.small Rev2 0
           offlineEnv "ci.yml" coveredFile coveredWorld);
    [reflexivity|].
  apply List.Forall_forall. intros line Hin. vm_compute in Hin.
  destruct Hin as [<- | [<- | [<- | [<- | []]]]]; intros owner repo tag H;
    vm_compute in H; try discriminate; injection H as <- <- <-.
  - left. reflexivity.
  - right. vm_compute. discriminate.
  - left. reflexivity.
Defined.

Section Frame.

Context {lib : GoLibrary}.

Lemma Outcomes_and {A} (P P' : World -> Prop) (Q Q' : Z -> World -> Prop)
  (R R' : World -> Prop) (H H' : Prop) (o : Outcome A) :
  Outcomes P Q R H o -> Outcomes P' Q' R' H' o ->
  Outcomes (fun w => P w /\ P' w) (fun code w => Q code w /\ Q' code w)
    (fun w => R w /\ R' w) (H /\ H') o.
Proof. destruct o; cbn; auto. Qed.

Lemma processLine_saves rev fuel env (sv : option Config) line w :
  saved w = sv ->
  Outcomes (fun w' => saved w' = sv) (fun _ w' => saved w' = Some (config w'))
    (fun w' => saved w' = sv) True (processLine rev fuel env line w).
Proof.
  intros Hw. destruct (processLine_case rev fuel env line w);
    cbn [Outcomes saved config emit setConfig saveConfig];
    rewrite ?saved_prompted; auto.
Qed.

(** What a walk has done to the files and to the configuration file. *)
Lemma walk_frame rev fuel env paths w :
  let F := fun w' : World =>
             (forall p, ~ In p paths -> files w' !! p = files w !! p)
             /\ (forall p, files w' !! p = None <-> files w !! p = None) in
  Outcomes (fun w' => F w' /\ saved w' = saved w)
    (fun _ w' => F w' /\ saved w' = Some (config w'))
    (fun w' => F w' /\ saved w' = saved w) True
    (walk rev fuel env paths w).
Proof.
  intros F. apply walk_outcomes.
  - intros line w1 [Hw1 Hs1].
    pose proof (processLine_keeps_files rev fuel env (files w1) line w1 eq_refl)
      as Hf.
    pose proof (processLine_saves rev fuel env (saved w1) line w1 eq_refl)
      as Hs.
    assert (Hp : forall w2, files w2 = files w1 -> F w2)
      by (intros w2 He; unfold F; rewrite He; exact Hw1).
    pose proof (Outcomes_and _ _ _ _ _ _ _ _ _ Hf Hs) as H. revert H.
    apply Outcomes_impl; try tauto.
    + intros w2 [He Hs2]. split; [now apply Hp | congruence].
    + intros code w2 [He Hs2]. split; [now apply Hp | exact Hs2].
    + intros w2 [He Hs2]. split; [now apply Hp | congruence].
  - intros path content w1 Hin [[Hout Hdom] Hs] Hsome.
    split; [|exact Hs]. split.
    + intros p Hp. cbn [files writeFile].
      rewrite lookup_insert_ne by (intros ->; contradiction). now apply Hout.
    + intros p. cbn [files writeFile].
      destruct (decide (p = path)) as [-> | Hne].
      * rewrite lookup_insert_eq. rewrite <- Hdom. split; [discriminate|].
        intros Hnone. contradiction.
      * rewrite lookup_insert_ne by congruence. apply Hdom.
  - intros path w1 Hw1. exact Hw1.
  - split; [split; reflexivity | reflexivity].
Qed.

(** X17: what a run writes.  Of the workflow files, a run changes none
    outside of those that the walk visits, and it creates none and removes
    none, however it stops.  The configuration file, which is none of them,
    is the one other file that a run writes: when the run returns or leaves
    on "q" it holds the configuration of that moment, and when the run
    panics it holds what it held before. *)
Theorem run_writes_walked_files_and_config_only :
  forall rev fuel env paths w w',
    endsIn (main rev fuel env paths w) w' ->
    (forall p, ~ In p paths -> files w' !! p = files w !! p)
    /\ (forall p, files w' !! p = None <-> files w !! p = None)
    /\ saved w'
       = match main rev fuel env paths w with
         | Panics _ => saved w
         | _ => Some (config w')
         end.
Proof.
  intros rev fuel env paths w w'. unfold main.
  pose proof (walk_frame rev fuel env paths w) as H. cbv zeta in H.
  destruct (walk rev fuel env paths w) as [u w1| | |]; cbn in H |- *;
    intros He; [subst w' .. | contradiction];
    destruct H as [[Hout Hdom] Hs]; repeat split; auto; apply Hdom.
Qed.

(** X18: the key under which a commit is accepted names one reference: two
    lines in which references are found have the same key only when owner,
    repository and reference are the same, so that a commit accepted for one
    reference is never taken for another. *)
Theorem key_names_one_reference :
  forall line line' owner repo tag owner' repo' tag',
    FindStringSubmatch usageRegex line = Some [owner; repo; tag] ->
    FindStringSubmatch usageRegex line' = Some [owner'; repo'; tag'] ->
    keyOf owner repo tag = keyOf owner' repo' tag' ->
    owner = owner' /\ repo = repo' /\ tag = tag'.
Proof.
  intros line line' owner repo tag owner' repo' tag' H H' Hkey.
  apply usageRegex_groups in H as (o & r & t & Hg & Href).
  apply usageRegex_groups in H' as (o' & r' & t' & Hg' & Href').
  apply list3_inj in Hg as (<- & <- & <-).
  apply list3_inj in Hg' as (<- & <- & <-).
  now apply keyOf_inj.
Qed.

End Frame.

Lemma run_writes_walked_files_and_config_only_witness :
  (forall p, ~ In p ["ci.yml"] ->
             files afterFirstRun !! p = files (startWorld ["y"]) !! p)
  /\ (forall p, files afterFirstRun !! p = None
                <-> files (startWorld ["y"]) !! p = None)
  /\ saved afterFirstRun
     = match main (lib := Lib.small) Rev2 0 (headsEnv dayOne) ["ci.yml"]
               (startWorld ["y"]) with
       | Panics _ => saved (startWorld ["y"])
       | _ => Some (config afterFirstRun)
       end.
Proof.
  apply (@run_writes_walked_files_and_config_only Lib.small Rev2 0
           (headsEnv dayOne) ["ci.yml"] (startWorld ["y"]) afterFirstRun).
  vm_compute. reflexivity.
Defined.

Lemma key_names_one_reference_witness :
  "o" = "o" /\ "r" = "r" /\ "master" = "master".
Proof.
  apply (key_names_one_reference usesMaster "  - uses:   o/r@master # head"
           "o" "r" "master" "o" "r" "master"); reflexivity.
Defined.

Section Lines.

Context {lib : GoLibrary}.
Variables (rev : revision) (fuel : nat) (env : Env).

Hypothesis remote_hashes :
  forall owner repo tag sha evs,
    getCommitSha rev fuel env owner repo tag = Some (Ok sha, evs) ->
    isCommitHash sha = true.





End Lines.


(** ** Signs and sizes in the components of a version *)

Lemma scanInt_digits ds rest :
  String.length ds <> 0%nat -> Str.all Scan.isDigit ds = true ->
  Str.span Scan.isDigit rest = 0%nat ->
  Scan.scanInt (ds +:+ rest)
  = if Scan.fitsInt (Scan.decimal ds) then Some (Scan.decimal ds) else None.
Proof.
  intros Hlen Hall Hrest. unfold Scan.scanInt.
  destruct ds as [|c ds]; [cbn in Hlen; lia|].
  pose proof Hall as Hall'. cbn in Hall. apply andb_true_iff in Hall as [Hc _].
  pose proof (isDigit_code _ Hc) as Hcode.
  change (String c ds +:+ rest) with (String c (ds +:+ rest)).
  rewrite SkipSpace_ascii;
    [| lia | unfold Scan.byte; lia | unfold Scan.isBlank; cbv zeta; lia].
  assert (Hsign : Scan.acceptSign (String c (ds +:+ rest))
                  = (false, String c (ds +:+ rest))).
  { unfold Scan.acceptSign, Str.eqc.
    destruct (Ascii.eqb_spec c "-") as [->|_];
      [unfold Str.code in Hcode; cbn in Hcode; lia|].
    destruct (Ascii.eqb_spec c "+") as [->|_];
      [unfold Str.code in Hcode; cbn in Hcode; lia|].
    reflexivity. }
  rewrite Hsign.
  change (String c (ds +:+ rest)) with (String c ds +:+ rest).
  rewrite span_all_app by assumption. rewrite take_length_app.
  destruct (String.length (String c ds) =? 0)%nat eqn:E;
    [apply Nat.eqb_eq in E; lia | reflexivity].
Qed.

Lemma scanInt_minus ds rest :
  String.length ds <> 0%nat -> Str.all Scan.isDigit ds = true ->
  Str.span Scan.isDigit rest = 0%nat ->
  Scan.scanInt ("-" +:+ ds +:+ rest)
  = if Scan.fitsInt (- Scan.decimal ds) then Some (- Scan.decimal ds)
    else None.
Proof.
  intros Hlen Hall Hrest. unfold Scan.scanInt.
  change ("-" +:+ ds +:+ rest) with (String "-" (ds +:+ rest)).
  rewrite SkipSpace_ascii by reflexivity.
  change (Scan.acceptSign (String "-" (ds +:+ rest)))
    with (true, ds +:+ rest).
  cbv beta iota zeta.
  rewrite span_all_app by assumption. rewrite take_length_app.
  destruct (String.length ds =? 0)%nat eqn:E;
    [apply Nat.eqb_eq in E; lia | reflexivity].
Qed.

(** X20: how [compareVersions] reads a component that starts with digits or
    with a minus sign and digits, whatever follows the digits.  Digits of a
    value below 2^63 give that value; digits of a value of 2^63 or more give
    0, as a component without a number does; and a minus sign in front gives
    the negative value, down to -2^63, so that such a component counts as
    less than a missing one. *)
Theorem component_sign_and_size :
  forall ds rest,
    String.length ds <> 0%nat ->
    Str.all Scan.isDigit ds = true ->
    Str.span Scan.isDigit rest = 0%nat ->
    leadingNumber (ds +:+ rest)
    = (if Scan.decimal ds <? 2 ^ 63 then Scan.decimal ds else 0)
    /\ leadingNumber ("-" +:+ ds +:+ rest)
       = (if Scan.decimal ds <=? 2 ^ 63 then - Scan.decimal ds else 0)
    /\ 0 <= Scan.decimal ds.
Proof.
  intros ds rest Hlen Hall Hrest.
  pose proof (decimalFrom_nonneg ds 0 Hall ltac:(lia)) as Hpos.
  fold (Scan.decimal ds) in Hpos.
  unfold leadingNumber, Scan.Sscanf_d.
  rewrite scanInt_digits, scanInt_minus by assumption.
  unfold Scan.fitsInt. repeat split; [| | exact Hpos].
  - destruct (Scan.decimal ds <? 2 ^ 63) eqn:E.
    + replace (- 2 ^ 63 <=? Scan.decimal ds) with true by lia. reflexivity.
    + now rewrite andb_false_r.
  - destruct (Scan.decimal ds <=? 2 ^ 63) eqn:E.
    + replace (- 2 ^ 63 <=? - Scan.decimal ds) with true by lia.
      replace (- Scan.decimal ds <? 2 ^ 63) with true by lia. reflexivity.
    + replace (- 2 ^ 63 <=? - Scan.decimal ds) with false by lia. reflexivity.
Qed.

Lemma component_sign_and_size_witness :
  leadingNumber ("9223372036854775808" +:+ "-rc")
  = (if Scan.decimal "9223372036854775808" <? 2 ^ 63
     then Scan.decimal "9223372036854775808" else 0)
  /\ leadingNumber ("-" +:+ "9223372036854775808" +:+ "-rc")
     = (if Scan.decimal "9223372036854775808" <=? 2 ^ 63
        then - Scan.decimal "9223372036854775808" else 0)
  /\ 0 <= Scan.decimal "9223372036854775808".
Proof.
  apply (component_sign_and_size "9223372036854775808" "-rc");
    [discriminate | reflexivity | reflexivity].
Defined.

(** ** C2: the head of a branch that gives a tag object *)

Section BranchHead.

Context {lib : GoLibrary}.






End BranchHead.



(** ** C7: the indentation, the other lines, the writes *)

Section Rewrite.

Context {lib : GoLibrary}.






End Rewrite.


